(** * eventsource.Server: the broker loop, its subscribers and replay tasks

    A shallow embedding of [vendor/github.com/launchdarkly/eventsource/server.go].
    The goroutines of the program ([Server.run], one [Handler] per connection,
    one [replay] per resumed subscription, and the callers of [Register],
    [Publish], [PublishComment] and [Close]) are interleaved by a schedule: a
    list of [event]s, each one atomic action of one goroutine.  Go channels are
    modelled with their runtime behaviour written out: a send on a closed
    channel panics, closing a closed channel panics, a send on a full channel
    and a receive on an empty open channel do not proceed. *)

From stdpp Require Import base option list gmap sets strings.
From Stdlib Require Import ZArith.

Open Scope Z_scope.
Open Scope nat_scope.

(** ** Outcomes of an atomic action *)

Inductive panic :=
| SendOnClosedChannel      (* "send on closed channel" *)
| CloseOfClosedChannel     (* "close of closed channel" *)
| MakechanSizeOutOfRange   (* "makechan: size out of range" *)
| NilDereference.          (* a pointer that was never allocated *)

(** [Ok a]: the action ran to its end; [Panic p]: the goroutine panicked;
    [Blocked]: the action cannot proceed in this state (the goroutine stays
    parked on its channel operation). *)
Inductive outcome (A : Type) :=
| Ok (a : A)
| Panic (p : panic)
| Blocked.
Arguments Ok {A} a.
Arguments Panic {A} p.
Arguments Blocked {A}.

#[global] Instance outcome_ret : MRet outcome := fun _ a => Ok a.
#[global] Instance outcome_bind : MBind outcome := fun _ _ f m =>
  match m with
  | Ok a => f a
  | Panic p => Panic p
  | Blocked => Blocked
  end.

(** [for x := range l { f x }] over a world [W] that every iteration updates. *)
Fixpoint range {A W : Type} (f : A → W → outcome W) (l : list A) (w : W) : outcome W :=
  match l with
  | [] => Ok w
  | x :: l' => w' ← f x w; range f l' w'
  end.

(** ** Go channels *)

(** A channel made with [make(chan A, cap)]: the buffered values, oldest
    first, the capacity, and whether [close] was called.  An unbuffered
    channel ([cap = 0]) hands a value over only to a receiver that is already
    parked on it; the broker's own unbuffered channels are modelled as the
    events of [step].  A subscription queue made with [BufferSize = 0] is
    covered for the schedules in which its handler is not parked on it when
    [run] or [replay] sends: there the send does not proceed. *)
Record chan (A : Type) := Chan { buf : list A; cap : nat; closed : bool }.
Arguments Chan {A} buf cap closed.
Arguments buf {A} c.
Arguments cap {A} c.
Arguments closed {A} c.

(** The world in which [for x := range l { f x }] stops: after the last
    iteration, or where an iteration panics or parks.  The iterations before
    that one have run and what they did stays done; [inside x w] is the world
    in which the body itself stops. *)
Fixpoint range_stop {A W : Type} (f : A → W → outcome W) (inside : A → W → W)
    (l : list A) (w : W) : W :=
  match l with
  | [] => w
  | x :: l' =>
      match f x w with
      | Ok w' => range_stop f inside l' w'
      | _ => inside x w
      end
  end.

(** [make(chan A, size)] *)
Definition make {A : Type} (size : Z) : outcome (chan A) :=
  if (size <? 0)%Z then Panic MakechanSizeOutOfRange
  else Ok (Chan [] (Z.to_nat size) false).

Definition full {A : Type} (c : chan A) : bool := cap c <=? length (buf c).

(** [c <- v] *)
Definition send {A : Type} (v : A) (c : chan A) : outcome (chan A) :=
  if closed c then Panic SendOnClosedChannel
  else if full c then Blocked
  else Ok (Chan (buf c ++ [v]) (cap c) false).

(** [select { case c <- v: ...; default: ... }]: [Some c'] when the send went
    through, [None] when the default branch is taken. *)
Definition try_send {A : Type} (v : A) (c : chan A) : outcome (option (chan A)) :=
  if closed c then Panic SendOnClosedChannel
  else if full c then Ok None
  else Ok (Some (Chan (buf c ++ [v]) (cap c) false)).

(** [v, ok := <-c]: buffered values are still delivered after [close];
    [None] is [ok = false]. *)
Definition recv {A : Type} (c : chan A) : outcome (option A * chan A) :=
  match buf c with
  | v :: rest => Ok (Some v, Chan rest (cap c) (closed c))
  | [] => if closed c then Ok (None, c) else Blocked
  end.

(** [close(c)] *)
Definition close {A : Type} (c : chan A) : outcome (chan A) :=
  if closed c then Panic CloseOfClosedChannel
  else Ok (Chan (buf c) (cap c) true).

(** ** Data model *)

(** Modelled from the spec: the [Event] interface is declared outside
    server.go; an event carries an identifier usable as a resume token and an
    application payload. *)
Record Event := { Id : string; Data : string }.

(** Modelled from the spec: the [Repository] interface is declared outside
    server.go; [Replay channel id] yields a finite sequence of historical
    events (in Go, a channel that the repository closes after the last one). *)
Record Repository := { Replay : string → string → list Event }.

Record comment := { value : string }.

Inductive eventOrComment :=
| IsEvent (ev : Event)
| IsComment (c : comment).

(** A [*subscription] is an address in [heap]. *)
Abbreviation ptr := nat (only parsing).

Record subscription := Subscription {
  channel : string;
  lastEventID : string;
  out : chan eventOrComment;
}.

Record outbound := {
  channels : list string;
  item : eventOrComment;      (* field [eventOrComment] *)
}.

Record registration := {
  reg_channel : string;       (* field [channel] *)
  repository : Repository;
}.

(** The fields of [Server] that the broker uses.  [registrations], [pub],
    [subs] and [quit] are unbuffered: a send on one of them is one step
    together with the receive in [run].  [AllowCORS], [Gzip] and [Logger]
    belong to the transport. *)
Record Server := {
  ReplayAll : bool;
  BufferSize : Z;
  unregister : chan ptr;
  isClosed : bool;
}.

(** The state of the program: the server, the subscriptions allocated so far,
    the two maps local to [run], whether [run] still takes requests (it does
    not once it has returned, nor once it is parked for good inside a
    fan-out), the [replay] goroutines with what is left of
    [range repo.Replay(..)], and what the handlers have taken out of their
    queues so far. *)
Record world := World {
  srv : Server;
  heap : list subscription;
  subs : gmap string (gset ptr);
  repos : gmap string Repository;
  running : bool;
  replays : list (ptr * list Event);
  received : list (ptr * eventOrComment);
}.

Definition set_srv (s : Server) (w : world) : world :=
  World s (heap w) (subs w) (repos w) (running w) (replays w) (received w).
Definition set_heap (h : list subscription) (w : world) : world :=
  World (srv w) h (subs w) (repos w) (running w) (replays w) (received w).
Definition set_subs (m : gmap string (gset ptr)) (w : world) : world :=
  World (srv w) (heap w) m (repos w) (running w) (replays w) (received w).
Definition set_repos (m : gmap string Repository) (w : world) : world :=
  World (srv w) (heap w) (subs w) m (running w) (replays w) (received w).
Definition set_running (b : bool) (w : world) : world :=
  World (srv w) (heap w) (subs w) (repos w) b (replays w) (received w).
Definition set_replays (l : list (ptr * list Event)) (w : world) : world :=
  World (srv w) (heap w) (subs w) (repos w) (running w) l (received w).
Definition set_received (l : list (ptr * eventOrComment)) (w : world) : world :=
  World (srv w) (heap w) (subs w) (repos w) (running w) (replays w) l.

Definition set_unregister (u : chan ptr) (w : world) : world :=
  set_srv {| ReplayAll := ReplayAll (srv w); BufferSize := BufferSize (srv w);
             unregister := u; isClosed := isClosed (srv w) |} w.

(** [*p] *)
Definition deref (p : ptr) (w : world) : outcome subscription :=
  match heap w !! p with
  | Some s => Ok s
  | None => Panic NilDereference
  end.

(** The queue of [p] becomes [c]; its other fields never change. *)
Definition set_out (p : ptr) (c : chan eventOrComment) (w : world) : world :=
  match heap w !! p with
  | Some s => set_heap (<[p := Subscription (channel s) (lastEventID s) c]> (heap w)) w
  | None => w
  end.

(** [subs[c]]: a missing key reads as the nil map, which ranges as empty. *)
Definition subs_at (c : string) (w : world) : gset ptr := default ∅ (subs w !! c).

(** The order in which [range] visits a Go map is not specified and may
    change from one loop to the next; the embedding takes it as given, for
    each state in which a loop starts. *)
Class RangeOrder := {
  range_set : world → gset ptr → list ptr;
  range_map : world → gmap string (gset ptr) → list (string * gset ptr);
  range_set_perm w X : range_set w X ≡ₚ elements X;
  range_map_perm w m : range_map w m ≡ₚ map_to_list m;
}.

(** ** NewServer, Close, Register, Publish *)

Definition NewServer : world := {|
  srv := {| ReplayAll := false; BufferSize := 128;
            unregister := Chan [] 2 false; isClosed := false |};
  heap := []; subs := ∅; repos := ∅; running := true;
  replays := []; received := [];
|}.

(** [srv.isClosed = true] under the mutex *)
Definition markServerClosed (w : world) : world :=
  set_srv {| ReplayAll := ReplayAll (srv w); BufferSize := BufferSize (srv w);
             unregister := unregister (srv w); isClosed := true |} w.

Definition isServerClosed (w : world) : bool := isClosed (srv w).

(** ** [replay] *)

(** One iteration of [for ev := range repo.Replay(..) { sub.out <- ev }] in
    the [g]-th replay goroutine.  A goroutine whose range is exhausted has
    returned and has no step. *)
Definition replay (g : nat) (w : world) : outcome world :=
  match replays w !! g with
  | Some (sub, ev :: rest) =>
      s ← deref sub w;
      c ← send (IsEvent ev) (out s);
      Ok (set_replays (<[g := (sub, rest)]> (replays w)) (set_out sub c w))
  | _ => Blocked
  end.

(** ** The cases of the [select] in [run] *)

Section Run.
Context {RO : RangeOrder}.

(** [case reg := <-srv.registrations] *)
Definition run_registrations (reg : registration) (w : world) : outcome world :=
  Ok (set_repos (<[reg_channel reg := repository reg]> (repos w)) w).

(** [case sub := <-srv.unregister]: [delete(subs[sub.channel], sub)]; a
    delete from the nil map does nothing. *)
Definition run_unregister (sub : ptr) (w : world) : outcome world :=
  s ← deref sub w;
  Ok (set_subs (alter (λ X, X ∖ {[sub]}) (channel s) (subs w)) w).

(** The body of [for s := range subs[c]] in the publish case. *)
Definition fanout (it : eventOrComment) (s : ptr) (w : world) : outcome world :=
  sub ← deref s w;
  sent ← try_send it (out sub);
  match sent with
  | Some c => Ok (set_out s c w)
  | None =>
      u ← send s (unregister (srv w));
      c ← close (out sub);
      Ok (set_out s c (set_unregister u w))
  end.

(** [case pub := <-srv.pub], processed to its end.  When an iteration of
    the loop panics or parks, what the iterations before it did is not undone:
    see [run_pub_stop]. *)
Definition run_pub (pub : outbound) (w : world) : outcome world :=
  range (λ c w', range (fanout (item pub)) (range_set w' (subs_at c w')) w')
        (channels pub) w.

(** Where the body of the inner loop stops, each write that was made staying
    made.  A send that panics or parks has written nothing, and
    [srv.unregister <- s] comes before [close(s.out)]. *)
Definition fanout_stop (it : eventOrComment) (s : ptr) (w : world) : world :=
  match deref s w with
  | Ok sub =>
      match try_send it (out sub) with
      | Ok (Some c) => set_out s c w
      | Ok None =>
          match send s (unregister (srv w)) with
          | Ok u =>
              match close (out sub) with
              | Ok c => set_out s c (set_unregister u w)
              | _ => set_unregister u w
              end
          | _ => w
          end
      | _ => w
      end
  | _ => w
  end.

(** Where the fan-out of [pub] stops: at its end, or inside the iteration of
    the inner loop that panics or parks. *)
Definition run_pub_stop (pub : outbound) (w : world) : world :=
  range_stop
    (λ c w', range (fanout (item pub)) (range_set w' (subs_at c w')) w')
    (λ c w', range_stop (fanout (item pub)) (fanout_stop (item pub))
               (range_set w' (subs_at c w')) w')
    (channels pub) w.

(** [run] has taken [pub] from [srv.pub] and is parked inside the fan-out, on
    [srv.unregister <- s] with the buffer full.  Nobody but [run] receives on
    [srv.unregister], so [run] stays parked there: what the fan-out did
    before is done, and [run] takes no request any more. *)
Definition run_pub_parked (pub : outbound) (w : world) : world :=
  set_running false (run_pub_stop pub w).

(** [go replay(repo, sub)] *)
Definition go_replay (repo : Repository) (sub : ptr) (s : subscription) (w : world) : world :=
  set_replays (replays w ++ [(sub, Replay repo (channel s) (lastEventID s))]) w.

(** [case sub := <-srv.subs] *)
Definition run_subs (sub : ptr) (w : world) : outcome world :=
  s ← deref sub w;
  let w1 := match subs w !! channel s with
            | Some _ => w
            | None => set_subs (<[channel s := ∅]> (subs w)) w
            end in
  let w2 := set_subs (alter (λ X, X ∪ {[sub]}) (channel s) (subs w1)) w1 in
  if ReplayAll (srv w2) || (0 <? String.length (lastEventID s)) then
    match repos w2 !! channel s with
    | Some repo => Ok (go_replay repo sub s w2)
    | None => Ok w2
    end
  else Ok w2.

(** [close(s.out)] on the subscription at [s]. *)
Definition close_out (s : ptr) (w : world) : outcome world :=
  sub ← deref s w;
  c ← close (out sub);
  Ok (set_out s c w).

(** [case <-srv.quit] *)
Definition run_quit (w : world) : outcome world :=
  w' ← range (λ kv w', range close_out (range_set w' kv.2) w')
             (range_map w (subs w)) w;
  Ok (set_running false w').

(** ** The goroutines' steps *)

Inductive event :=
| Register (channel : string) (repo : Repository)
| Publish (channels : list string) (ev : Event)
| PublishComment (channels : list string) (text : string)
| Close_quit                        (* [srv.quit <- true] in [Close] *)
| Close_mark                        (* [srv.markServerClosed()] in [Close] *)
| Handler_subs (channel : string) (lastEventID : string)
                                    (* [Handler] up to [srv.subs <- sub] *)
| Handler_out (sub : ptr)           (* [case ev, ok := <-sub.out] *)
| Handler_unregister (sub : ptr)    (* [srv.unregister <- sub] *)
| Run_unregister                    (* [case sub := <-srv.unregister] in [run] *)
| Replay_send (g : nat).            (* [sub.out <- ev] in [replay] *)

(** A receive of [run] on one of its unbuffered channels: nobody receives
    once [run] has returned or is parked for good, and the sender stays
    parked. *)
Definition in_run (f : world → outcome world) (w : world) : outcome world :=
  if running w then f w else Blocked.

(** [Handler], from the closed check to [srv.subs <- sub]. *)
Definition Handler_subscribe (ch id : string) (w : world) : outcome world :=
  if isServerClosed w then Ok w
  else
    c ← make (BufferSize (srv w));
    let sub := length (heap w) in
    let w1 := set_heap (heap w ++ [Subscription ch id c]) w in
    in_run (run_subs sub) w1.

(** The subscription that the handler holding [sub] made; no handler holds
    an address that was never allocated. *)
Definition Handler_sub (sub : ptr) (w : world) : outcome subscription :=
  match heap w !! sub with
  | Some s => Ok s
  | None => Blocked
  end.

(** [Handler], [case ev, ok := <-sub.out]: on [ok = false] the handler
    returns. *)
Definition Handler_receive (sub : ptr) (w : world) : outcome world :=
  s ← Handler_sub sub w;
  r ← recv (out s);
  match r.1 with
  | Some ev => Ok (set_received (received w ++ [(sub, ev)]) (set_out sub r.2 w))
  | None => Ok w
  end.

Definition step (w : world) (e : event) : outcome world :=
  match e with
  | Register ch repo =>
      in_run (run_registrations {| reg_channel := ch; repository := repo |}) w
  | Publish chs ev =>
      in_run (run_pub {| channels := chs; item := IsEvent ev |}) w
  | PublishComment chs text =>
      in_run (run_pub {| channels := chs; item := IsComment {| value := text |} |}) w
  | Close_quit => in_run run_quit w
  | Close_mark => Ok (markServerClosed w)
  | Handler_subs ch id => Handler_subscribe ch id w
  | Handler_out sub => Handler_receive sub w
  | Handler_unregister sub =>
      _ ← Handler_sub sub w;
      u ← send sub (unregister (srv w));
      Ok (set_unregister u w)
  | Run_unregister =>
      in_run (λ w,
        r ← recv (unregister (srv w));
        match r.1 with
        | Some sub => run_unregister sub (set_unregister r.2 w)
        | None => Panic NilDereference     (* [sub] is nil, [sub.channel] *)
        end) w
  | Replay_send g => replay g w
  end.

(** A schedule: the steps of the goroutines in the order they happen. *)
Fixpoint exec (w : world) (es : list event) : outcome world :=
  match es with
  | [] => Ok w
  | e :: es' => w' ← step w e; exec w' es'
  end.

End Run.

(** ** Notions used in the statements *)

(** What the handler of [p] has taken out of its queue so far. *)
Definition received_by (p : ptr) (w : world) : list eventOrComment :=
  (filter (λ x, x.1 = p) (received w)).*2.

(** What a step may do to one subscription: its channel, Last-Event-ID and
    capacity stay, a closed queue stays closed, and if the queue is open
    afterwards then it was open before and [its] were appended to it. *)
Definition pushed (its : list eventOrComment) (s s1 : subscription) : Prop :=
  channel s1 = channel s
  ∧ lastEventID s1 = lastEventID s
  ∧ cap (out s1) = cap (out s)
  ∧ (closed (out s) = true → closed (out s1) = true)
  ∧ (closed (out s1) = false →
     closed (out s) = false ∧ buf (out s1) = buf (out s) ++ its).

(** The parts of the world that a fan-out or a close leaves alone. *)
Definition same_maps (w w1 : world) : Prop :=
  subs w1 = subs w ∧ repos w1 = repos w ∧ running w1 = running w
  ∧ replays w1 = replays w ∧ received w1 = received w
  ∧ length (heap w1) = length (heap w).

(** What one publish contributes to the queue of [p], given the sets. *)
Definition delivered (p : ptr) (m : gmap string (gset ptr))
    (chs : list string) (it : eventOrComment) : list eventOrComment :=
  flat_map (λ c, if decide (p ∈ default ∅ (m !! c)) then [it] else []) chs.

(** Every member of the set of a channel is an allocated subscription to that
    channel: [run] only ever executes [subs[sub.channel][sub] = struct{}{}]. *)
Definition wf (w : world) : Prop :=
  ∀ c p, p ∈ subs_at c w → ∃ s, heap w !! p = Some s ∧ channel s = c.

(** No replay task has anything left to send to [p]. *)
Definition replay_done (p : ptr) (w : world) : Prop :=
  ∀ g rest, replays w !! g = Some (p, rest) → rest = [].

(** The items that [run] hands to the subscribers of channel [c] when it
    processes [e]: one per occurrence of [c] in the channels of a publish. *)
Definition published (c : string) (e : event) : list eventOrComment :=
  match e with
  | Publish chs ev =>
      flat_map (λ d, if decide (d = c) then [IsEvent ev] else []) chs
  | PublishComment chs text =>
      flat_map (λ d, if decide (d = c) then [IsComment {| value := text |}] else []) chs
  | _ => []
  end.

(** What the step [e] from [w] to [w1] did for the subscription [p], which
    was [s] and is [s1]: if the queue of [p] is open afterwards, the step
    appended some [d] to what [p] was handed, and if [p] is still subscribed
    [d] has the items that [e] publishes on the channel, in order; [d] is
    exactly those items unless the step is from a replay into [p]. *)
Definition follows (p : ptr) (e : event) (w w1 : world) (s s1 : subscription) : Prop :=
  wf w1
  ∧ (replay_done p w → replay_done p w1)
  ∧ channel s1 = channel s
  ∧ (p ∈ subs_at (channel s) w1 → p ∈ subs_at (channel s) w)
  ∧ (closed (out s) = true → closed (out s1) = true)
  ∧ (closed (out s1) = false →
     ∃ d, received_by p w1 ++ buf (out s1) =
          received_by p w ++ buf (out s) ++ d
          ∧ (p ∈ subs_at (channel s) w1 →
             published (channel s) e `sublist_of` d
             ∧ (replay_done p w → d = published (channel s) e))).

(** [e] is a [Register] for the channel [c]. *)
Definition registers (c : string) (e : event) : Prop :=
  match e with
  | Register ch _ => ch = c
  | _ => False
  end.

(** [srv.unregister] is open and holds no more than its capacity. *)
Definition unregister_bounded (w : world) : Prop :=
  closed (unregister (srv w)) = false
  ∧ length (buf (unregister (srv w))) ≤ cap (unregister (srv w)).

(** Every queue was made with the server's [BufferSize] and holds no more
    than that. *)
Definition queues_bounded (w : world) : Prop :=
  ∀ p s, heap w !! p = Some s →
    cap (out s) = Z.to_nat (BufferSize (srv w))
    ∧ length (buf (out s)) ≤ cap (out s).

(** Every replay task is for an allocated subscription, and no two tasks are
    for the same one. *)
Definition one_task_each (w : world) : Prop :=
  NoDup (replays w).*1 ∧ ∀ q, q ∈ (replays w).*1 → q < length (heap w).

(** What a fan-out or a shutdown leaves as it was: the settings, the
    capacities, the bounds, the number of subscriptions, and every queue that
    was closed already. *)
Definition keeps (w w1 : world) : Prop :=
  ReplayAll (srv w1) = ReplayAll (srv w)
  ∧ BufferSize (srv w1) = BufferSize (srv w)
  ∧ isClosed (srv w1) = isClosed (srv w)
  ∧ cap (unregister (srv w1)) = cap (unregister (srv w))
  ∧ (unregister_bounded w → unregister_bounded w1)
  ∧ length (heap w1) = length (heap w)
  ∧ ∀ p s, heap w !! p = Some s →
      ∃ s1, heap w1 !! p = Some s1
            ∧ cap (out s1) = cap (out s)
            ∧ (length (buf (out s)) ≤ cap (out s) →
               length (buf (out s1)) ≤ cap (out s1))
            ∧ (closed (out s) = true → s1 = s).

(** Every request waiting in [srv.unregister] is for a subscription that was
    made. *)
Definition unregister_allocated (w : world) : Prop :=
  ∀ q, q ∈ buf (unregister (srv w)) → q < length (heap w).

Definition allocs (w w1 : world) : Prop :=
  length (heap w1) = length (heap w)
  ∧ (unregister_allocated w → unregister_allocated w1).

(** ** Concrete inputs *)

(** One range order, for running the program on concrete inputs. *)
Definition elements_order : RangeOrder := {|
  range_set _ := elements;
  range_map _ := map_to_list;
  range_set_perm _ X := reflexivity _;
  range_map_perm _ m := reflexivity _;
|}.

(** [srv.BufferSize = n], set by the caller after [NewServer]. *)
Definition with_BufferSize (n : Z) (w : world) : world :=
  set_srv {| ReplayAll := ReplayAll (srv w); BufferSize := n;
             unregister := unregister (srv w); isClosed := isClosed (srv w) |} w.

(** The result of a schedule that is known to run through. *)
Definition after (o : outcome world) : world :=
  match o with Ok w => w | _ => NewServer end.

Definition ev1 : Event := {| Id := "1"; Data := "one" |}.
Definition ev2 : Event := {| Id := "2"; Data := "two" |}.
Definition ev3 : Event := {| Id := "3"; Data := "three" |}.
Definition ev4 : Event := {| Id := "4"; Data := "four" |}.

(** A repository with three historical events. *)
Definition repo3 : Repository := {| Replay := λ _ _, [ev1; ev2; ev3] |}.

(** The world after the schedule [es] from [w], visiting maps as [elements]. *)
Definition run_from (w : world) (es : list event) : world :=
  after (exec (RO:=elements_order) w es).

(** One subscriber of "a" whose queue of capacity 1 is full. *)
Definition w_full : world :=
  run_from (with_BufferSize 1 NewServer) [Handler_subs "a" ""; Publish ["a"] ev1].

(** The same after one more publish: closed, and its unregister queued. *)
Definition w_closed : world := run_from w_full [Publish ["a"] ev2].

(** Three subscribers of "a" whose queues of capacity 1 are full. *)
Definition w_three : world :=
  run_from (with_BufferSize 1 NewServer)
    [Handler_subs "a" ""; Handler_subs "a" ""; Handler_subs "a" "";
     Publish ["a"] ev1].

(** A subscriber of "news" with a replay of [repo3] in front of it. *)
Definition w_replay : world :=
  run_from NewServer [Register "news" repo3; Handler_subs "news" "0"].

(** One subscriber of "a" whose handler has just sent its unregister. *)
Definition w_leaving : world :=
  run_from NewServer [Handler_subs "a" ""; Handler_unregister 0].

(** A closed subscriber that was unregistered by [run], with a second
    unregister for it, from its handler, in the buffer. *)
Definition w_again : world :=
  run_from w_closed [Handler_unregister 0; Run_unregister].

(** Two subscribers of "a". *)
Definition w_two : world :=
  run_from NewServer [Handler_subs "a" ""; Handler_subs "a" ""].

(** Publishes to "a" while the handler of the first subscriber reads once. *)
Definition es_two : list event :=
  [Publish ["a"] ev1; Handler_out 0; PublishComment ["a"] "ping";
   Publish ["b"; "a"] ev2].

(** An unregister request for a subscription that [run] never saw. *)
Definition w_unseen : world := {|
  srv := {| ReplayAll := false; BufferSize := 128;
            unregister := Chan [0] 2 false; isClosed := false |};
  heap := [Subscription "a" "" (Chan [] 128 false)];
  subs := ∅; repos := ∅; running := true; replays := []; received := [];
|}.

(** [Close] has got its quit through and has not marked the server yet. *)
Definition w_quit : world := run_from NewServer [Close_quit].

(** Two subscribers of "a", and [Close] has returned. *)
Definition w_shut : world := run_from w_two [Close_quit; Close_mark].

(** [run] has returned and the two handlers have sent their unregister. *)
Definition w_stuck : world :=
  run_from w_two [Close_quit; Handler_unregister 0; Handler_unregister 1].

(** The one subscriber of "a" has been unregistered. *)
Definition w_left : world := run_from w_leaving [Run_unregister].

(** Five subscribers of "a" with queues of capacity 1: those of 1, 2 and 3
    are full, the handlers of 0 and 4 have read their item. *)
Definition w_five : world :=
  run_from (with_BufferSize 1 NewServer)
    [Handler_subs "a" ""; Handler_subs "a" ""; Handler_subs "a" "";
     Handler_subs "a" ""; Handler_subs "a" ""; Publish ["a"] ev1;
     Handler_out 0; Handler_out 4].

(** The fan-out of [ev2] over [w_five] after its first three iterations. *)
Definition w_five_mid : world :=
  after (range (fanout (IsEvent ev2)) [4; 2; 3] w_five).

(** A repository without history. *)
Definition repo0 : Repository := {| Replay := λ _ _, [] |}.

(** ** Basic facts *)

Lemma set_subs_id w : set_subs (subs w) w = w.
Proof. by destruct w. Qed.

Lemma heap_set_out_eq p c w s :
  heap w !! p = Some s →
  heap (set_out p c w) !! p = Some (Subscription (channel s) (lastEventID s) c).
Proof.
  intros Hp. unfold set_out. rewrite Hp. simpl.
  apply list_lookup_insert_eq. by eapply lookup_lt_Some.
Qed.

Lemma heap_set_out_ne p q c w : p ≠ q → heap (set_out p c w) !! q = heap w !! q.
Proof.
  intros Hne. unfold set_out. destruct (heap w !! p); [|done].
  simpl. by apply list_lookup_insert_ne.
Qed.

Lemma subs_set_out p c w : subs (set_out p c w) = subs w.
Proof. unfold set_out. by destruct (heap w !! p). Qed.

Lemma srv_set_out p c w : srv (set_out p c w) = srv w.
Proof. unfold set_out. by destruct (heap w !! p). Qed.

Lemma subs_at_set_out d p c w : subs_at d (set_out p c w) = subs_at d w.
Proof. unfold subs_at. by rewrite subs_set_out. Qed.

Section Facts.
Context {RO : RangeOrder}.

Lemma range_set_empty w : range_set w ∅ = [].
Proof.
  apply Permutation_nil_r. rewrite range_set_perm. by rewrite elements_empty.
Qed.

Lemma range_set_NoDup w X : NoDup (range_set w X).
Proof. rewrite range_set_perm. apply NoDup_elements. Qed.

Lemma elem_of_range_set w X p : p ∈ range_set w X ↔ p ∈ X.
Proof. rewrite range_set_perm. apply elem_of_elements. Qed.

End Facts.

(** ** Unregistering *)

Section Unregister.
Context {RO : RangeOrder}.

Lemma run_unregister_absent w sub s :
  heap w !! sub = Some s →
  sub ∉ subs_at (channel s) w →
  run_unregister sub w = Ok w.
Proof.
  intros Hs Hnot. unfold run_unregister, deref. rewrite Hs. simpl.
  rewrite alter_id; [by rewrite set_subs_id|]. intros X HX.
  unfold subs_at in Hnot. rewrite HX in Hnot. simpl in Hnot.
  apply set_eq. intros x. rewrite elem_of_difference, elem_of_singleton.
  split; [tauto|]. intros Hx. split; [done|]. by intros ->.
Qed.

Lemma run_unregister_spec w sub s :
  heap w !! sub = Some s →
  ∃ w', run_unregister sub w = Ok w'
        ∧ heap w' = heap w ∧ srv w' = srv w ∧ repos w' = repos w
        ∧ replays w' = replays w ∧ received w' = received w
        ∧ running w' = running w
        ∧ subs_at (channel s) w' = subs_at (channel s) w ∖ {[sub]}
        ∧ (∀ c, c ≠ channel s → subs w' !! c = subs w !! c)
        ∧ dom (subs w') = dom (subs w).
Proof.
  intros Hs. unfold run_unregister, deref. rewrite Hs. simpl.
  eexists. split; [done|]. simpl. repeat split; try done.
  - unfold subs_at. simpl. rewrite lookup_alter_eq.
    destruct (subs w !! channel s); simpl; [done|]. symmetry. apply set_eq. intros x.
    rewrite elem_of_difference, elem_of_empty. tauto.
  - intros c Hc. by rewrite lookup_alter_ne.
  - apply set_eq. intros c. rewrite !elem_of_dom.
    destruct (decide (c = channel s)) as [->|Hc].
    + rewrite lookup_alter_eq. by rewrite fmap_is_Some.
    + by rewrite lookup_alter_ne.
Qed.

End Unregister.

Section UnregisterClaims.
Context {RO : RangeOrder}.

Lemma step_Run_unregister w sub rest :
  running w = true →
  buf (unregister (srv w)) = sub :: rest →
  step w Run_unregister =
  run_unregister sub
    (set_unregister (Chan rest (cap (unregister (srv w))) (closed (unregister (srv w)))) w).
Proof.
  intros Hrun Hbuf. unfold step, in_run, recv. by rewrite Hrun, Hbuf.
Qed.

(** C3, as the code has it: processing an unregister request for an active
    subscription removes it from the set of its channel and does not close
    its queue.  The other members of the set, the sets of the other
    channels, the repositories, the replay tasks and every subscription with
    its queue are left as they were; the queue of the subscription, when it
    is open and empty, still makes its reader wait: the reader sees no end
    of the stream. *)
Theorem unregister_removes_and_keeps_queue w sub rest s :
  running w = true →
  buf (unregister (srv w)) = sub :: rest →
  heap w !! sub = Some s →
  sub ∈ subs_at (channel s) w →
  ∃ w', step w Run_unregister = Ok w'
        ∧ (sub ∉ subs_at (channel s) w')
        ∧ (∀ p, p ≠ sub → (p ∈ subs_at (channel s) w' ↔ p ∈ subs_at (channel s) w))
        ∧ (∀ c, c ≠ channel s → subs w' !! c = subs w !! c)
        ∧ heap w' = heap w
        ∧ repos w' = repos w ∧ replays w' = replays w
        ∧ received w' = received w ∧ running w' = true
        ∧ (closed (out s) = false → buf (out s) = [] →
           step w' (Handler_out sub) = Blocked).
Proof.
  intros Hrun Hbuf Hs _. rewrite (step_Run_unregister _ _ _ Hrun Hbuf).
  set (w0 := set_unregister _ w).
  destruct (run_unregister_spec w0 sub s Hs)
    as (w' & -> & Hheap & _ & Hrepos & Hrpl & Hrcv & Hrun' & Hset & Hoth & _).
  exists w'. split; [done|]. rewrite Hset.
  change (subs_at (channel s) w0) with (subs_at (channel s) w).
  split; [|split; [|split; [exact Hoth|]]].
  - rewrite elem_of_difference, elem_of_singleton. tauto.
  - intros p Hp. rewrite elem_of_difference, elem_of_singleton. tauto.
  - split; [done|]. split; [done|]. split; [done|]. split; [done|].
    split; [by rewrite Hrun'|].
    intros Hopen Hempty. simpl. unfold Handler_receive, Handler_sub, recv.
    rewrite Hheap. change (heap w0) with (heap w). rewrite Hs. simpl.
    by rewrite Hempty, Hopen.
Qed.

(** C7: an unregister request for a subscription that is no longer in the set
    of its channel (it was unregistered before, by its handler or by the
    slow-consumer branch of publish) is consumed without a panic and without
    closing anything: the two maps, the subscriptions and their queues are
    what they were. *)
Theorem unregister_again_is_noop w sub rest s :
  running w = true →
  buf (unregister (srv w)) = sub :: rest →
  heap w !! sub = Some s →
  sub ∉ subs_at (channel s) w →
  ∃ w', step w Run_unregister = Ok w'
        ∧ subs w' = subs w ∧ repos w' = repos w ∧ heap w' = heap w
        ∧ running w' = true.
Proof.
  intros Hrun Hbuf Hs Hnot. rewrite (step_Run_unregister _ _ _ Hrun Hbuf).
  rewrite (run_unregister_absent _ sub s); [|done|done].
  eexists. split; [done|]. by simpl.
Qed.

(** C10: a publish to channels without a subscription, and an unregister
    request for a subscription whose channel is not a key of the map, run
    through without error and leave the two maps (and every queue) as they
    were. *)
Theorem unused_channel_is_noop w :
  running w = true →
  (∀ chs ev text, (∀ c, c ∈ chs → subs_at c w = ∅) →
     step w (Publish chs ev) = Ok w ∧ step w (PublishComment chs text) = Ok w)
  ∧ (∀ sub rest s,
       buf (unregister (srv w)) = sub :: rest →
       heap w !! sub = Some s →
       subs w !! channel s = None →
       ∃ w', step w Run_unregister = Ok w'
             ∧ subs w' = subs w ∧ repos w' = repos w ∧ heap w' = heap w).
Proof.
  intros Hrun. split.
  - intros chs ev text Hchs.
    assert (∀ it, run_pub {| channels := chs; item := it |} w = Ok w) as Hpub.
    { intros it. unfold run_pub. simpl.
      induction chs as [|c chs IH]; simpl; [done|].
      rewrite (Hchs c), range_set_empty by apply list_elem_of_here. simpl.
      apply IH. intros c' Hc'. apply Hchs. by apply list_elem_of_further. }
    unfold step, in_run. rewrite Hrun. by rewrite !Hpub.
  - intros sub rest s Hbuf Hs Hnone.
    rewrite (step_Run_unregister _ _ _ Hrun Hbuf).
    rewrite (run_unregister_absent _ sub s); [|done|].
    + eexists. split; [done|]. by simpl.
    + unfold subs_at. simpl. rewrite Hnone. simpl. apply not_elem_of_empty.
Qed.

End UnregisterClaims.

(** ** Subscribing *)

Section Subscribe.
Context {RO : RangeOrder}.

Lemma length_pos_ne_empty (id : string) : (0 <? String.length id) = true ↔ id ≠ "".
Proof.
  destruct id as [|a id]; simpl.
  - split; [discriminate|congruence].
  - split; [discriminate|done].
Qed.

Lemma run_subs_spec w sub s :
  heap w !! sub = Some s →
  ∃ w', run_subs sub w = Ok w'
        ∧ heap w' = heap w ∧ srv w' = srv w ∧ repos w' = repos w
        ∧ running w' = running w ∧ received w' = received w
        ∧ subs_at (channel s) w' = subs_at (channel s) w ∪ {[sub]}
        ∧ (∀ c, c ≠ channel s → subs w' !! c = subs w !! c)
        ∧ replays w' =
            (if ReplayAll (srv w) || (0 <? String.length (lastEventID s))
             then match repos w !! channel s with
                  | Some repo =>
                      replays w ++ [(sub, Replay repo (channel s) (lastEventID s))]
                  | None => replays w
                  end
             else replays w).
Proof.
  intros Hs. unfold run_subs, deref. rewrite Hs. simpl.
  set (w1 := match subs w !! channel s with Some _ => w | None => _ end).
  assert (heap w1 = heap w ∧ srv w1 = srv w ∧ repos w1 = repos w
          ∧ running w1 = running w ∧ received w1 = received w
          ∧ replays w1 = replays w
          ∧ subs w1 !! channel s = Some (subs_at (channel s) w)
          ∧ ∀ c, c ≠ channel s → subs w1 !! c = subs w !! c) as Hw1.
  { subst w1. unfold subs_at. destruct (subs w !! channel s) eqn:E; simpl.
    - by rewrite E.
    - rewrite lookup_insert_eq. repeat split; try done.
      intros c Hc. by rewrite lookup_insert_ne. }
  destruct Hw1 as (Hh & Hsrv & Hrep & Hrun & Hrcv & Hrpl & Hat & Hoth).
  set (w2 := set_subs _ w1).
  assert (subs_at (channel s) w2 = subs_at (channel s) w ∪ {[sub]}) as Hat2.
  { unfold subs_at at 1. subst w2. simpl. by rewrite lookup_alter_eq, Hat. }
  assert (∀ c, c ≠ channel s → subs w2 !! c = subs w !! c) as Hoth2.
  { intros c Hc. subst w2. simpl. rewrite lookup_alter_ne by done. by apply Hoth. }
  change (srv w2) with (srv w1). change (repos w2) with (repos w1).
  rewrite Hsrv, Hrep.
  destruct (ReplayAll (srv w) || (0 <? String.length (lastEventID s))).
  - destruct (repos w !! channel s) as [repo|];
      (eexists; split; [done|]); simpl; rewrite ?Hrpl; by repeat split.
  - eexists; split; [done|]. simpl. by repeat split.
Qed.

(** C9: a handler that gets its subscription through to [run] has it added
    to the set of its channel in every case; a replay task is started exactly
    when (ReplayAll is set or the Last-Event-ID is not empty) and a repository
    is registered for the channel, and then it replays that repository for
    the channel and the Last-Event-ID; otherwise no task is started, without
    any error, and the queue only gets what is published. *)
Theorem subscribe_adds_and_replays w ch id :
  running w = true →
  isServerClosed w = false →
  (0 ≤ BufferSize (srv w))%Z →
  let sub := length (heap w) in
  ∃ w', step w (Handler_subs ch id) = Ok w'
        ∧ heap w' = heap w ++
            [Subscription ch id (Chan [] (Z.to_nat (BufferSize (srv w))) false)]
        ∧ subs_at ch w' = subs_at ch w ∪ {[sub]}
        ∧ (∀ c, c ≠ ch → subs w' !! c = subs w !! c)
        ∧ (((ReplayAll (srv w) = true ∨ id ≠ "")
            ∧ ∃ repo, repos w !! ch = Some repo
                      ∧ replays w' = replays w ++ [(sub, Replay repo ch id)])
           ∨ (¬ ((ReplayAll (srv w) = true ∨ id ≠ "") ∧ is_Some (repos w !! ch))
              ∧ replays w' = replays w)).
Proof.
  intros Hrun Hopen Hsize sub. unfold step, Handler_subscribe.
  rewrite Hopen. unfold make.
  destruct (Z.ltb_spec (BufferSize (srv w)) 0) as [?|_]; [lia|]. simpl.
  unfold in_run. simpl. rewrite Hrun.
  set (s := Subscription ch id _). set (w1 := set_heap _ w).
  assert (heap w1 !! sub = Some s) as Hs.
  { subst w1 sub. simpl. rewrite lookup_app_r by done.
    by rewrite Nat.sub_diag. }
  destruct (run_subs_spec w1 sub s Hs)
    as (w' & Hw' & Hh & _ & _ & _ & _ & Hat & Hoth & Hrpl).
  exists w'. split; [done|]. split; [done|]. split; [done|]. split; [done|].
  rewrite Hrpl. simpl.
  destruct (ReplayAll (srv w)) eqn:HR; simpl.
  - destruct (repos w !! ch) as [repo|] eqn:Hrepo.
    + left. split; [by left|]. by exists repo.
    + right. split; [|done]. intros [_ [? ?]]. done.
  - destruct (0 <? String.length id) eqn:Hlen.
    + apply length_pos_ne_empty in Hlen.
      destruct (repos w !! ch) as [repo|] eqn:Hrepo.
      * left. split; [by right|]. by exists repo.
      * right. split; [|done]. intros [_ [? ?]]. done.
    + right. split; [|done]. intros [[?|Hid] _]; [done|].
      apply length_pos_ne_empty in Hid. congruence.
Qed.

End Subscribe.

(** ** Publishing: the fan-out *)

Lemma pushed_refl s : pushed [] s s.
Proof. unfold pushed. rewrite app_nil_r. tauto. Qed.

Lemma pushed_trans a b s s1 s2 :
  pushed a s s1 → pushed b s1 s2 → pushed (a ++ b) s s2.
Proof.
  intros (Hc & Hi & Hcap & Hm & Hb) (Hc' & Hi' & Hcap' & Hm' & Hb').
  unfold pushed. rewrite Hc', Hi', Hcap'. repeat split; auto.
  - apply Hb, Hb'. done.
  - destruct (Hb' H) as [H1 ->]. destruct (Hb H1) as [_ ->].
    by rewrite app_assoc.
Qed.

Lemma same_maps_refl w : same_maps w w.
Proof. by unfold same_maps. Qed.

Lemma same_maps_trans w w1 w2 : same_maps w w1 → same_maps w1 w2 → same_maps w w2.
Proof. unfold same_maps. intuition congruence. Qed.

Lemma same_maps_set_out p c w : same_maps w (set_out p c w).
Proof.
  unfold same_maps, set_out. destruct (heap w !! p); simpl; [|done].
  by rewrite length_insert.
Qed.

Lemma range_same_maps {A} (f : A → world → outcome world) l :
  (∀ x w w1, f x w = Ok w1 → same_maps w w1) →
  ∀ w w', range f l w = Ok w' → same_maps w w'.
Proof.
  intros Hf. induction l as [|x l IH]; intros w w'; simpl.
  - intros [= <-]. apply same_maps_refl.
  - destruct (f x w) as [w1| |] eqn:E; simpl; [|done|done].
    intros Hr. eapply same_maps_trans; [by eapply Hf|by apply IH].
Qed.

Section Fanout.
Context {RO : RangeOrder}.

(** [fanout] with the channel operations written out. *)
Lemma fanout_unfold it s w sub :
  heap w !! s = Some sub →
  fanout it s w =
    if closed (out sub) then Panic SendOnClosedChannel
    else if full (out sub) then
      if closed (unregister (srv w)) then Panic SendOnClosedChannel
      else if full (unregister (srv w)) then Blocked
      else Ok (set_out s (Chan (buf (out sub)) (cap (out sub)) true)
                 (set_unregister
                    (Chan (buf (unregister (srv w)) ++ [s])
                          (cap (unregister (srv w))) false) w))
    else Ok (set_out s (Chan (buf (out sub) ++ [it]) (cap (out sub)) false) w).
Proof.
  intros Hs. unfold fanout, deref, try_send, send, close. rewrite Hs. simpl.
  destruct (closed (out sub)); simpl; [done|].
  destruct (full (out sub)); simpl; [|done].
  destruct (closed (unregister (srv w))); simpl; [done|].
  by destruct (full (unregister (srv w))).
Qed.

Lemma fanout_same_maps it s w w1 : fanout it s w = Ok w1 → same_maps w w1.
Proof.
  intros Hf. destruct (heap w !! s) as [sub|] eqn:Hs.
  - rewrite (fanout_unfold it s w sub Hs) in Hf.
    destruct (closed (out sub)); [done|].
    destruct (full (out sub)).
    + destruct (closed (unregister (srv w))); [done|].
      destruct (full (unregister (srv w))); [done|].
      injection Hf as <-.
      eapply same_maps_trans; [|apply same_maps_set_out]. done.
    + injection Hf as <-. apply same_maps_set_out.
  - unfold fanout, deref in Hf. by rewrite Hs in Hf.
Qed.

Lemma fanout_other it s w w1 p :
  fanout it s w = Ok w1 → p ≠ s → heap w1 !! p = heap w !! p.
Proof.
  intros Hf Hne. destruct (heap w !! s) as [sub|] eqn:Hs.
  - rewrite (fanout_unfold it s w sub Hs) in Hf.
    destruct (closed (out sub)); [done|].
    destruct (full (out sub)).
    + destruct (closed (unregister (srv w))); [done|].
      destruct (full (unregister (srv w))); [done|].
      injection Hf as <-. by rewrite heap_set_out_ne.
    + injection Hf as <-. by rewrite heap_set_out_ne.
  - unfold fanout, deref in Hf. by rewrite Hs in Hf.
Qed.

Lemma fanout_self it s w w1 sub :
  fanout it s w = Ok w1 → heap w !! s = Some sub →
  ∃ sub1, heap w1 !! s = Some sub1 ∧ pushed [it] sub sub1
          ∧ closed (out sub) = false.
Proof.
  intros Hf Hs. rewrite (fanout_unfold it s w sub Hs) in Hf.
  destruct (closed (out sub)) eqn:Hc; [done|].
  destruct (full (out sub)).
  - destruct (closed (unregister (srv w))); [done|].
    destruct (full (unregister (srv w))); [done|].
    injection Hf as <-. eexists. split; [by apply heap_set_out_eq|].
    unfold pushed. simpl. intuition congruence.
  - injection Hf as <-. eexists. split; [by apply heap_set_out_eq|].
    unfold pushed. simpl. intuition congruence.
Qed.

(** One pass of [for s := range subs[c]] over the subscription [p]. *)
Lemma range_fanout_pushed it l : NoDup l →
  ∀ w w' p sub,
  range (fanout it) l w = Ok w' → heap w !! p = Some sub →
  ∃ sub', heap w' !! p = Some sub'
          ∧ pushed (if decide (p ∈ l) then [it] else []) sub sub'.
Proof.
  induction 1 as [|x l Hx Hnd IH]; intros w w' p sub Hr Hp; simpl in Hr.
  - injection Hr as <-. exists sub. split; [done|].
    rewrite decide_False by apply not_elem_of_nil. apply pushed_refl.
  - destruct (fanout it x w) as [w1| |] eqn:E; simpl in Hr; [|done|done].
    destruct (decide (p = x)) as [->|Hne].
    + destruct (fanout_self _ _ _ _ _ E Hp) as (sub1 & Hp1 & Hpush & _).
      destruct (IH _ _ _ _ Hr Hp1) as (sub' & Hp' & Hpush').
      exists sub'. split; [done|].
      rewrite decide_False in Hpush' by done.
      rewrite decide_True by apply list_elem_of_here.
      rewrite <- (app_nil_r [it]). by eapply pushed_trans.
    + rewrite <- (fanout_other _ _ _ _ _ E Hne) in Hp.
      destruct (IH _ _ _ _ Hr Hp) as (sub' & Hp' & Hpush').
      exists sub'. split; [done|].
      destruct (decide (p ∈ l)) as [Hin|Hin].
      * rewrite decide_True by (by apply list_elem_of_further). done.
      * rewrite decide_False; [done|].
        rewrite elem_of_cons. tauto.
Qed.

Lemma run_pub_same_maps pub w w' : run_pub pub w = Ok w' → same_maps w w'.
Proof.
  unfold run_pub. apply range_same_maps. intros c w0 w1.
  apply range_same_maps. intros x. apply fanout_same_maps.
Qed.

Lemma run_pub_pushed chs it :
  ∀ w w' p sub,
  run_pub {| channels := chs; item := it |} w = Ok w' →
  heap w !! p = Some sub →
  ∃ sub', heap w' !! p = Some sub'
          ∧ pushed (delivered p (subs w) chs it) sub sub'.
Proof.
  unfold run_pub. simpl.
  induction chs as [|c chs IH]; intros w w' p sub Hr Hp; simpl in Hr.
  - injection Hr as <-. exists sub. split; [done|apply pushed_refl].
  - destruct (range (fanout it) (range_set w (subs_at c w)) w) as [w1| |] eqn:E;
      simpl in Hr; [|done|done].
    destruct (range_fanout_pushed it _ (range_set_NoDup _ _) _ _ _ _ E Hp)
      as (sub1 & Hp1 & Hpush1).
    destruct (IH _ _ _ _ Hr Hp1) as (sub' & Hp' & Hpush').
    exists sub'. split; [done|].
    assert (subs w1 = subs w) as Hsubs.
    { eapply (range_same_maps (fanout it)); [|done].
      intros x. apply fanout_same_maps. }
    rewrite Hsubs in Hpush'.
    eapply pushed_trans; [|done].
    unfold subs_at in Hpush1.
    destruct (decide (p ∈ default ∅ (subs w !! c))) as [Hin|Hin].
    + rewrite decide_True in Hpush1 by (by eapply elem_of_range_set). done.
    + rewrite decide_False in Hpush1; [done|]. by rewrite elem_of_range_set.
Qed.

End Fanout.

(** ** Shutting down *)

Section Quit.
Context {RO : RangeOrder}.

Lemma close_out_unfold x w s :
  heap w !! x = Some s →
  close_out x w =
    if closed (out s) then Panic CloseOfClosedChannel
    else Ok (set_out x (Chan (buf (out s)) (cap (out s)) true) w).
Proof.
  intros Hx. unfold close_out, deref, close. rewrite Hx. simpl.
  by destruct (closed (out s)).
Qed.

Lemma close_out_same_maps x w w1 : close_out x w = Ok w1 → same_maps w w1.
Proof.
  intros Hc. destruct (heap w !! x) as [s|] eqn:Hx.
  - rewrite (close_out_unfold _ _ _ Hx) in Hc.
    destruct (closed (out s)); [done|]. injection Hc as <-.
    apply same_maps_set_out.
  - unfold close_out, deref in Hc. by rewrite Hx in Hc.
Qed.

Lemma close_out_pushed x w w1 q s :
  close_out x w = Ok w1 → heap w !! q = Some s →
  ∃ s1, heap w1 !! q = Some s1 ∧ pushed [] s s1
        ∧ (q = x → closed (out s1) = true).
Proof.
  intros Hc Hq. destruct (decide (q = x)) as [->|Hne].
  - rewrite (close_out_unfold _ _ _ Hq) in Hc.
    destruct (closed (out s)) eqn:Hcl; [done|]. injection Hc as <-.
    eexists. split; [by apply heap_set_out_eq|].
    unfold pushed. simpl. rewrite app_nil_r. intuition congruence.
  - exists s. split; [|split; [apply pushed_refl|done]].
    destruct (heap w !! x) as [sx|] eqn:Hx.
    + rewrite (close_out_unfold _ _ _ Hx) in Hc.
      destruct (closed (out sx)); [done|]. injection Hc as <-.
      by rewrite heap_set_out_ne.
    + unfold close_out, deref in Hc. by rewrite Hx in Hc.
Qed.

Lemma range_close_out_pushed l :
  ∀ w w' q s,
  range close_out l w = Ok w' → heap w !! q = Some s →
  ∃ s', heap w' !! q = Some s' ∧ pushed [] s s'
        ∧ (q ∈ l → closed (out s') = true).
Proof.
  induction l as [|x l IH]; intros w w' q s Hr Hq; simpl in Hr.
  - injection Hr as <-. exists s. split; [done|]. split; [apply pushed_refl|].
    intros Hin. by apply not_elem_of_nil in Hin.
  - destruct (close_out x w) as [w1| |] eqn:E; simpl in Hr; [|done|done].
    destruct (close_out_pushed _ _ _ _ _ E Hq) as (s1 & Hq1 & Hp1 & Hx1).
    destruct (IH _ _ _ _ Hr Hq1) as (s' & Hq' & Hp' & Hl').
    exists s'. split; [done|]. split.
    + change (@nil eventOrComment) with (@nil eventOrComment ++ []).
      by eapply pushed_trans.
    + intros [->|Hin]%elem_of_cons; [|by apply Hl'].
      destruct Hp' as (_ & _ & _ & Hmono & _). by apply Hmono, Hx1.
Qed.

(** The two nested loops of the quit case, over the entries [l] of the map. *)
Lemma range_map_close_pushed (l : list (string * gset ptr)) :
  ∀ w w' q s,
  range (λ kv w', range close_out (range_set w' kv.2) w') l w = Ok w' →
  heap w !! q = Some s →
  ∃ s', heap w' !! q = Some s' ∧ pushed [] s s'
        ∧ (∀ kv, kv ∈ l → q ∈ kv.2 → closed (out s') = true).
Proof.
  induction l as [|kv l IH]; intros w w' q s Hr Hq; simpl in Hr.
  - injection Hr as <-. exists s. split; [done|]. split; [apply pushed_refl|].
    intros kv Hin. by apply not_elem_of_nil in Hin.
  - destruct (range close_out (range_set w kv.2) w) as [w1| |] eqn:E;
      simpl in Hr; [|done|done].
    destruct (range_close_out_pushed _ _ _ _ _ E Hq) as (s1 & Hq1 & Hp1 & Hx1).
    destruct (IH _ _ _ _ Hr Hq1) as (s' & Hq' & Hp' & Hl').
    exists s'. split; [done|]. split.
    + change (@nil eventOrComment) with (@nil eventOrComment ++ []).
      by eapply pushed_trans.
    + intros kv' [->|Hin]%elem_of_cons Hmem; [|by eapply Hl'].
      destruct Hp' as (_ & _ & _ & Hmono & _).
      apply Hmono, Hx1. by eapply elem_of_range_set.
Qed.

Lemma range_map_close_same_maps (l : list (string * gset ptr)) w w' :
  range (λ kv w', range close_out (range_set w' kv.2) w') l w = Ok w' →
  same_maps w w'.
Proof.
  apply range_same_maps. intros kv w0 w1.
  apply range_same_maps. intros x. apply close_out_same_maps.
Qed.

Lemma run_quit_pushed w w' q s :
  run_quit w = Ok w' → heap w !! q = Some s →
  ∃ s', heap w' !! q = Some s' ∧ pushed [] s s'
        ∧ (∀ c, q ∈ subs_at c w → closed (out s') = true).
Proof.
  unfold run_quit. intros Hr Hq.
  destruct (range _ (range_map w (subs w)) w) as [w1| |] eqn:E;
    simpl in Hr; [|done|done].
  injection Hr as <-.
  destruct (range_map_close_pushed _ _ _ _ _ E Hq) as (s' & Hq' & Hp' & Hl').
  exists s'. split; [done|]. split; [done|].
  intros c Hc. unfold subs_at in Hc.
  destruct (subs w !! c) as [X|] eqn:HX; simpl in Hc;
    [|by apply not_elem_of_empty in Hc].
  apply (Hl' (c, X)); [|done].
  rewrite range_map_perm. by apply elem_of_map_to_list.
Qed.

Lemma run_quit_fields w w' :
  run_quit w = Ok w' →
  subs w' = subs w ∧ repos w' = repos w ∧ replays w' = replays w
  ∧ received w' = received w ∧ running w' = false.
Proof.
  unfold run_quit. intros Hr.
  destruct (range _ (range_map w (subs w)) w) as [w1| |] eqn:E;
    simpl in Hr; [|done|done].
  injection Hr as <-.
  destruct (range_map_close_same_maps _ _ _ E) as (? & ? & ? & ? & ? & ?).
  by simpl.
Qed.

(** Closing keeps what the queues hold. *)
Lemma range_close_out_buf l :
  ∀ w w' p s,
  range close_out l w = Ok w' → heap w !! p = Some s →
  ∃ s', heap w' !! p = Some s' ∧ buf (out s') = buf (out s).
Proof.
  induction l as [|x l IH]; intros w w' p s Hr Hs; simpl in Hr.
  - injection Hr as <-. by exists s.
  - destruct (close_out x w) as [w1| |] eqn:E; simpl in Hr; [|done|done].
    destruct (decide (p = x)) as [->|Hne].
    + rewrite (close_out_unfold _ _ _ Hs) in E.
      destruct (closed (out s)); [done|]. injection E as <-.
      destruct (IH _ _ _ _ Hr (heap_set_out_eq _ _ _ _ Hs)) as (s1 & ? & ?).
      by exists s1.
    + destruct (close_out_pushed _ _ _ _ _ E Hs) as (s1 & Hs1 & _).
      destruct (heap w !! x) as [sx|] eqn:Hx.
      * rewrite (close_out_unfold _ _ _ Hx) in E.
        destruct (closed (out sx)); [done|]. injection E as <-.
        apply (IH _ _ _ _ Hr). by rewrite heap_set_out_ne.
      * unfold close_out, deref in E. by rewrite Hx in E.
Qed.

Lemma run_quit_buf w w' p s :
  run_quit w = Ok w' → heap w !! p = Some s →
  ∃ s', heap w' !! p = Some s' ∧ buf (out s') = buf (out s).
Proof.
  unfold run_quit. intros Hr Hs.
  destruct (range _ (range_map w (subs w)) w) as [w1| |] eqn:E;
    simpl in Hr; [|done|done].
  injection Hr as <-. simpl. revert E Hs.
  generalize (range_map w (subs w)). intros l. revert w s.
  induction l as [|kv l IH]; intros w s Hr Hs; simpl in Hr.
  - injection Hr as <-. by exists s.
  - destruct (range close_out (range_set w kv.2) w) as [w0| |] eqn:E;
      simpl in Hr; [|done|done].
    destruct (range_close_out_buf _ _ _ _ _ E Hs) as (s0 & Hs0 & Hb0).
    destruct (IH _ _ Hr Hs0) as (s' & ? & ?). exists s'. split; congruence.
Qed.

End Quit.

(** ** Following one subscription through a schedule *)

Lemma wf_same_subs w w1 :
  subs w1 = subs w →
  (∀ q s, heap w !! q = Some s → ∃ s1, heap w1 !! q = Some s1 ∧ channel s1 = channel s) →
  wf w → wf w1.
Proof.
  intros Hsubs Hheap Hwf c p Hp. unfold subs_at in Hp. rewrite Hsubs in Hp.
  destruct (Hwf c p Hp) as (s & Hs & Hc).
  destruct (Hheap p s Hs) as (s1 & Hs1 & Hc1). exists s1. split; congruence.
Qed.

Lemma wf_set_out q c w : wf w → wf (set_out q c w).
Proof.
  apply wf_same_subs; [apply subs_set_out|].
  intros q' s' Hq'. destruct (decide (q' = q)) as [->|Hne].
  - rewrite (heap_set_out_eq _ _ _ _ Hq'). by eexists.
  - rewrite heap_set_out_ne by done. by exists s'.
Qed.

Lemma received_by_same p w w1 : received w1 = received w → received_by p w1 = received_by p w.
Proof. unfold received_by. by intros ->. Qed.

Lemma received_by_snoc p q v w :
  received_by p (set_received (received w ++ [(q, v)]) w) =
  received_by p w ++ (if decide (q = p) then [v] else []).
Proof.
  unfold received_by. simpl. rewrite filter_app, fmap_app. f_equal.
  rewrite filter_cons, filter_nil. simpl.
  destruct (decide (q = p)); done.
Qed.

Lemma replay_done_same p w w1 : replays w1 = replays w → replay_done p w → replay_done p w1.
Proof. unfold replay_done. by intros ->. Qed.

Lemma subs_at_same c w w1 : subs w1 = subs w → subs_at c w1 = subs_at c w.
Proof. unfold subs_at. by intros ->. Qed.

(** A step that leaves the sets, the replay tasks and the received items
    alone, and pushes [its] on every queue where [its] is what the step
    publishes on the channel of that queue. *)
Lemma follows_pushed p e w w1 s s1 :
  wf w →
  subs w1 = subs w → replays w1 = replays w → received w1 = received w →
  (∀ q sq, heap w !! q = Some sq →
     ∃ sq1, heap w1 !! q = Some sq1 ∧ channel sq1 = channel sq) →
  (∃ its, pushed its s s1
          ∧ (p ∈ subs_at (channel s) w → its = published (channel s) e)) →
  follows p e w w1 s s1.
Proof.
  intros Hwf Hsubs Hrpl Hrcv Hheap (its & Hpush & Hits).
  destruct Hpush as (Hc & _ & _ & Hmono & Hbuf).
  unfold follows. rewrite !(subs_at_same _ _ _ Hsubs).
  rewrite (received_by_same _ _ _ Hrcv).
  split; [by eapply wf_same_subs|]. split; [by apply replay_done_same|].
  split; [done|]. split; [done|]. split; [done|].
  intros Hopen. destruct (Hbuf Hopen) as [_ ->]. exists its.
  split; [done|]. intros Hin. by rewrite (Hits Hin).
Qed.

(** A step that leaves the queue of [p] and what its handler has received
    alone, and publishes nothing. *)
Lemma follows_frame p e w w1 s :
  published (channel s) e = [] →
  wf w1 → (replay_done p w → replay_done p w1) →
  (p ∈ subs_at (channel s) w1 → p ∈ subs_at (channel s) w) →
  received_by p w1 = received_by p w →
  follows p e w w1 s s.
Proof.
  intros He Hwf Hdone Hsub Hrcv. unfold follows. rewrite He, Hrcv.
  split; [done|]. split; [done|]. split; [done|]. split; [done|].
  split; [done|]. intros _. exists []. by rewrite !app_nil_r.
Qed.

Section Follow.
Context {RO : RangeOrder}.

Lemma delivered_published p w chs it s :
  wf w → heap w !! p = Some s → p ∈ subs_at (channel s) w →
  delivered p (subs w) chs it =
  flat_map (λ d, if decide (d = channel s) then [it] else []) chs.
Proof.
  intros Hwf Hs Hin. unfold delivered.
  induction chs as [|d chs IH]; simpl; [done|]. rewrite IH. f_equal.
  destruct (decide (d = channel s)) as [->|Hne].
  - by rewrite decide_True.
  - rewrite decide_False; [done|]. intros Hd.
    destruct (Hwf d p Hd) as (s' & Hs' & Hc'). congruence.
Qed.

Lemma follows_run_pub p e chs it w w1 s :
  (p ∈ subs_at (channel s) w →
   flat_map (λ d, if decide (d = channel s) then [it] else []) chs
   = published (channel s) e) →
  run_pub {| channels := chs; item := it |} w = Ok w1 →
  wf w → heap w !! p = Some s →
  ∃ s1, heap w1 !! p = Some s1 ∧ follows p e w w1 s s1.
Proof.
  intros He Hpub Hwf Hs.
  destruct (run_pub_pushed _ _ _ _ _ _ Hpub Hs) as (s1 & Hs1 & Hpush).
  destruct (run_pub_same_maps _ _ _ Hpub) as (Hsubs & _ & _ & Hrpl & Hrcv & _).
  exists s1. split; [done|]. apply follows_pushed; try done.
  - intros q sq Hq.
    destruct (run_pub_pushed _ _ _ _ _ _ Hpub Hq) as (sq1 & Hq1 & Hc & _).
    by exists sq1.
  - eexists. split; [done|]. intros Hin.
    rewrite <- (He Hin). by eapply delivered_published.
Qed.

Lemma follows_run_quit p w w1 s :
  run_quit w = Ok w1 →
  wf w → heap w !! p = Some s →
  ∃ s1, heap w1 !! p = Some s1 ∧ follows p Close_quit w w1 s s1.
Proof.
  intros Hq Hwf Hs.
  destruct (run_quit_pushed _ _ _ _ Hq Hs) as (s1 & Hs1 & Hpush & Hcl).
  destruct (run_quit_fields _ _ Hq) as (Hsubs & _ & Hrpl & Hrcv & _).
  exists s1. split; [done|]. apply follows_pushed; try done.
  - intros q sq Hsq.
    destruct (run_quit_pushed _ _ _ _ Hq Hsq) as (sq1 & Hq1 & (Hc & _) & _).
    by exists sq1.
  - exists []. split; [done|]. done.
Qed.

Lemma follows_Handler_receive p q w w1 s :
  Handler_receive q w = Ok w1 →
  wf w → heap w !! p = Some s →
  ∃ s1, heap w1 !! p = Some s1 ∧ follows p (Handler_out q) w w1 s s1.
Proof.
  unfold Handler_receive, Handler_sub. intros Hr Hwf Hs.
  destruct (heap w !! q) as [sq|] eqn:Hq; simpl in Hr; [|done].
  unfold recv in Hr. destruct (buf (out sq)) as [|v rest] eqn:Hbuf.
  { destruct (closed (out sq)); simpl in Hr; [|done]. injection Hr as <-.
    exists s. split; [done|]. by apply follows_frame. }
  simpl in Hr. injection Hr as <-.
  set (c := Chan rest _ _).
  assert (wf (set_received (received w ++ [(q, v)]) (set_out q c w))) as Hwf1.
  { by apply (wf_set_out q c) in Hwf. }
  assert (replay_done p w →
          replay_done p (set_received (received w ++ [(q, v)]) (set_out q c w)))
    as Hdone1.
  { apply replay_done_same. simpl.
    by destruct (same_maps_set_out q c w) as (_ & _ & _ & -> & _). }
  assert (received_by p (set_received (received w ++ [(q, v)]) (set_out q c w))
          = received_by p w ++ (if decide (q = p) then [v] else [])) as Hrcv.
  { by rewrite <- received_by_snoc. }
  destruct (decide (q = p)) as [->|Hne].
  - rewrite Hs in Hq. injection Hq as <-.
    exists (Subscription (channel s) (lastEventID s) c).
    split; [simpl; by apply heap_set_out_eq|].
    unfold follows. split; [done|]. split; [done|].
    change (subs_at (channel s) (set_received ?l ?w0))
      with (subs_at (channel s) w0).
    rewrite !subs_at_set_out.
    split; [done|]. split; [done|]. split; [done|].
    intros _. exists []. rewrite Hrcv, Hbuf. simpl. rewrite !app_nil_r.
    split; [by rewrite <- app_assoc|done].
  - exists s. split; [simpl; by rewrite heap_set_out_ne|].
    apply follows_frame; try done.
    + change (subs_at (channel s) (set_received ?l ?w0))
        with (subs_at (channel s) w0).
      by rewrite subs_at_set_out.
    + by rewrite Hrcv, app_nil_r.
Qed.

Lemma follows_run_unregister p sub w w1 s :
  run_unregister sub w = Ok w1 →
  wf w → heap w !! p = Some s →
  heap w1 !! p = Some s ∧ follows p Run_unregister w w1 s s.
Proof.
  intros Hr Hwf Hs.
  destruct (heap w !! sub) as [ss|] eqn:Hsub;
    [|unfold run_unregister, deref in Hr; by rewrite Hsub in Hr].
  destruct (run_unregister_spec w sub ss Hsub)
    as (w' & Hw' & Hheap & _ & _ & Hrpl & Hrcv & _ & Hat & Hoth & _).
  rewrite Hr in Hw'. injection Hw' as <-.
  assert (∀ c q, q ∈ subs_at c w1 → q ∈ subs_at c w) as Hsubset.
  { intros c q. destruct (decide (c = channel ss)) as [->|Hne].
    - rewrite Hat, elem_of_difference. tauto.
    - unfold subs_at. by rewrite Hoth. }
  split; [by rewrite Hheap|].
  apply follows_frame; try done.
  - intros c q Hq. rewrite Hheap. by apply Hwf, Hsubset.
  - by apply replay_done_same.
  - apply Hsubset.
  - by apply received_by_same.
Qed.

(** A step of a replay task: into the queue of [p], or into another one. *)
Lemma follows_replay p g w w1 s :
  replay g w = Ok w1 →
  wf w → heap w !! p = Some s →
  ∃ s1, heap w1 !! p = Some s1 ∧ follows p (Replay_send g) w w1 s s1.
Proof.
  unfold replay, deref. intros Hr Hwf Hs.
  destruct (replays w !! g) as [[q [|ev rest]]|] eqn:Hg; [done| |done].
  destruct (heap w !! q) as [sq|] eqn:Hq; simpl in Hr; [|done].
  destruct (send (IsEvent ev) (out sq)) as [c| |] eqn:Hsend;
    simpl in Hr; [|done|done].
  injection Hr as <-.
  destruct (same_maps_set_out q c w) as (Hsubs & _ & _ & Hrpl & Hrcv & _).
  set (w1 := set_replays _ (set_out q c w)).
  assert (wf w1) as Hwf1 by (by apply (wf_set_out q c) in Hwf).
  assert (∀ c', subs_at c' w1 = subs_at c' w) as Hat.
  { intros c'. subst w1.
    change (subs_at c' (set_replays ?l ?w0)) with (subs_at c' w0).
    by rewrite subs_at_set_out. }
  assert (received_by p w1 = received_by p w) as Hrcv1.
  { by apply received_by_same. }
  destruct (decide (q = p)) as [->|Hne].
  - rewrite Hs in Hq. injection Hq as <-. unfold send in Hsend.
    destruct (closed (out s)) eqn:Hcl; [done|].
    destruct (full (out s)); [done|]. injection Hsend as <-.
    eexists. split; [subst w1; simpl; by apply heap_set_out_eq|].
    unfold follows. rewrite Hat, Hrcv1. simpl.
    split; [done|]. split; [intros Hdone; by specialize (Hdone _ _ Hg)|].
    split; [done|]. split; [done|]. split; [congruence|].
    intros _. exists [IsEvent ev].
    split; [by rewrite <- ?app_assoc|]. intros _. split; [apply sublist_nil_l|].
    intros Hdone. by specialize (Hdone _ _ Hg).
  - exists s. split; [subst w1; simpl; by rewrite heap_set_out_ne|].
    apply follows_frame; try done; [|by rewrite Hat].
    intros Hdone g' rest'. subst w1. simpl.
    destruct (decide (g' = g)) as [->|Hg'].
    + rewrite list_lookup_insert_eq by (by eapply lookup_lt_Some). congruence.
    + rewrite list_lookup_insert_ne by done. apply Hdone.
Qed.

Lemma follows_Handler_subscribe p ch id w w1 s :
  Handler_subscribe ch id w = Ok w1 →
  wf w → heap w !! p = Some s →
  heap w1 !! p = Some s ∧ follows p (Handler_subs ch id) w w1 s s.
Proof.
  unfold Handler_subscribe. intros Hr Hwf Hs.
  destruct (isServerClosed w).
  { injection Hr as <-. split; [done|]. by apply follows_frame. }
  destruct (make (BufferSize (srv w))) as [c| |]; simpl in Hr; [|done|done].
  unfold in_run in Hr. simpl in Hr. destruct (running w); [|done].
  set (new := Subscription ch id c) in *.
  set (w0 := set_heap (heap w ++ [new]) w) in *.
  assert (heap w0 !! length (heap w) = Some new) as Hnew.
  { subst w0. simpl. rewrite lookup_app_r by done. by rewrite Nat.sub_diag. }
  destruct (run_subs_spec w0 _ new Hnew)
    as (w' & Hw' & Hheap & _ & _ & _ & Hrcv & Hat & Hoth & Hrpl).
  rewrite Hr in Hw'. injection Hw' as <-.
  assert (p < length (heap w)) as Hlt by (by eapply lookup_lt_Some).
  assert (∀ q sq, heap w !! q = Some sq → heap w1 !! q = Some sq) as Hold.
  { intros q sq Hq. rewrite Hheap. subst w0. simpl. by apply lookup_app_l_Some. }
  assert (∀ c' q, q ∈ subs_at c' w1 →
            q ∈ subs_at c' w ∨ (c' = ch ∧ q = length (heap w))) as Hsets.
  { intros c' q. destruct (decide (c' = ch)) as [->|Hne].
    - change ch with (channel new) at 1. rewrite Hat.
      rewrite elem_of_union, elem_of_singleton. simpl. tauto.
    - unfold subs_at. rewrite (Hoth c') by done. tauto. }
  split; [by apply Hold|].
  apply follows_frame; try done.
  - intros c' q [Hq|[-> ->]]%Hsets.
    + destruct (Hwf c' q Hq) as (sq & Hsq & Hc). exists sq. split; [|done].
      by apply Hold.
    + exists new. by rewrite Hheap.
  - intros Hdone g rest. rewrite Hrpl. change (srv w0) with (srv w).
    change (repos w0) with (repos w). change (replays w0) with (replays w).
    assert (∀ l : list Event,
              (replays w ++ [(length (heap w), l)]) !! g = Some (p, rest) →
              rest = []) as Happ.
    { intros l [Hg|[_ Hg]]%lookup_app_Some; [by eapply Hdone|].
      destruct (g - length (replays w)); simpl in Hg; [|done].
      injection Hg as ??. lia. }
    destruct (ReplayAll (srv w) || _); [|apply Hdone].
    destruct (repos w !! channel new); [apply Happ|apply Hdone].
  - intros [Hq|[_ ->]]%Hsets; [done|lia].
  - by apply received_by_same.
Qed.

End Follow.

(** ** Every step keeps the sets well-formed *)

Section WellFormed.
Context {RO : RangeOrder}.

Lemma wf_NewServer : wf NewServer.
Proof. intros c p Hp. by apply not_elem_of_empty in Hp. Qed.

Lemma wf_Handler_subscribe ch id w w1 :
  Handler_subscribe ch id w = Ok w1 → wf w → wf w1.
Proof.
  unfold Handler_subscribe. intros Hr Hwf.
  destruct (isServerClosed w); [by injection Hr as <-|].
  destruct (make (BufferSize (srv w))) as [c| |]; simpl in Hr; [|done|done].
  unfold in_run in Hr. simpl in Hr. destruct (running w); [|done].
  set (new := Subscription ch id c) in *.
  set (w0 := set_heap (heap w ++ [new]) w) in *.
  assert (heap w0 !! length (heap w) = Some new) as Hnew.
  { subst w0. simpl. rewrite lookup_app_r by done. by rewrite Nat.sub_diag. }
  destruct (run_subs_spec w0 _ new Hnew)
    as (w' & Hw' & Hheap & _ & _ & _ & _ & Hat & Hoth & _).
  rewrite Hr in Hw'. injection Hw' as <-.
  intros c' q Hq. rewrite Hheap.
  destruct (decide (c' = ch)) as [->|Hne].
  - change ch with (channel new) in Hq at 1. rewrite Hat in Hq.
    apply elem_of_union in Hq as [Hq| ->%elem_of_singleton].
    + destruct (Hwf ch q Hq) as (sq & Hsq & Hc). exists sq. split; [|done].
      subst w0. simpl. by apply lookup_app_l_Some.
    + by exists new.
  - unfold subs_at in Hq. rewrite (Hoth c') in Hq by done.
    destruct (Hwf c' q Hq) as (sq & Hsq & Hc). exists sq. split; [|done].
    subst w0. simpl. by apply lookup_app_l_Some.
Qed.

Lemma wf_run_pub pub w w1 : run_pub pub w = Ok w1 → wf w → wf w1.
Proof.
  destruct pub as [chs it]. intros Hpub.
  destruct (run_pub_same_maps _ _ _ Hpub) as (Hsubs & _).
  apply wf_same_subs; [done|]. intros q sq Hq.
  destruct (run_pub_pushed _ _ _ _ _ _ Hpub Hq) as (sq1 & Hq1 & Hc & _).
  by exists sq1.
Qed.

Lemma wf_run_quit w w1 : run_quit w = Ok w1 → wf w → wf w1.
Proof.
  intros Hq. destruct (run_quit_fields _ _ Hq) as (Hsubs & _).
  apply wf_same_subs; [done|]. intros q sq Hsq.
  destruct (run_quit_pushed _ _ _ _ Hq Hsq) as (sq1 & Hq1 & (Hc & _) & _).
  by exists sq1.
Qed.

Lemma wf_run_unregister sub w w1 : run_unregister sub w = Ok w1 → wf w → wf w1.
Proof.
  intros Hr Hwf.
  destruct (heap w !! sub) as [ss|] eqn:Hsub;
    [|unfold run_unregister, deref in Hr; by rewrite Hsub in Hr].
  destruct (run_unregister_spec w sub ss Hsub)
    as (w' & Hw' & Hheap & _ & _ & _ & _ & _ & Hat & Hoth & _).
  rewrite Hr in Hw'. injection Hw' as <-.
  intros c q Hq. rewrite Hheap. apply Hwf.
  destruct (decide (c = channel ss)) as [->|Hne].
  - rewrite Hat, elem_of_difference in Hq. tauto.
  - unfold subs_at in *. by rewrite Hoth in Hq.
Qed.

Lemma wf_step e w w1 : step w e = Ok w1 → wf w → wf w1.
Proof.
  destruct e as [ch repo|chs ev0|chs text| | |ch id|sub|sub| |g]; simpl; unfold in_run.
  - destruct (running w); [|done]. by intros [= <-].
  - destruct (running w); [|done]. apply wf_run_pub.
  - destruct (running w); [|done]. apply wf_run_pub.
  - destruct (running w); [|done]. apply wf_run_quit.
  - by intros [= <-].
  - apply wf_Handler_subscribe.
  - unfold Handler_receive.
    destruct (Handler_sub sub w) as [s| |]; simpl; [|done|done].
    destruct (recv (out s)) as [[[v|] c]| |]; simpl; [| |done|done].
    + intros [= <-] Hwf. by apply (wf_set_out sub c) in Hwf.
    + by intros [= <-].
  - destruct (Handler_sub sub w) as [s| |]; simpl; [|done|done].
    destruct (send sub (unregister (srv w))) as [u| |]; simpl; [|done|done].
    by intros [= <-].
  - destruct (running w); [|done].
    destruct (recv (unregister (srv w))) as [[[sub|] u]| |]; simpl; [|done..].
    intros Hr Hwf. by apply (wf_run_unregister _ _ _ Hr).
  - unfold replay, deref.
    destruct (replays w !! g) as [[q [|ev rest]]|]; [done| |done].
    destruct (heap w !! q) as [sq|]; simpl; [|done].
    destruct (send (IsEvent ev) (out sq)) as [c| |]; simpl; [|done|done].
    intros [= <-] Hwf. by apply (wf_set_out q c) in Hwf.
Qed.

Lemma wf_exec es : ∀ w w', exec w es = Ok w' → wf w → wf w'.
Proof.
  induction es as [|e es IH]; intros w w' Hx Hwf; simpl in Hx.
  - by injection Hx as <-.
  - destruct (step w e) as [w1| |] eqn:E; simpl in Hx; [|done|done].
    eapply IH; [done|]. by eapply wf_step.
Qed.

End WellFormed.

(** ** Order of delivery *)

Section Delivery.
Context {RO : RangeOrder}.

Lemma step_follows e w w1 p s :
  step w e = Ok w1 →
  wf w → heap w !! p = Some s →
  ∃ s1, heap w1 !! p = Some s1 ∧ follows p e w w1 s s1.
Proof.
  intros Hstep Hwf Hs.
  destruct e as [ch repo|chs ev0|chs text| | |ch id|sub|sub| |g];
    simpl in Hstep; unfold in_run in Hstep.
  - destruct (running w); [|done]. injection Hstep as <-.
    exists s. split; [done|]. by apply follows_frame.
  - destruct (running w); [|done]. by eapply follows_run_pub.
  - destruct (running w); [|done]. by eapply follows_run_pub.
  - destruct (running w); [|done]. by eapply follows_run_quit.
  - injection Hstep as <-. exists s. split; [done|]. by apply follows_frame.
  - exists s. by eapply follows_Handler_subscribe.
  - by eapply follows_Handler_receive.
  - destruct (Handler_sub sub w) as [sq| |]; simpl in Hstep; [|done|done].
    destruct (send sub (unregister (srv w))) as [u| |]; simpl in Hstep; [|done|done].
    injection Hstep as <-. exists s. split; [done|]. by apply follows_frame.
  - destruct (running w); [|done].
    destruct (recv (unregister (srv w))) as [[[sub|] u]| |];
      simpl in Hstep; [|done..].
    exists s.
    destruct (follows_run_unregister p sub (set_unregister u w) w1 s)
      as [Hs1 Hf]; done.
  - by eapply follows_replay.
Qed.

Lemma exec_follows es :
  ∀ w w' p s,
  wf w → exec w es = Ok w' → heap w !! p = Some s →
  ∃ s', heap w' !! p = Some s' ∧ channel s' = channel s
        ∧ (replay_done p w → replay_done p w')
        ∧ (p ∈ subs_at (channel s) w' → p ∈ subs_at (channel s) w)
        ∧ (closed (out s) = true → closed (out s') = true)
        ∧ (closed (out s') = false →
           ∃ d, received_by p w' ++ buf (out s') =
                received_by p w ++ buf (out s) ++ d
                ∧ (p ∈ subs_at (channel s) w' →
                   flat_map (published (channel s)) es `sublist_of` d
                   ∧ (replay_done p w →
                      d = flat_map (published (channel s)) es))).
Proof.
  induction es as [|e es IH]; intros w w' p s Hwf Hx Hs; simpl in Hx.
  - injection Hx as <-. exists s.
    split; [done|]. split; [done|]. split; [done|]. split; [done|].
    split; [done|]. intros _. exists []. by rewrite !app_nil_r.
  - destruct (step w e) as [w1| |] eqn:E; simpl in Hx; [|done|done].
    destruct (step_follows _ _ _ _ _ E Hwf Hs)
      as (s1 & Hs1 & Hwf1 & Hdone1 & Hc1 & Hin1 & Hmono1 & Heq1).
    destruct (IH _ _ _ _ Hwf1 Hx Hs1)
      as (s' & Hs' & Hc' & Hdone' & Hin' & Hmono' & Heq').
    rewrite Hc1 in *. exists s'.
    split; [done|]. split; [done|]. split; [auto|]. split; [auto|].
    split; [auto|]. intros Hopen.
    assert (closed (out s1) = false) as Hopen1.
    { destruct (closed (out s1)); [|done]. rewrite Hmono' in Hopen; done. }
    destruct (Heq' Hopen) as (d' & -> & Hpub').
    destruct (Heq1 Hopen1) as (d1 & Hd1 & Hpub1).
    exists (d1 ++ d'). rewrite app_assoc, Hd1, <- !app_assoc. simpl.
    split; [done|]. intros Hin.
    destruct (Hpub' Hin) as [Hsub' Hex'].
    destruct (Hpub1 (Hin' Hin)) as [Hsub1 Hex1].
    split; [by apply sublist_app|].
    intros Hdone. rewrite (Hex1 Hdone), (Hex' (Hdone1 Hdone)). done.
Qed.

(** Delivery in the schedules that run through, that is, in which every
    publish is processed to its end: a subscription [p] that is still in
    the set of its channel with an open queue at the end was handed the items
    of the publishes naming its channel, in the order in which [run]
    processed them: what its handler has taken out, followed by what is in
    the queue, is what was there before followed by a sequence [d] that has
    those items, in that order, among the events of a replay into [p]; when
    no replay into [p] is in progress, [d] is exactly those items.  The items
    are the same for every such subscription of the channel. *)
Theorem healthy_subscribers_get_publishes_in_order es w w' p s s' :
  wf w →
  exec w es = Ok w' →
  heap w !! p = Some s →
  heap w' !! p = Some s' →
  p ∈ subs_at (channel s) w' →
  closed (out s') = false →
  ∃ d, received_by p w' ++ buf (out s') = received_by p w ++ buf (out s) ++ d
       ∧ flat_map (published (channel s)) es `sublist_of` d
       ∧ (replay_done p w → d = flat_map (published (channel s)) es).
Proof.
  intros Hwf Hx Hs Hs' Hin Hopen.
  destruct (exec_follows es _ _ _ _ Hwf Hx Hs) as (s0 & Hs0 & _ & _ & _ & _ & Heq).
  rewrite Hs' in Hs0. injection Hs0 as <-.
  destruct (Heq Hopen) as (d & Hd & Hpub). exists d. split; [done|]. by apply Hpub.
Qed.

End Delivery.

(** ** Replay *)

Lemma full_false {A} (c : chan A) : full c = false ↔ length (buf c) < cap c.
Proof. unfold full. apply Nat.leb_gt. Qed.

Lemma full_true {A} (c : chan A) : full c = true ↔ cap c ≤ length (buf c).
Proof. unfold full. apply Nat.leb_le. Qed.

(** [replay] with the channel operations written out. *)
Lemma replay_unfold g w p ev rest s :
  replays w !! g = Some (p, ev :: rest) →
  heap w !! p = Some s →
  replay g w =
    if closed (out s) then Panic SendOnClosedChannel
    else if full (out s) then Blocked
    else Ok (set_replays (<[g := (p, rest)]> (replays w))
               (set_out p (Chan (buf (out s) ++ [IsEvent ev]) (cap (out s)) false) w)).
Proof.
  intros Hg Hp. unfold replay, deref, send. rewrite Hg, Hp. simpl.
  destruct (closed (out s)); [done|]. by destruct (full (out s)).
Qed.

Section Reader.
Context {RO : RangeOrder}.

Lemma Handler_receive_spec q w w1 p s :
  Handler_receive q w = Ok w1 → heap w !! p = Some s →
  replays w1 = replays w
  ∧ ∃ s1, heap w1 !! p = Some s1
          ∧ closed (out s1) = closed (out s) ∧ cap (out s1) = cap (out s)
          ∧ received_by p w1 ++ buf (out s1) = received_by p w ++ buf (out s).
Proof.
  unfold Handler_receive, Handler_sub. intros Hr Hs.
  destruct (heap w !! q) as [sq|] eqn:Hq; simpl in Hr; [|done].
  unfold recv in Hr. destruct (buf (out sq)) as [|v rest] eqn:Hbuf.
  { destruct (closed (out sq)); simpl in Hr; [|done]. injection Hr as <-.
    split; [done|]. by exists s. }
  simpl in Hr. injection Hr as <-. set (c := Chan rest _ _).
  split. { simpl. by destruct (same_maps_set_out q c w) as (_ & _ & _ & -> & _). }
  assert (received_by p (set_received (received w ++ [(q, v)]) (set_out q c w))
          = received_by p w ++ (if decide (q = p) then [v] else [])) as Hrcv.
  { by rewrite <- received_by_snoc. }
  rewrite Hrcv. destruct (decide (q = p)) as [->|Hne].
  - rewrite Hs in Hq. injection Hq as <-.
    exists (Subscription (channel s) (lastEventID s) c).
    split; [simpl; by apply heap_set_out_eq|]. simpl.
    rewrite Hbuf. by rewrite <- app_assoc.
  - exists s. split; [simpl; by rewrite heap_set_out_ne|].
    by rewrite app_nil_r.
Qed.

End Reader.

Section Replay.
Context {RO : RangeOrder}.

(** Only the task itself takes items off its replay sequence. *)
Lemma step_keeps_task e w w1 g t :
  e ≠ Replay_send g → step w e = Ok w1 →
  replays w !! g = Some t → replays w1 !! g = Some t.
Proof.
  intros He Hstep Hg.
  destruct e as [ch repo|chs ev0|chs text| | |ch id|sub|sub| |g'];
    simpl in Hstep; unfold in_run in Hstep.
  - destruct (running w); [|done]. by injection Hstep as <-.
  - destruct (running w); [|done].
    by destruct (run_pub_same_maps _ _ _ Hstep) as (_ & _ & _ & -> & _).
  - destruct (running w); [|done].
    by destruct (run_pub_same_maps _ _ _ Hstep) as (_ & _ & _ & -> & _).
  - destruct (running w); [|done].
    by destruct (run_quit_fields _ _ Hstep) as (_ & _ & -> & _).
  - by injection Hstep as <-.
  - unfold Handler_subscribe in Hstep.
    destruct (isServerClosed w); [by injection Hstep as <-|].
    destruct (make (BufferSize (srv w))) as [c| |]; simpl in Hstep; [|done|done].
    unfold in_run in Hstep. simpl in Hstep. destruct (running w); [|done].
    set (new := Subscription ch id c) in *.
    set (w0 := set_heap (heap w ++ [new]) w) in *.
    assert (heap w0 !! length (heap w) = Some new) as Hnew.
    { subst w0. simpl. rewrite lookup_app_r by done. by rewrite Nat.sub_diag. }
    destruct (run_subs_spec w0 _ new Hnew)
      as (w' & Hw' & _ & _ & _ & _ & _ & _ & _ & Hrpl).
    rewrite Hstep in Hw'. injection Hw' as <-. rewrite Hrpl.
    change (replays w0) with (replays w).
    destruct (ReplayAll (srv w0) || _); [|done].
    destruct (repos w0 !! channel new); [|done]. by apply lookup_app_l_Some.
  - unfold Handler_receive, Handler_sub in Hstep.
    destruct (heap w !! sub) as [sq|] eqn:Hq; [|done].
    destruct (Handler_receive_spec sub w w1 sub sq) as [-> _]; try done.
    unfold Handler_receive, Handler_sub. by rewrite Hq.
  - destruct (Handler_sub sub w) as [sq| |]; simpl in Hstep; [|done|done].
    destruct (send sub (unregister (srv w))) as [u| |]; simpl in Hstep; [|done|done].
    by injection Hstep as <-.
  - destruct (running w); [|done].
    destruct (recv (unregister (srv w))) as [[[sub|] u]| |];
      simpl in Hstep; [|done..].
    unfold run_unregister in Hstep.
    destruct (deref sub (set_unregister u w)); simpl in Hstep; [|done|done].
    by injection Hstep as <-.
  - unfold replay, deref in Hstep.
    destruct (replays w !! g') as [[q [|ev rest]]|] eqn:Hg'; [done| |done].
    destruct (heap w !! q) as [sq|]; simpl in Hstep; [|done].
    destruct (send (IsEvent ev) (out sq)) as [c| |]; simpl in Hstep; [|done|done].
    injection Hstep as <-. simpl.
    rewrite list_lookup_insert_ne; [done|]. congruence.
Qed.

(** The dispatcher and the reader of one subscription, in any order: every
    item is in the hands of the reader, in the queue, or still to be sent. *)
Lemma replay_conserves g p es :
  ∀ w w' items s,
  (∀ e, e ∈ es → e = Replay_send g ∨ ∃ q, e = Handler_out q) →
  exec w es = Ok w' →
  replays w !! g = Some (p, items) →
  heap w !! p = Some s →
  closed (out s) = false →
  ∃ s' rest, heap w' !! p = Some s' ∧ replays w' !! g = Some (p, rest)
             ∧ closed (out s') = false
             ∧ received_by p w' ++ buf (out s') ++ (IsEvent <$> rest) =
               received_by p w ++ buf (out s) ++ (IsEvent <$> items).
Proof.
  induction es as [|e es IH]; intros w w' items s Hes Hx Hg Hp Hopen; simpl in Hx.
  - injection Hx as <-. by exists s, items.
  - destruct (step w e) as [w1| |] eqn:E; simpl in Hx; [|done|done].
    assert (∀ e', e' ∈ es → e' = Replay_send g ∨ ∃ q, e' = Handler_out q) as Hes'.
    { intros e' He'. apply Hes. by apply list_elem_of_further. }
    destruct (Hes e (list_elem_of_here _ _)) as [->|[q ->]]; simpl in E.
    + destruct items as [|ev rest];
        [unfold replay in E; by rewrite Hg in E|].
      rewrite (replay_unfold _ _ _ _ _ _ Hg Hp), Hopen in E.
      destruct (full (out s)); [done|]. injection E as <-.
      set (c := Chan (buf (out s) ++ [IsEvent ev]) (cap (out s)) false) in *.
      set (w1 := set_replays _ (set_out p c w)) in *.
      destruct (IH w1 w' rest (Subscription (channel s) (lastEventID s) c) Hes' Hx)
        as (s' & rest' & Hp' & Hg' & Hopen' & Heq).
      * subst w1. simpl. apply list_lookup_insert_eq. by eapply lookup_lt_Some.
      * subst w1. simpl. by apply heap_set_out_eq.
      * done.
      * exists s', rest'. split; [done|]. split; [done|]. split; [done|].
        rewrite Heq. simpl.
        destruct (same_maps_set_out p c w) as (_ & _ & _ & _ & Hrcv & _).
        unfold received_by at 1. subst w1. simpl. rewrite Hrcv.
        by rewrite <- app_assoc.
    + destruct (Handler_receive_spec _ _ _ _ _ E Hp)
        as (Hrpl & s1 & Hp1 & Hcl1 & _ & Heq1).
      edestruct (IH w1 w' items s1) as (s' & rest' & Hp' & Hg' & Hopen' & Heq);
        [done|done|by rewrite Hrpl|done|congruence|].
      exists s', rest'. split; [done|]. split; [done|]. split; [done|].
      by rewrite Heq, app_assoc, Heq1, <- app_assoc.
Qed.

(** In any schedule of the program: the events that the task has sent are
    in what the subscription was handed, in the order of the replay
    sequence, and the others are still with the task. *)
Lemma replay_in_any_schedule g p es :
  ∀ w w' items s s',
  wf w →
  exec w es = Ok w' →
  replays w !! g = Some (p, items) →
  heap w !! p = Some s →
  heap w' !! p = Some s' →
  closed (out s') = false →
  ∃ sent rest d,
    items = sent ++ rest
    ∧ replays w' !! g = Some (p, rest)
    ∧ received_by p w' ++ buf (out s') = received_by p w ++ buf (out s) ++ d
    ∧ (IsEvent <$> sent) `sublist_of` d.
Proof.
  induction es as [|e es IH]; intros w w' items s s' Hwf Hx Hg Hs Hs' Hopen;
    simpl in Hx.
  - injection Hx as <-. exists [], items, []. rewrite !app_nil_r.
    rewrite Hs in Hs'. injection Hs' as <-. by repeat split.
  - destruct (step w e) as [w1| |] eqn:E; simpl in Hx; [|done|done].
    assert (wf w1) as Hwf1 by (by eapply wf_step).
    destruct (step_follows _ _ _ _ _ E Hwf Hs)
      as (s1 & Hs1 & _ & _ & _ & _ & Hmono1 & Heq1).
    destruct (exec_follows es _ _ _ _ Hwf1 Hx Hs1)
      as (s0 & Hs0 & _ & _ & _ & Hmono & _).
    rewrite Hs' in Hs0. injection Hs0 as <-.
    assert (closed (out s1) = false) as Hopen1.
    { destruct (closed (out s1)); [|done]. rewrite Hmono in Hopen; done. }
    assert (e = Replay_send g ∨ e ≠ Replay_send g) as [->|He].
    { destruct e as [| | | | | | | | |g']; try (right; discriminate).
      destruct (decide (g' = g)) as [->|?]; [by left|right; congruence]. }
    + destruct items as [|ev rem];
        [simpl in E; unfold replay in E; by rewrite Hg in E|].
      simpl in E. rewrite (replay_unfold _ _ _ _ _ _ Hg Hs) in E.
      destruct (closed (out s)); [done|].
      destruct (full (out s)); [done|]. injection E as <-.
      set (c := Chan (buf (out s) ++ [IsEvent ev]) (cap (out s)) false) in *.
      set (w1 := set_replays _ (set_out p c w)) in *.
      assert (heap w1 !! p = Some (Subscription (channel s) (lastEventID s) c))
        as Hp1 by (subst w1; simpl; by apply heap_set_out_eq).
      destruct (IH w1 w' rem (Subscription (channel s) (lastEventID s) c) s'
                  Hwf1 Hx)
        as (sent & rest & d & -> & Hg' & Heq & Hsub); [|done..|].
      { subst w1. simpl. apply list_lookup_insert_eq. by eapply lookup_lt_Some. }
      exists (ev :: sent), rest, (IsEvent ev :: d).
      split; [done|]. split; [done|]. split.
      * rewrite Heq. simpl.
        destruct (same_maps_set_out p c w) as (_ & _ & _ & _ & Hrcv & _).
        unfold received_by at 1. subst w1. simpl. rewrite Hrcv.
        by rewrite <- app_assoc.
      * simpl. by apply sublist_skip.
    + destruct (Heq1 Hopen1) as (d1 & Hd1 & _).
      destruct (IH w1 w' items s1 s' Hwf1 Hx)
        as (sent & rest & d & -> & Hg' & Heq & Hsub); try done.
      { by eapply step_keeps_task. }
      exists sent, rest, (d1 ++ d). split; [done|]. split; [done|]. split.
      * by rewrite Heq, app_assoc, Hd1, <- !app_assoc.
      * by apply sublist_inserts_l.
Qed.

(** With room in the queue for all that is left, the dispatcher runs through. *)
Lemma replay_runs_through g p items :
  ∀ w s,
  replays w !! g = Some (p, items) →
  heap w !! p = Some s →
  closed (out s) = false →
  length (buf (out s)) + length items ≤ cap (out s) →
  ∃ w' s', exec w (replicate (length items) (Replay_send g)) = Ok w'
           ∧ heap w' !! p = Some s'
           ∧ buf (out s') = buf (out s) ++ (IsEvent <$> items)
           ∧ closed (out s') = false
           ∧ replays w' !! g = Some (p, [])
           ∧ received w' = received w.
Proof.
  induction items as [|ev rest IH]; intros w s Hg Hp Hopen Hroom; simpl.
  - exists w, s. rewrite app_nil_r. by repeat split.
  - rewrite (replay_unfold _ _ _ _ _ _ Hg Hp), Hopen.
    assert (full (out s) = false) as -> by (apply full_false; simpl in Hroom; lia).
    simpl.
    set (c := Chan (buf (out s) ++ [IsEvent ev]) (cap (out s)) false).
    set (w1 := set_replays _ (set_out p c w)).
    destruct (IH w1 (Subscription (channel s) (lastEventID s) c))
      as (w' & s' & Hx & Hp' & Hbuf & Hopen' & Hg' & Hrcv).
    + subst w1. simpl. apply list_lookup_insert_eq. by eapply lookup_lt_Some.
    + subst w1. simpl. by apply heap_set_out_eq.
    + done.
    + simpl. rewrite length_app. simpl in *. lia.
    + exists w', s'. split; [done|]. split; [done|]. split.
      { rewrite Hbuf. simpl. by rewrite <- app_assoc. }
      split; [done|]. split; [done|]. rewrite Hrcv. subst w1. simpl.
      by destruct (same_maps_set_out p c w) as (_ & _ & _ & _ & -> & _).
Qed.

End Replay.

(** ** Where the slow-consumer branch goes wrong *)

Section SlowConsumer.
Context {RO : RangeOrder}.

Lemma range_set_singleton w p : range_set w {[p]} = [p].
Proof.
  apply Permutation_singleton_r. rewrite range_set_perm.
  by rewrite elements_singleton.
Qed.

Lemma range_fanout_blocks it l : NoDup l →
  ∀ w,
  (∀ p, p ∈ l → ∃ s, heap w !! p = Some s
                     ∧ closed (out s) = false ∧ full (out s) = true) →
  closed (unregister (srv w)) = false →
  length (buf (unregister (srv w))) ≤ cap (unregister (srv w)) →
  cap (unregister (srv w)) < length (buf (unregister (srv w))) + length l →
  range (fanout it) l w = Blocked.
Proof.
  induction 1 as [|x l Hx Hnd IH]; intros w Hl Hopen Hle Hlt; simpl in *; [lia|].
  destruct (Hl x (list_elem_of_here _ _)) as (s & Hs & Hcl & Hfull).
  rewrite (fanout_unfold _ _ _ _ Hs), Hcl, Hfull, Hopen.
  destruct (full (unregister (srv w))) eqn:Hu; [done|]. simpl.
  apply full_false in Hu. apply IH.
  - intros p Hp. destruct (Hl p (list_elem_of_further _ _ _ Hp)) as (sp & Hsp & ?).
    exists sp. split; [|done]. rewrite heap_set_out_ne; [done|].
    intros ->. done.
  - by rewrite srv_set_out.
  - rewrite srv_set_out. simpl. rewrite length_app. simpl. lia.
  - rewrite srv_set_out. simpl. rewrite length_app. simpl. lia.
Qed.

(** C4, where the code departs from it: the slow-consumer branch sends the
    subscription on [srv.unregister], which only [run] itself receives from.
    When the subscribers of a channel whose queues are full are more than
    the room left in that buffer (capacity 2), [run] stays parked on that
    send in the middle of the fan-out: the publish does not return, and
    nothing is processed after it. *)
Theorem publish_blocks_when_unregister_is_full w c ev :
  running w = true →
  (∀ p, p ∈ subs_at c w → ∃ s, heap w !! p = Some s
                               ∧ closed (out s) = false ∧ full (out s) = true) →
  closed (unregister (srv w)) = false →
  length (buf (unregister (srv w))) ≤ cap (unregister (srv w)) →
  cap (unregister (srv w)) < length (buf (unregister (srv w))) + size (subs_at c w) →
  step w (Publish [c] ev) = Blocked.
Proof.
  intros Hrun Hsubs Hopen Hle Hlt. simpl. unfold in_run, run_pub. rewrite Hrun.
  simpl. rewrite (range_fanout_blocks _ _ (range_set_NoDup _ _)); try done.
  - intros p Hp. apply Hsubs. by eapply elem_of_range_set.
  - assert (length (range_set w (subs_at c w)) = size (subs_at c w)) as ->; [|done].
    by rewrite range_set_perm.
Qed.

(** C1, where the code departs from it: the slow-consumer branch closes the
    queue at once but only queues the removal on [srv.unregister].  After a
    publish to a channel whose one subscriber has a full queue, that
    subscriber is still in the set of the channel with its queue closed, and
    a publish to the channel that [run] takes before the queued unregister
    sends on the closed queue and panics. *)
Theorem slow_consumer_stays_in_set_with_closed_queue w c p s ev :
  running w = true →
  subs_at c w = {[p]} →
  heap w !! p = Some s →
  closed (out s) = false →
  full (out s) = true →
  closed (unregister (srv w)) = false →
  full (unregister (srv w)) = false →
  ∃ w1 s1, step w (Publish [c] ev) = Ok w1
           ∧ p ∈ subs_at c w1
           ∧ heap w1 !! p = Some s1 ∧ closed (out s1) = true
           ∧ buf (unregister (srv w1)) = buf (unregister (srv w)) ++ [p]
           ∧ ∀ ev', step w1 (Publish [c] ev') = Panic SendOnClosedChannel.
Proof.
  intros Hrun Hset Hs Hcl Hfull Hucl Hufull.
  simpl. unfold in_run, run_pub. rewrite Hrun. simpl.
  rewrite Hset, range_set_singleton. simpl.
  rewrite (fanout_unfold _ _ _ _ Hs), Hcl, Hfull, Hucl, Hufull. simpl.
  set (c1 := Chan (buf (out s)) (cap (out s)) true).
  set (w1 := set_out p c1 _).
  assert (heap w1 !! p = Some (Subscription (channel s) (lastEventID s) c1)) as Hs1.
  { subst w1. by apply heap_set_out_eq. }
  assert (subs_at c w1 = {[p]}) as Hset1.
  { subst w1. by rewrite subs_at_set_out. }
  exists w1, (Subscription (channel s) (lastEventID s) c1).
  split; [done|]. split; [rewrite Hset1; by apply elem_of_singleton|].
  split; [done|]. split; [done|]. split.
  { subst w1. by rewrite srv_set_out. }
  intros ev'. unfold in_run, run_pub.
  assert (running w1 = true) as ->.
  { subst w1. by destruct (same_maps_set_out p c1 (set_unregister
      (Chan (buf (unregister (srv w)) ++ [p]) (cap (unregister (srv w))) false) w))
      as (_ & _ & -> & _). }
  simpl. rewrite Hset1, range_set_singleton. simpl.
  by rewrite (fanout_unfold _ _ _ _ Hs1).
Qed.

Lemma range_close_out_closed l :
  ∀ w p s,
  (∀ q, q ∈ l → is_Some (heap w !! q)) →
  p ∈ l → heap w !! p = Some s → closed (out s) = true →
  range close_out l w = Panic CloseOfClosedChannel.
Proof.
  induction l as [|x l IH]; intros w p s Hl Hp Hs Hcl; simpl.
  - by apply not_elem_of_nil in Hp.
  - destruct (Hl x (list_elem_of_here _ _)) as [sx Hsx].
    rewrite (close_out_unfold _ _ _ Hsx).
    destruct (closed (out sx)) eqn:Hclx; [done|]. simpl.
    assert (p ≠ x) as Hne by (intros ->; congruence).
    apply elem_of_cons in Hp as [?|Hp]; [done|].
    apply (IH _ p s); try done.
    + intros q Hq. destruct (decide (q = x)) as [->|Hqx].
      * rewrite (heap_set_out_eq _ _ _ _ Hsx). by eexists.
      * rewrite heap_set_out_ne by done. apply Hl. by apply list_elem_of_further.
    + by rewrite heap_set_out_ne.
Qed.

Lemma range_close_out_not_Blocked l w : range close_out l w ≠ Blocked.
Proof.
  revert w. induction l as [|x l IH]; intros w; simpl; [done|].
  destruct (close_out x w) as [w1| |] eqn:E; simpl; [apply IH|done|].
  unfold close_out, deref, close in E.
  destruct (heap w !! x) as [sx|]; simpl in E; [|done].
  by destruct (closed (out sx)).
Qed.

Lemma range_close_out_panic l :
  ∀ w pn,
  (∀ q, q ∈ l → is_Some (heap w !! q)) →
  range close_out l w = Panic pn → pn = CloseOfClosedChannel.
Proof.
  induction l as [|x l IH]; intros w pn Hall; simpl; [done|].
  destruct (Hall x (list_elem_of_here _ _)) as [sx Hsx].
  rewrite (close_out_unfold _ _ _ Hsx).
  destruct (closed (out sx)); simpl; [congruence|].
  apply IH. intros q Hq. destruct (decide (q = x)) as [->|Hqx].
  - rewrite (heap_set_out_eq _ _ _ _ Hsx). by eexists.
  - rewrite heap_set_out_ne by done. apply Hall. by apply list_elem_of_further.
Qed.

Lemma range_map_close_closed (l : list (string * gset ptr)) :
  ∀ w p s kv,
  (∀ kv' q, kv' ∈ l → q ∈ kv'.2 → is_Some (heap w !! q)) →
  kv ∈ l → p ∈ kv.2 → heap w !! p = Some s → closed (out s) = true →
  range (λ kv w', range close_out (range_set w' kv.2) w') l w
  = Panic CloseOfClosedChannel.
Proof.
  induction l as [|kv0 l IH]; intros w p s kv Hl Hkv Hp Hs Hcl; simpl.
  - by apply not_elem_of_nil in Hkv.
  - destruct (decide (p ∈ kv0.2)) as [Hin|Hnin].
    { rewrite (range_close_out_closed _ w p s); try done.
      - intros q Hq. apply (Hl kv0); [apply list_elem_of_here|].
        by eapply elem_of_range_set.
      - by eapply elem_of_range_set. }
    apply elem_of_cons in Hkv as [->|Hkv]; [done|].
    destruct (range close_out (range_set w kv0.2) w) as [w1| |] eqn:E; simpl.
    + destruct (range_close_out_pushed _ _ _ _ _ E Hs) as (s1 & Hs1 & Hpush & _).
      apply (IH _ p s1 kv); try done.
      * intros kv' q Hkv' Hq.
        destruct (Hl kv' q (list_elem_of_further _ _ _ Hkv') Hq) as [sq Hsq].
        destruct (range_close_out_pushed _ _ _ _ _ E Hsq) as (sq1 & -> & _).
        by eexists.
      * destruct Hpush as (_ & _ & _ & Hmono & _). by apply Hmono.
    + f_equal. eapply range_close_out_panic; [|done].
      intros q Hq. apply (Hl kv0); [apply list_elem_of_here|].
      by eapply elem_of_range_set.
    + by apply range_close_out_not_Blocked in E.
Qed.

(** C6, where the code departs from it: when [run] takes the quit request
    while a subscription that the slow-consumer branch has closed is still in
    the set of its channel (its unregister is queued, not yet processed), the
    quit case closes that queue a second time and panics; the queues are not
    all closed and [run] does not return. *)
Theorem quit_panics_on_closed_subscription w c p s :
  running w = true →
  wf w →
  p ∈ subs_at c w →
  heap w !! p = Some s →
  closed (out s) = true →
  step w Close_quit = Panic CloseOfClosedChannel.
Proof.
  intros Hrun Hwf Hp Hs Hcl. simpl. unfold in_run, run_quit. rewrite Hrun.
  unfold subs_at in Hp.
  destruct (subs w !! c) as [X|] eqn:HX; simpl in Hp;
    [|by apply not_elem_of_empty in Hp].
  rewrite (range_map_close_closed _ w p s (c, X)); try done.
  - intros [c' X'] q Hkv Hq. rewrite range_map_perm in Hkv.
    apply elem_of_map_to_list in Hkv. simpl in Hq.
    destruct (Hwf c' q) as (sq & -> & _); [|by eexists].
    unfold subs_at. by rewrite Hkv.
  - rewrite range_map_perm. by apply elem_of_map_to_list.
Qed.

(** C2, where the code departs from it: [replay] sends with a plain
    [sub.out <- ev]; when the queue has been closed (by the slow-consumer
    branch or by the quit case) while the task still has an event to send,
    the send panics. *)
Theorem replay_on_closed_queue_panics w g p ev rest s :
  replays w !! g = Some (p, ev :: rest) →
  heap w !! p = Some s →
  closed (out s) = true →
  step w (Replay_send g) = Panic SendOnClosedChannel.
Proof.
  intros Hg Hp Hcl. simpl. by rewrite (replay_unfold _ _ _ _ _ _ Hg Hp), Hcl.
Qed.

End SlowConsumer.

(** ** Shutdown when no closed subscription is left in a set *)

Section QuitReturns.
Context {RO : RangeOrder}.

Lemma range_close_out_ok l : NoDup l →
  ∀ w,
  (∀ q, q ∈ l → ∃ s, heap w !! q = Some s ∧ closed (out s) = false) →
  ∃ w', range close_out l w = Ok w'
        ∧ ∀ q, q ∉ l → heap w' !! q = heap w !! q.
Proof.
  induction 1 as [|x l Hx Hnd IH]; intros w Hl; simpl.
  - by exists w.
  - destruct (Hl x (list_elem_of_here _ _)) as (s & Hs & Hcl).
    rewrite (close_out_unfold _ _ _ Hs), Hcl. simpl.
    set (c := Chan _ _ true). destruct (IH (set_out x c w)) as (w' & -> & Hoth).
    + intros q Hq. destruct (Hl q (list_elem_of_further _ _ _ Hq)) as (sq & Hsq & ?).
      exists sq. split; [|done]. rewrite heap_set_out_ne; [done|]. by intros ->.
    + exists w'. split; [done|]. intros q Hq. apply not_elem_of_cons in Hq as [??].
      rewrite Hoth by done. by rewrite heap_set_out_ne.
Qed.

Lemma range_map_close_ok (l : list (string * gset ptr)) :
  NoDup l.*1 →
  (∀ kv kv' q, kv ∈ l → kv' ∈ l → q ∈ kv.2 → q ∈ kv'.2 → kv.1 = kv'.1) →
  ∀ w,
  (∀ kv q, kv ∈ l → q ∈ kv.2 → ∃ s, heap w !! q = Some s ∧ closed (out s) = false) →
  ∃ w', range (λ kv w', range close_out (range_set w' kv.2) w') l w = Ok w'.
Proof.
  induction l as [|kv0 l IH]; intros Hnd Hdisj w Hl; simpl.
  - by exists w.
  - apply NoDup_cons in Hnd as [Hk0 Hnd].
    destruct (range_close_out_ok _ (range_set_NoDup w kv0.2) w) as (w1 & -> & Hoth).
    { intros q Hq. apply (Hl kv0); [apply list_elem_of_here|].
      by eapply elem_of_range_set. }
    simpl. apply IH; [done| |].
    + intros kv kv' q Hkv Hkv'. apply Hdisj; by apply list_elem_of_further.
    + intros kv q Hkv Hq. rewrite Hoth.
      * apply (Hl kv); [by apply list_elem_of_further|done].
      * rewrite elem_of_range_set. intros Hq0. apply Hk0.
        rewrite (Hdisj kv0 kv q);
          [|apply list_elem_of_here|by apply list_elem_of_further|done|done].
        apply list_elem_of_fmap. by exists kv.
Qed.

(** When every subscription in a set has an open queue, the quit case closes
    all of them, leaves what they hold for the readers, and [run] returns. *)
Lemma quit_closes_every_queue w :
  running w = true →
  wf w →
  (∀ c p s, p ∈ subs_at c w → heap w !! p = Some s → closed (out s) = false) →
  ∃ w', step w Close_quit = Ok w'
        ∧ running w' = false ∧ subs w' = subs w
        ∧ ∀ c p s, p ∈ subs_at c w → heap w !! p = Some s →
            ∃ s', heap w' !! p = Some s'
                  ∧ closed (out s') = true ∧ buf (out s') = buf (out s).
Proof.
  intros Hrun Hwf Hopen. simpl. unfold in_run. rewrite Hrun.
  assert (∀ c X, (c, X) ∈ range_map w (subs w) ↔ subs w !! c = Some X) as Hmem.
  { intros c X. rewrite range_map_perm. apply elem_of_map_to_list. }
  destruct (range_map_close_ok (range_map w (subs w))) with (w := w) as (w1 & Hw1).
  - rewrite range_map_perm. apply NoDup_fst_map_to_list.
  - intros [c X] [c' X'] q HX%Hmem HX'%Hmem Hq Hq'. simpl in *.
    destruct (Hwf c q) as (s & Hs & <-); [unfold subs_at; by rewrite HX|].
    destruct (Hwf c' q) as (s' & Hs' & <-); [unfold subs_at; by rewrite HX'|].
    congruence.
  - intros [c X] q HX%Hmem Hq. simpl in Hq.
    assert (q ∈ subs_at c w) as Hin by (unfold subs_at; by rewrite HX).
    destruct (Hwf c q Hin) as (s & Hs & _). exists s. split; [done|].
    by eapply Hopen.
  - assert (run_quit w = Ok (set_running false w1)) as Hq.
    { unfold run_quit. by rewrite Hw1. }
    exists (set_running false w1). split; [done|].
    destruct (run_quit_fields _ _ Hq) as (Hsubs & _ & _ & _ & Hr).
    split; [done|]. split; [done|]. intros c p s Hp Hs.
    destruct (run_quit_pushed _ _ _ _ Hq Hs) as (s' & Hs' & Hpush & Hcl).
    exists s'. split; [done|]. split; [by eapply Hcl|].
    destruct (run_quit_buf _ _ _ _ Hq Hs) as (s2 & Hs2 & Hb2).
    rewrite Hs' in Hs2. by injection Hs2 as <-.
Qed.

(** Once [run] has returned, no step changes its two maps: a subscription
    made afterwards is never added. *)
Lemma after_run_returns e w w' :
  running w = false → step w e = Ok w' →
  subs w' = subs w ∧ repos w' = repos w ∧ running w' = false.
Proof.
  intros Hrun Hstep.
  destruct e as [ch repo|chs ev|chs text| | |ch id|sub|sub| |g];
    simpl in Hstep; unfold in_run in Hstep; rewrite ?Hrun in Hstep; try done.
  - by injection Hstep as <-.
  - unfold Handler_subscribe in Hstep.
    destruct (isServerClosed w); [by injection Hstep as <-|].
    destruct (make (BufferSize (srv w))); simpl in Hstep; [|done|done].
    unfold in_run in Hstep. simpl in Hstep. by rewrite Hrun in Hstep.
  - unfold Handler_receive in Hstep.
    destruct (Handler_sub sub w) as [s| |]; simpl in Hstep; [|done|done].
    destruct (recv (out s)) as [[[v|] c]| |]; simpl in Hstep; [| |done|done].
    + injection Hstep as <-. simpl.
      by destruct (same_maps_set_out sub c w) as (-> & -> & -> & _).
    + by injection Hstep as <-.
  - destruct (Handler_sub sub w) as [s| |]; simpl in Hstep; [|done|done].
    destruct (send sub (unregister (srv w))) as [u| |]; simpl in Hstep; [|done|done].
    by injection Hstep as <-.
  - unfold replay, deref in Hstep.
    destruct (replays w !! g) as [[q [|ev rest]]|]; [done| |done].
    destruct (heap w !! q) as [sq|]; simpl in Hstep; [|done].
    destruct (send (IsEvent ev) (out sq)) as [c| |]; simpl in Hstep; [|done|done].
    injection Hstep as <-. simpl.
    by destruct (same_maps_set_out q c w) as (-> & -> & -> & _).
Qed.

End QuitReturns.

(** ** After [run] has returned *)

Section AfterClose.
Context {RO : RangeOrder}.

Lemma exec_after_run_returns es :
  ∀ w w', running w = false → exec w es = Ok w' →
  running w' = false ∧ subs w' = subs w ∧ repos w' = repos w.
Proof.
  induction es as [|e es IH]; intros w w' Hrun Hx; simpl in Hx.
  - by injection Hx as <-.
  - destruct (step w e) as [w1| |] eqn:E; simpl in Hx; [|done|done].
    destruct (after_run_returns _ _ _ Hrun E) as (Hs1 & Hr1 & Hrun1).
    destruct (IH _ _ Hrun1 Hx) as (? & ? & ?). split; [done|]. split; congruence.
Qed.

(** X1.  Once a [Close] has got its quit request through, whatever happens next,
    every later [Register], [Publish], [PublishComment] and [Close] stays
    parked on its send to [run]: nobody receives on [srv.registrations],
    [srv.pub] and [srv.quit] any more. *)
Theorem callers_block_after_close w0 w es w' :
  step w0 Close_quit = Ok w →
  exec w es = Ok w' →
  ∀ ch repo chs ev text,
    step w' (Register ch repo) = Blocked
    ∧ step w' (Publish chs ev) = Blocked
    ∧ step w' (PublishComment chs text) = Blocked
    ∧ step w' Close_quit = Blocked.
Proof.
  intros Hq Hx ch repo chs ev text. simpl in Hq. unfold in_run in Hq.
  destruct (running w0); [|done].
  destruct (run_quit_fields _ _ Hq) as (_ & _ & _ & _ & Hrun).
  destruct (exec_after_run_returns _ _ _ Hrun Hx) as (Hrun' & _).
  simpl. unfold in_run. by rewrite Hrun'.
Qed.

(** X2.  A handler that makes its closed check after [run] has returned but
    before [Close] has marked the server closed passes the check and then
    stays parked on [srv.subs <- sub]; its subscription is never added. *)
Theorem handler_blocks_between_quit_and_mark w0 w es w' ch id :
  step w0 Close_quit = Ok w →
  exec w es = Ok w' →
  isServerClosed w' = false →
  (0 ≤ BufferSize (srv w'))%Z →
  step w' (Handler_subs ch id) = Blocked.
Proof.
  intros Hq Hx Hopen Hsize. simpl in Hq. unfold in_run in Hq.
  destruct (running w0); [|done].
  destruct (run_quit_fields _ _ Hq) as (_ & _ & _ & _ & Hrun).
  destruct (exec_after_run_returns _ _ _ Hrun Hx) as (Hrun' & _).
  simpl. unfold Handler_subscribe, make, in_run. rewrite Hopen.
  destruct (Z.ltb_spec (BufferSize (srv w')) 0) as [?|_]; [lia|]. simpl.
  by rewrite Hrun'.
Qed.

End AfterClose.

(** ** Subscribers and their channels *)

Section Membership.
Context {RO : RangeOrder}.

(** X5.  From a server without subscribers, in any schedule: whoever is in the
    set of a channel is a subscription made for that channel, so that a
    subscription is in the set of one channel at most. *)
Theorem subscribers_sit_in_their_own_channel w0 es w :
  subs w0 = ∅ →
  exec w0 es = Ok w →
  ∀ c p, p ∈ subs_at c w →
    (∃ s, heap w !! p = Some s ∧ channel s = c)
    ∧ ∀ c', p ∈ subs_at c' w → c' = c.
Proof.
  intros Hempty Hx.
  assert (wf w) as Hwf.
  { eapply wf_exec; [done|]. intros c p Hp. unfold subs_at in Hp.
    rewrite Hempty, lookup_empty in Hp. by apply not_elem_of_empty in Hp. }
  intros c p Hp. split; [by apply Hwf|]. intros c' Hp'.
  destruct (Hwf c p Hp) as (s & Hs & <-).
  destruct (Hwf c' p Hp') as (s' & Hs' & <-). congruence.
Qed.

(** X6.  A member of the set of its channel that [run] removes on an
    unregister request is in no set after any schedule: [run] adds the
    subscriptions it takes from [srv.subs], and never one it has removed. *)
Theorem unregistered_never_comes_back w0 w es w' p rest s :
  wf w0 →
  heap w0 !! p = Some s →
  p ∈ subs_at (channel s) w0 →
  buf (unregister (srv w0)) = p :: rest →
  step w0 Run_unregister = Ok w →
  exec w es = Ok w' →
  ∀ c, p ∉ subs_at c w'.
Proof.
  intros Hwf0 Hs0 _ Hbuf Hstep Hx c Hin.
  pose proof (wf_step _ _ _ Hstep Hwf0) as Hwf.
  assert (running w0 = true) as Hrun.
  { destruct (running w0) eqn:E; [done|].
    simpl in Hstep. unfold in_run in Hstep. by rewrite E in Hstep. }
  rewrite (step_Run_unregister _ _ _ Hrun Hbuf) in Hstep.
  destruct (run_unregister_spec
              (set_unregister (Chan rest (cap (unregister (srv w0)))
                                    (closed (unregister (srv w0)))) w0) p s Hs0)
    as (w1 & Hw1 & Hheap & _ & _ & _ & _ & _ & Hat & _).
  rewrite Hstep in Hw1. injection Hw1 as <-.
  assert (heap w !! p = Some s) as Hs by (by rewrite Hheap).
  assert (p ∉ subs_at (channel s) w) as Hout.
  { rewrite Hat. intros [_ Hn]%elem_of_difference. apply Hn.
    by apply elem_of_singleton. }
  destruct (exec_follows es _ _ _ _ Hwf Hx Hs) as (s' & Hs' & Hc & _ & Hback & _).
  destruct (wf_exec _ _ _ Hx Hwf c p Hin) as (s1 & Hs1 & <-).
  rewrite Hs' in Hs1. injection Hs1 as <-. rewrite Hc in Hin. by apply Hout, Hback.
Qed.

End Membership.

(** ** Reading a queue to its end *)

Section Drain.
Context {RO : RangeOrder}.

(** X8.  The handler takes what is in the queue in order, open or closed: after
    as many reads as there are items it has received them all; the next
    read waits when the queue is open, and when the queue is closed it
    reports the end and the handler returns.  Items queued before a close
    are not lost. *)
Theorem handler_reads_queue_to_its_end p :
  ∀ w s,
  heap w !! p = Some s →
  ∃ w' s',
    exec w (replicate (length (buf (out s))) (Handler_out p)) = Ok w'
    ∧ heap w' !! p = Some s'
    ∧ buf (out s') = [] ∧ closed (out s') = closed (out s)
    ∧ received_by p w' = received_by p w ++ buf (out s)
    ∧ step w' (Handler_out p) = (if closed (out s) then Ok w' else Blocked).
Proof.
  intros w s. remember (buf (out s)) as l eqn:Hl. revert w s Hl.
  induction l as [|v l IH]; intros w s Hl Hs; simpl.
  - exists w, s. rewrite app_nil_r. repeat split; try done.
    unfold Handler_receive, Handler_sub, recv. rewrite Hs. simpl. rewrite <- Hl.
    by destruct (closed (out s)).
  - unfold Handler_receive, Handler_sub, recv. rewrite Hs. simpl. rewrite <- Hl.
    simpl. set (c := Chan l (cap (out s)) (closed (out s))).
    set (w1 := set_received _ (set_out p c w)).
    destruct (IH w1 (Subscription (channel s) (lastEventID s) c))
      as (w' & s' & Hx & Hs' & Hb & Hc & Hrcv & Hnext); [done| |].
    { subst w1. simpl. by apply heap_set_out_eq. }
    exists w', s'. split; [done|]. split; [done|]. split; [done|].
    split; [done|]. split; [|done].
    rewrite Hrcv. simpl.
    assert (received_by p w1 = received_by p w ++ [v]) as ->.
    { subst w1. unfold received_by. simpl.
      rewrite filter_app, fmap_app. f_equal.
      rewrite filter_cons, filter_nil. simpl. by rewrite decide_True. }
    by rewrite <- app_assoc.
Qed.

End Drain.

(** ** Publishing to subscribers with and without room *)

Lemma range_app {A W} (f : A → W → outcome W) l1 l2 w :
  range f (l1 ++ l2) w = (range f l1 w ≫= range f l2).
Proof.
  revert w. induction l1 as [|x l1 IH]; intros w; simpl; [done|].
  destruct (f x w) as [w'| |]; simpl; [apply IH|done|done].
Qed.

Section Room.
Context {RO : RangeOrder}.

Lemma range_fanout_room it l : NoDup l →
  ∀ w,
  (∀ p, p ∈ l → ∃ s, heap w !! p = Some s
                     ∧ closed (out s) = false ∧ full (out s) = false) →
  ∃ w', range (fanout it) l w = Ok w'
        ∧ srv w' = srv w ∧ same_maps w w'
        ∧ ∀ p s, heap w !! p = Some s →
            heap w' !! p =
            Some (if decide (p ∈ l)
                  then Subscription (channel s) (lastEventID s)
                         (Chan (buf (out s) ++ [it]) (cap (out s)) false)
                  else s).
Proof.
  induction 1 as [|x l Hx Hnd IH]; intros w Hl.
  - exists w. split; [done|]. split; [done|]. split; [apply same_maps_refl|].
    intros p s Hs. by rewrite decide_False by apply not_elem_of_nil.
  - destruct (Hl x (list_elem_of_here _ _)) as (sx & Hsx & Hcl & Hfull).
    set (c := Chan (buf (out sx) ++ [it]) (cap (out sx)) false).
    assert (range (fanout it) (x :: l) w = range (fanout it) l (set_out x c w))
      as ->.
    { simpl. by rewrite (fanout_unfold _ _ _ _ Hsx), Hcl, Hfull. }
    destruct (IH (set_out x c w)) as (w' & -> & Hsrv & Hsame & Hheap).
    { intros p Hp. destruct (Hl p (list_elem_of_further _ _ _ Hp)) as (s & Hs & ?).
      exists s. split; [|done]. rewrite heap_set_out_ne; [done|]. by intros ->. }
    exists w'. split; [done|]. split; [by rewrite Hsrv, srv_set_out|].
    split; [eapply same_maps_trans; [apply same_maps_set_out|done]|].
    intros p s Hs. destruct (decide (p = x)) as [->|Hne].
    + rewrite Hsx in Hs. injection Hs as <-.
      rewrite (Hheap x _ (heap_set_out_eq _ _ _ _ Hsx)).
      rewrite decide_False by done.
      by rewrite decide_True by apply list_elem_of_here.
    + rewrite (Hheap p s) by (by rewrite heap_set_out_ne).
      destruct (decide (p ∈ l)) as [Hin|Hin].
      * by rewrite decide_True by (by apply list_elem_of_further).
      * rewrite decide_False; [done|]. rewrite elem_of_cons. tauto.
Qed.

Lemma run_pub_room c it w :
  (∀ p, p ∈ subs_at c w → ∃ s, heap w !! p = Some s
                               ∧ closed (out s) = false ∧ full (out s) = false) →
  ∃ w', run_pub {| channels := [c]; item := it |} w = Ok w'
        ∧ srv w' = srv w ∧ subs w' = subs w
        ∧ ∀ p s, heap w !! p = Some s →
            heap w' !! p =
            Some (if decide (p ∈ subs_at c w)
                  then Subscription (channel s) (lastEventID s)
                         (Chan (buf (out s) ++ [it]) (cap (out s)) false)
                  else s).
Proof.
  intros Hroom.
  destruct (range_fanout_room it _ (range_set_NoDup w (subs_at c w)) w)
    as (w' & Hw' & Hsrv & Hsame & Hheap).
  { intros p Hp. apply Hroom. by eapply elem_of_range_set. }
  assert (run_pub {| channels := [c]; item := it |} w = Ok w') as ->.
  { unfold run_pub. simpl. by rewrite Hw'. }
  exists w'. split; [done|]. split; [done|].
  split; [by destruct Hsame as (-> & _)|].
  intros p s Hs. rewrite (Hheap p s Hs).
  destruct (decide (p ∈ subs_at c w)) as [Hin|Hin].
  - by rewrite decide_True by (by eapply elem_of_range_set).
  - rewrite decide_False; [done|]. by rewrite elem_of_range_set.
Qed.

(** X9.  When every subscriber of a channel has an open queue with room, a
    publish or a comment to that channel goes through: each of them gets the
    item at the end of its queue, every other subscription is left as it
    was, and nothing is sent on [srv.unregister] and no set changes. *)
Theorem publish_reaches_every_subscriber_with_room w c ev text :
  running w = true →
  (∀ p, p ∈ subs_at c w → ∃ s, heap w !! p = Some s
                               ∧ closed (out s) = false ∧ full (out s) = false) →
  (∃ w', step w (Publish [c] ev) = Ok w'
         ∧ srv w' = srv w ∧ subs w' = subs w
         ∧ ∀ p s, heap w !! p = Some s →
             heap w' !! p =
             Some (if decide (p ∈ subs_at c w)
                   then Subscription (channel s) (lastEventID s)
                          (Chan (buf (out s) ++ [IsEvent ev]) (cap (out s)) false)
                   else s))
  ∧ (∃ w', step w (PublishComment [c] text) = Ok w'
           ∧ srv w' = srv w ∧ subs w' = subs w
           ∧ ∀ p s, heap w !! p = Some s →
               heap w' !! p =
               Some (if decide (p ∈ subs_at c w)
                     then Subscription (channel s) (lastEventID s)
                            (Chan (buf (out s) ++ [IsComment {| value := text |}])
                                  (cap (out s)) false)
                     else s)).
Proof.
  intros Hrun Hroom.
  change (step w (Publish [c] ev))
    with (in_run (run_pub {| channels := [c]; item := IsEvent ev |}) w).
  change (step w (PublishComment [c] text))
    with (in_run (run_pub {| channels := [c];
                             item := IsComment {| value := text |} |}) w).
  unfold in_run. rewrite Hrun. split; by apply run_pub_room.
Qed.

Lemma range_fanout_spoiled it p l :
  ∀ w w',
  range (fanout it) l w = Ok w' →
  ((∃ s, heap w !! p = Some s ∧ closed (out s) = true) → p ∉ l)
  ∧ ((∃ s, heap w !! p = Some s
           ∧ (closed (out s) = true ∨ full (out s) = true)) →
     (∃ s', heap w' !! p = Some s'
            ∧ (closed (out s') = true ∨ full (out s') = true))
     ∧ (p ∈ l → ∃ s', heap w' !! p = Some s' ∧ closed (out s') = true))
  ∧ ((∃ s, heap w !! p = Some s ∧ closed (out s) = true) →
     ∃ s', heap w' !! p = Some s' ∧ closed (out s') = true).
Proof.
  induction l as [|x l IH]; intros w w' Hr; simpl in Hr.
  - injection Hr as <-. split; [intros _; apply not_elem_of_nil|].
    split; [|done]. intros Hbad. split; [done|].
    intros Hin. by apply not_elem_of_nil in Hin.
  - destruct (fanout it x w) as [w1| |] eqn:E; simpl in Hr; [|done|done].
    destruct (IH _ _ Hr) as (Hnot & Hbad & Hcl).
    assert ((∃ s, heap w !! p = Some s ∧ closed (out s) = true) →
            p ≠ x ∧ ∃ s1, heap w1 !! p = Some s1 ∧ closed (out s1) = true) as Hcl1.
    { intros (s & Hs & Hc). destruct (decide (p = x)) as [->|Hne].
      - destruct (fanout_self _ _ _ _ _ E Hs) as (_ & _ & _ & ?). congruence.
      - split; [done|]. exists s. by rewrite (fanout_other _ _ _ _ _ E Hne). }
    split; [|split].
    + intros Hc. destruct (Hcl1 Hc) as [Hne Hc1]. specialize (Hnot Hc1).
      rewrite elem_of_cons. tauto.
    + intros (s & Hs & Hb). destruct (decide (p = x)) as [->|Hne].
      * rewrite (fanout_unfold _ _ _ _ Hs) in E.
        destruct (closed (out s)) eqn:Hc; [done|].
        destruct Hb as [?|Hfull]; [done|]. rewrite Hfull in E.
        destruct (closed (unregister (srv w))); [done|].
        destruct (full (unregister (srv w))); [done|]. injection E as <-.
        assert (∃ s1, heap (set_out x (Chan (buf (out s)) (cap (out s)) true)
                              (set_unregister
                                 (Chan (buf (unregister (srv w)) ++ [x])
                                       (cap (unregister (srv w))) false) w))
                       !! x = Some s1 ∧ closed (out s1) = true) as Hc1.
        { eexists. split; [by apply heap_set_out_eq|done]. }
        destruct (Hcl Hc1) as (s' & Hs' & Hc'). split; [|intros _]; exists s'; tauto.
      * assert (∃ s1, heap w1 !! p = Some s1
                      ∧ (closed (out s1) = true ∨ full (out s1) = true)) as Hb1.
        { exists s. by rewrite (fanout_other _ _ _ _ _ E Hne). }
        destruct (Hbad Hb1) as [Hb' Hin']. split; [done|].
        intros [?|Hin]%elem_of_cons; [done|]. by apply Hin'.
    + intros Hc. destruct (Hcl1 Hc) as [_ Hc1]. by apply Hcl.
Qed.

Lemma run_pub_spoiled it p chs :
  ∀ w w',
  range (λ c w', range (fanout it) (range_set w' (subs_at c w')) w') chs w = Ok w' →
  subs w' = subs w
  ∧ ((∃ s, heap w !! p = Some s ∧ closed (out s) = true) →
     (∃ s', heap w' !! p = Some s' ∧ closed (out s') = true)
     ∧ ∀ c, c ∈ chs → p ∉ subs_at c w)
  ∧ ((∃ s, heap w !! p = Some s
           ∧ (closed (out s) = true ∨ full (out s) = true)) →
     ∀ c, c ∈ chs → p ∈ subs_at c w →
       ∃ s', heap w' !! p = Some s' ∧ closed (out s') = true).
Proof.
  induction chs as [|c chs IH]; intros w w' Hr; simpl in Hr.
  - injection Hr as <-. split; [done|]. split.
    + intros Hc. split; [done|]. intros c Hin. by apply not_elem_of_nil in Hin.
    + intros _ c Hin. by apply not_elem_of_nil in Hin.
  - destruct (range (fanout it) (range_set w (subs_at c w)) w) as [w1| |] eqn:E;
      simpl in Hr; [|done|done].
    destruct (range_fanout_spoiled it p _ _ _ E) as (Hnot1 & Hbad1 & Hcl1).
    destruct (IH _ _ Hr) as (Hsubs & Hcl & Hbad).
    assert (subs w1 = subs w) as Hsubs1.
    { eapply (range_same_maps (fanout it)); [|done].
      intros x. apply fanout_same_maps. }
    split; [congruence|]. split.
    + intros Hc. destruct (Hcl (Hcl1 Hc)) as [Hc' Hnot]. split; [done|].
      intros c' [->|Hin]%elem_of_cons.
      * rewrite <- elem_of_range_set. by apply Hnot1.
      * rewrite <- (subs_at_same _ _ _ Hsubs1). by apply Hnot.
    + intros Hb c' Hin Hp. destruct (Hbad1 Hb) as [Hb1 Hc1].
      destruct (decide (p ∈ subs_at c w)) as [Hpc|Hpc].
      * apply Hcl, Hc1. by eapply elem_of_range_set.
      * apply elem_of_cons in Hin as [->|Hin]; [done|].
        apply (Hbad Hb1 c'); [done|]. by rewrite (subs_at_same _ _ _ Hsubs1).
Qed.

(** X10.  A publish that names a channel twice does not go through when a
    subscriber of that channel has a queue with a buffer that is full: the first pass over the
    channel closes the queue and leaves the subscriber in the set, and the
    second pass sends on the closed queue (or [run] is parked or has
    panicked before that). *)
Theorem publish_naming_a_channel_twice_fails w c p s l1 l2 l3 ev :
  heap w !! p = Some s →
  0 < cap (out s) →
  full (out s) = true →
  p ∈ subs_at c w →
  ¬ ∃ w', step w (Publish (l1 ++ c :: l2 ++ c :: l3) ev) = Ok w'.
Proof.
  intros Hs _ Hfull Hin [w' Hstep]. simpl in Hstep. unfold in_run, run_pub in Hstep.
  destruct (running w); [|done]. simpl in Hstep.
  replace (l1 ++ c :: l2 ++ c :: l3) with ((l1 ++ c :: l2) ++ c :: l3) in Hstep
    by (by rewrite <- app_assoc).
  rewrite range_app in Hstep.
  destruct (range _ (l1 ++ c :: l2) w) as [w1| |] eqn:E1; simpl in Hstep;
    [|done|done].
  destruct (run_pub_spoiled _ p _ _ _ E1) as (Hsubs1 & _ & Hbad1).
  destruct (Hbad1 (ex_intro _ s (conj Hs (or_intror Hfull))) c) as (s1 & Hs1 & Hc1);
    [rewrite elem_of_app, elem_of_cons; tauto|done|].
  destruct (run_pub_spoiled (IsEvent ev) p (c :: l3) w1 w' Hstep) as (_ & Hnot & _).
  destruct (Hnot (ex_intro _ s1 (conj Hs1 Hc1))) as [_ Hout].
  apply (Hout c); [apply list_elem_of_here|].
  by rewrite (subs_at_same _ _ _ Hsubs1).
Qed.

End Room.

(** ** What each step is, read backwards *)

Section Inversion.
Context {RO : RangeOrder}.

Lemma step_inv e w w1 :
  step w e = Ok w1 →
  match e with
  | Register ch repo =>
      running w = true ∧ w1 = set_repos (<[ch := repo]> (repos w)) w
  | Publish chs ev =>
      running w = true
      ∧ run_pub {| channels := chs; item := IsEvent ev |} w = Ok w1
  | PublishComment chs text =>
      running w = true
      ∧ run_pub {| channels := chs; item := IsComment {| value := text |} |} w
        = Ok w1
  | Close_quit => running w = true ∧ run_quit w = Ok w1
  | Close_mark => w1 = markServerClosed w
  | Handler_subs ch id =>
      (isServerClosed w = true ∧ w1 = w)
      ∨ (isServerClosed w = false ∧ running w = true
         ∧ (0 ≤ BufferSize (srv w))%Z
         ∧ run_subs (length (heap w))
             (set_heap (heap w ++
                [Subscription ch id
                   (Chan [] (Z.to_nat (BufferSize (srv w))) false)]) w)
           = Ok w1)
  | Handler_out q =>
      ∃ sq, heap w !! q = Some sq
            ∧ ((buf (out sq) = [] ∧ closed (out sq) = true ∧ w1 = w)
               ∨ ∃ v rest, buf (out sq) = v :: rest
                           ∧ w1 = set_received (received w ++ [(q, v)])
                                    (set_out q (Chan rest (cap (out sq))
                                                     (closed (out sq))) w))
  | Handler_unregister q =>
      is_Some (heap w !! q)
      ∧ closed (unregister (srv w)) = false
      ∧ full (unregister (srv w)) = false
      ∧ w1 = set_unregister (Chan (buf (unregister (srv w)) ++ [q])
                                  (cap (unregister (srv w))) false) w
  | Run_unregister =>
      running w = true
      ∧ ∃ sub rest ss,
          buf (unregister (srv w)) = sub :: rest
          ∧ heap w !! sub = Some ss
          ∧ run_unregister sub
              (set_unregister (Chan rest (cap (unregister (srv w)))
                                    (closed (unregister (srv w)))) w) = Ok w1
  | Replay_send g =>
      ∃ q ev rest sq,
        replays w !! g = Some (q, ev :: rest)
        ∧ heap w !! q = Some sq
        ∧ closed (out sq) = false ∧ full (out sq) = false
        ∧ w1 = set_replays (<[g := (q, rest)]> (replays w))
                 (set_out q (Chan (buf (out sq) ++ [IsEvent ev])
                                  (cap (out sq)) false) w)
  end.
Proof.
  intros Hstep.
  destruct e as [ch repo|chs ev|chs text| | |ch id|q|q| |g];
    simpl in Hstep; unfold in_run in Hstep.
  - destruct (running w); [|done]. by injection Hstep as <-.
  - by destruct (running w).
  - by destruct (running w).
  - by destruct (running w).
  - by injection Hstep as <-.
  - unfold Handler_subscribe, make, in_run in Hstep.
    destruct (isServerClosed w); [left; by injection Hstep as <-|right].
    destruct (Z.ltb_spec (BufferSize (srv w)) 0) as [?|?]; [done|].
    simpl in Hstep. by destruct (running w).
  - unfold Handler_receive, Handler_sub, recv in Hstep.
    destruct (heap w !! q) as [sq|]; simpl in Hstep; [|done]. exists sq.
    split; [done|]. destruct (buf (out sq)) as [|v rest].
    + destruct (closed (out sq)); simpl in Hstep; [|done].
      left. by injection Hstep as <-.
    + right. exists v, rest. simpl in Hstep. by injection Hstep as <-.
  - unfold Handler_sub, send in Hstep.
    destruct (heap w !! q) as [sq|]; simpl in Hstep; [|done].
    destruct (closed (unregister (srv w))); [done|].
    destruct (full (unregister (srv w))); [done|].
    simpl in Hstep. injection Hstep as <-. repeat split; by eauto.
  - destruct (running w); [|done]. split; [done|]. unfold recv in Hstep.
    destruct (buf (unregister (srv w))) as [|sub rest].
    { by destruct (closed (unregister (srv w))). }
    simpl in Hstep. exists sub, rest.
    destruct (heap w !! sub) as [ss|] eqn:Hsub.
    + by exists ss.
    + unfold run_unregister, deref in Hstep. simpl in Hstep.
      by rewrite Hsub in Hstep.
  - unfold replay in Hstep.
    destruct (replays w !! g) as [[q [|ev rest]]|] eqn:Hg; [done| |done].
    destruct (heap w !! q) as [sq|] eqn:Hq;
      [|unfold deref in Hstep; by rewrite Hq in Hstep].
    fold (replay g w) in Hstep.
    assert (replay g w = Ok w1) as Hr.
    { unfold replay. by rewrite Hg. }
    rewrite (replay_unfold _ _ _ _ _ _ Hg Hq) in Hr.
    exists q, ev, rest, sq.
    destruct (closed (out sq)); [done|]. destruct (full (out sq)); [done|].
    by injection Hr as <-.
Qed.

End Inversion.

(** ** What fan-out and shutdown keep *)

Lemma range_rel {A} (R : world → world → Prop) (f : A → world → outcome world) l :
  (∀ w, R w w) →
  (∀ w1 w2 w3, R w1 w2 → R w2 w3 → R w1 w3) →
  (∀ x w w1, f x w = Ok w1 → R w w1) →
  ∀ w w', range f l w = Ok w' → R w w'.
Proof.
  intros Hrefl Htrans Hf. induction l as [|x l IH]; intros w w' Hr; simpl in Hr.
  - injection Hr as <-. apply Hrefl.
  - destruct (f x w) as [w1| |] eqn:E; simpl in Hr; [|done|done].
    eapply Htrans; [by eapply Hf|by apply IH].
Qed.

Lemma keeps_refl w : keeps w w.
Proof.
  unfold keeps. do 6 (split; [done|]). intros p s Hs. exists s. by repeat split.
Qed.

Lemma keeps_trans w1 w2 w3 : keeps w1 w2 → keeps w2 w3 → keeps w1 w3.
Proof.
  intros (Ha & Hb & Hc & Hd & He & Hf & Hg) (Ha' & Hb' & Hc' & Hd' & He' & Hf' & Hg').
  unfold keeps. rewrite Ha', Hb', Hc', Hd', Hf'.
  split; [done|]. split; [done|]. split; [done|]. split; [done|].
  split; [auto|]. split; [done|].
  intros p s Hs. destruct (Hg p s Hs) as (s1 & Hs1 & Hcap1 & Hb1 & Hcl1).
  destruct (Hg' p s1 Hs1) as (s2 & Hs2 & Hcap2 & Hb2 & Hcl2).
  exists s2. split; [done|]. split; [congruence|]. split.
  - intros Hle. by apply Hb2, Hb1.
  - intros Hcl. rewrite <- (Hcl1 Hcl). apply Hcl2. by rewrite (Hcl1 Hcl).
Qed.

Lemma keeps_set_out p c w s :
  heap w !! p = Some s →
  closed (out s) = false →
  cap c = cap (out s) →
  (length (buf (out s)) ≤ cap (out s) → length (buf c) ≤ cap c) →
  keeps w (set_out p c w).
Proof.
  intros Hs Hopen Hcap Hle. unfold keeps, unregister_bounded.
  rewrite srv_set_out.
  destruct (same_maps_set_out p c w) as (_ & _ & _ & _ & _ & Hlen).
  do 6 (split; [done|]).
  intros q sq Hq. destruct (decide (q = p)) as [->|Hne].
  - rewrite Hs in Hq. injection Hq as <-.
    eexists. split; [by apply heap_set_out_eq|]. simpl.
    split; [done|]. split; [done|]. congruence.
  - exists sq. rewrite heap_set_out_ne by done. by repeat split.
Qed.

Lemma keeps_push_unregister q w :
  closed (unregister (srv w)) = false →
  full (unregister (srv w)) = false →
  keeps w (set_unregister (Chan (buf (unregister (srv w)) ++ [q])
                                (cap (unregister (srv w))) false) w).
Proof.
  intros Hopen Hfull. apply full_false in Hfull. unfold keeps. simpl.
  do 4 (split; [done|]). split; [|split; [done|]].
  - intros _. unfold unregister_bounded. simpl. rewrite length_app. simpl.
    split; [done|lia].
  - intros p s Hs. exists s. by repeat split.
Qed.

Section Keeps.
Context {RO : RangeOrder}.

Lemma fanout_keeps it x w w1 : fanout it x w = Ok w1 → keeps w w1.
Proof.
  intros Hf. destruct (heap w !! x) as [sub|] eqn:Hx;
    [|unfold fanout, deref in Hf; by rewrite Hx in Hf].
  rewrite (fanout_unfold _ _ _ _ Hx) in Hf.
  destruct (closed (out sub)) eqn:Hcl; [done|].
  destruct (full (out sub)) eqn:Hfull.
  - destruct (closed (unregister (srv w))) eqn:Hucl; [done|].
    destruct (full (unregister (srv w))) eqn:Hufull; [done|].
    injection Hf as <-.
    eapply keeps_trans; [by apply keeps_push_unregister|].
    by apply (keeps_set_out _ _ _ sub).
  - injection Hf as <-. apply (keeps_set_out _ _ _ sub); try done.
    apply full_false in Hfull. simpl. rewrite length_app. simpl. lia.
Qed.

Lemma close_out_keeps x w w1 : close_out x w = Ok w1 → keeps w w1.
Proof.
  intros Hc. destruct (heap w !! x) as [sub|] eqn:Hx;
    [|unfold close_out, deref in Hc; by rewrite Hx in Hc].
  rewrite (close_out_unfold _ _ _ Hx) in Hc.
  destruct (closed (out sub)) eqn:Hcl; [done|]. injection Hc as <-.
  by apply (keeps_set_out _ _ _ sub).
Qed.

Lemma run_pub_keeps pub w w1 : run_pub pub w = Ok w1 → keeps w w1.
Proof.
  unfold run_pub. apply (range_rel keeps); [apply keeps_refl|apply keeps_trans|].
  intros c w0 w2.
  apply (range_rel keeps); [apply keeps_refl|apply keeps_trans|].
  intros x. apply fanout_keeps.
Qed.

Lemma run_quit_keeps w w1 : run_quit w = Ok w1 → keeps w w1.
Proof.
  unfold run_quit. intros Hq.
  destruct (range _ (range_map w (subs w)) w) as [w0| |] eqn:E;
    simpl in Hq; [|done|done].
  injection Hq as <-.
  assert (keeps w w0) as Hk.
  { revert E. apply (range_rel keeps); [apply keeps_refl|apply keeps_trans|].
    intros kv w2 w3.
    apply (range_rel keeps); [apply keeps_refl|apply keeps_trans|].
    intros x. apply close_out_keeps. }
  exact Hk.
Qed.

End Keeps.

(** ** What every step keeps *)

Section StepFacts.
Context {RO : RangeOrder}.

Lemma run_subs_at_new ch id c w w1 :
  run_subs (length (heap w)) (set_heap (heap w ++ [Subscription ch id c]) w) = Ok w1 →
  heap w1 = heap w ++ [Subscription ch id c]
  ∧ srv w1 = srv w ∧ repos w1 = repos w ∧ received w1 = received w
  ∧ running w1 = running w
  ∧ subs_at ch w1 = subs_at ch w ∪ {[length (heap w)]}
  ∧ (∀ c', c' ≠ ch → subs w1 !! c' = subs w !! c')
  ∧ (replays w1 = replays w
     ∨ ∃ l, replays w1 = replays w ++ [(length (heap w), l)]).
Proof.
  intros Hr. set (new := Subscription ch id c) in *.
  set (w0 := set_heap (heap w ++ [new]) w) in *.
  assert (heap w0 !! length (heap w) = Some new) as Hnew.
  { subst w0. simpl. rewrite lookup_app_r by done. by rewrite Nat.sub_diag. }
  destruct (run_subs_spec w0 _ new Hnew)
    as (w' & Hw' & Hheap & Hsrv & Hrep & Hrun & Hrcv & Hat & Hoth & Hrpl).
  rewrite Hr in Hw'. injection Hw' as <-.
  repeat split; try done.
  rewrite Hrpl. change (replays w0) with (replays w).
  destruct (ReplayAll (srv w0) || _); [|by left].
  destruct (repos w0 !! channel new); [right; by eexists|by left].
Qed.

Lemma keeps_conf w w1 :
  keeps w w1 →
  ReplayAll (srv w1) = ReplayAll (srv w)
  ∧ BufferSize (srv w1) = BufferSize (srv w)
  ∧ (isClosed (srv w) = true → isClosed (srv w1) = true)
  ∧ cap (unregister (srv w1)) = cap (unregister (srv w))
  ∧ (unregister_bounded w → unregister_bounded w1).
Proof.
  intros (H1 & H2 & H3 & H4 & H5 & _).
  split; [done|]. split; [done|]. split; [congruence|]. by split.
Qed.

(** The settings never change, [isClosed] is never reset, and
    [srv.unregister] stays within its capacity. *)
Lemma step_conf e w w1 :
  step w e = Ok w1 →
  ReplayAll (srv w1) = ReplayAll (srv w)
  ∧ BufferSize (srv w1) = BufferSize (srv w)
  ∧ (isClosed (srv w) = true → isClosed (srv w1) = true)
  ∧ cap (unregister (srv w1)) = cap (unregister (srv w))
  ∧ (unregister_bounded w → unregister_bounded w1).
Proof.
  intros Hstep. apply step_inv in Hstep.
  destruct e as [ch repo|chs ev|chs text| | |ch id|q|q| |g].
  - by destruct Hstep as [_ ->].
  - destruct Hstep as [_ Hk%run_pub_keeps]. by apply keeps_conf.
  - destruct Hstep as [_ Hk%run_pub_keeps]. by apply keeps_conf.
  - destruct Hstep as [_ Hk%run_quit_keeps]. by apply keeps_conf.
  - by subst w1.
  - destruct Hstep as [[_ ->]|(_ & _ & _ & Hr)]; [done|].
    apply run_subs_at_new in Hr as (_ & Hsrv & _). unfold unregister_bounded.
    by rewrite Hsrv.
  - destruct Hstep as (sq & Hq & [(_ & _ & ->)|(v & rest & _ & ->)]); [done|].
    unfold unregister_bounded. simpl. by rewrite srv_set_out.
  - destruct Hstep as (_ & Hopen & Hfull & ->).
    by apply keeps_conf, keeps_push_unregister.
  - destruct Hstep as (_ & sub & rest & ss & Hbuf & Hsub & Hr).
    destruct (run_unregister_spec
                (set_unregister (Chan rest (cap (unregister (srv w)))
                                      (closed (unregister (srv w)))) w) sub ss Hsub) as (w' & Hw' & _ & Hsrv & _).
    rewrite Hr in Hw'. injection Hw' as <-. unfold unregister_bounded.
    rewrite Hsrv. simpl.
    split; [done|]. split; [done|]. split; [done|]. split; [done|].
    intros [Hcl Hle]. split; [done|]. rewrite Hbuf in Hle. simpl in Hle. lia.
  - destruct Hstep as (q & ev & rest & sq & _ & _ & _ & _ & ->).
    unfold unregister_bounded. simpl. by rewrite srv_set_out.
Qed.

(** The heap grows by one empty queue of capacity [BufferSize] when a
    handler subscribes, and by nothing else; a replay task is added for that
    new subscription at most, and no task ever changes its subscription. *)
Lemma step_shape e w w1 :
  step w e = Ok w1 →
  (length (heap w1) = length (heap w) ∧ (replays w1).*1 = (replays w).*1)
  ∨ (isServerClosed w = false
     ∧ (∃ ch id, heap w1 = heap w ++
          [Subscription ch id (Chan [] (Z.to_nat (BufferSize (srv w))) false)])
     ∧ (replays w1 = replays w
        ∨ ∃ l, replays w1 = replays w ++ [(length (heap w), l)])).
Proof.
  intros Hstep. apply step_inv in Hstep.
  destruct e as [ch repo|chs ev|chs text| | |ch id|q|q| |g].
  - left. by destruct Hstep as [_ ->].
  - left. by destruct Hstep as [_ (_ & _ & _ & -> & _ & -> )%run_pub_same_maps].
  - left. by destruct Hstep as [_ (_ & _ & _ & -> & _ & -> )%run_pub_same_maps].
  - left. destruct Hstep as [_ Hq].
    destruct (run_quit_fields _ _ Hq) as (_ & _ & -> & _).
    by destruct (run_quit_keeps _ _ Hq) as (_ & _ & _ & _ & _ & -> & _).
  - left. by subst w1.
  - destruct Hstep as [[_ ->]|(Hopen & _ & _ & Hr)]; [by left|right].
    apply run_subs_at_new in Hr as (Hheap & _ & _ & _ & _ & _ & _ & Hrpl).
    split; [done|]. split; [by exists ch, id|done].
  - left. destruct Hstep as (sq & Hq & [(_ & _ & ->)|(v & rest & _ & ->)]); [done|].
    simpl. by destruct (same_maps_set_out q (Chan rest (cap (out sq)) (closed (out sq))) w)
      as (_ & _ & _ & -> & _ & ->).
  - left. by destruct Hstep as (_ & _ & _ & ->).
  - left. destruct Hstep as (_ & sub & rest & ss & _ & Hsub & Hr).
    destruct (run_unregister_spec
                (set_unregister (Chan rest (cap (unregister (srv w)))
                                      (closed (unregister (srv w)))) w) sub ss Hsub) as (w' & Hw' & Hheap & _ & _ & Hrpl & _).
    rewrite Hr in Hw'. injection Hw' as <-. by rewrite Hheap, Hrpl.
  - left. destruct Hstep as (q & ev & rest & sq & Hg & _ & _ & _ & ->). simpl.
    destruct (same_maps_set_out q
                (Chan (buf (out sq) ++ [IsEvent ev]) (cap (out sq)) false) w)
      as (_ & _ & _ & _ & _ & ->).
    split; [done|]. rewrite list_fmap_insert. simpl.
    apply list_insert_id. by rewrite list_lookup_fmap, Hg.
Qed.

(** Only [Register] changes the repositories; no key of [subs] is ever
    removed; and a set only gains the subscription that a handler has just
    made for its channel. *)
Lemma step_maps e w w1 :
  step w e = Ok w1 →
  repos w1 = match e with
             | Register ch repo => <[ch := repo]> (repos w)
             | _ => repos w
             end
  ∧ dom (subs w) ⊆ dom (subs w1)
  ∧ ∀ c q, q ∈ subs_at c w1 →
      q ∈ subs_at c w
      ∨ (q = length (heap w) ∧ isServerClosed w = false
         ∧ ∃ id, e = Handler_subs c id).
Proof.
  intros Hstep. apply step_inv in Hstep.
  destruct e as [ch repo|chs ev|chs text| | |ch id|q|q| |g].
  - destruct Hstep as [_ ->]. split; [done|]. split; [done|]. by left.
  - destruct Hstep as [_ (Hs & -> & _)%run_pub_same_maps].
    unfold subs_at. rewrite Hs. split; [done|]. split; [done|]. by left.
  - destruct Hstep as [_ (Hs & -> & _)%run_pub_same_maps].
    unfold subs_at. rewrite Hs. split; [done|]. split; [done|]. by left.
  - destruct Hstep as [_ (Hs & -> & _)%run_quit_fields].
    unfold subs_at. rewrite Hs. split; [done|]. split; [done|]. by left.
  - subst w1. split; [done|]. split; [done|]. by left.
  - destruct Hstep as [[_ ->]|(Hopen & _ & _ & Hr)].
    { split; [done|]. split; [done|]. by left. }
    apply run_subs_at_new in Hr as (_ & _ & Hrep & _ & _ & Hat & Hoth & _).
    split; [done|]. split.
    + intros c [X HX]%elem_of_dom. apply elem_of_dom.
      destruct (decide (c = ch)) as [->|Hne]; [|rewrite Hoth by done; by eexists].
      destruct (subs w1 !! ch) as [Y|] eqn:HY; [by eexists|].
      assert (length (heap w) ∈ subs_at ch w1) as Hin.
      { rewrite Hat. apply elem_of_union_r. by apply elem_of_singleton. }
      unfold subs_at in Hin. rewrite HY in Hin. by apply not_elem_of_empty in Hin.
    + intros c q Hq. destruct (decide (c = ch)) as [->|Hne].
      * rewrite Hat in Hq. apply elem_of_union in Hq as [?|Hq]; [by left|right].
        apply elem_of_singleton in Hq as ->. split; [done|]. split; [done|]. by exists id.
      * left. unfold subs_at in *. by rewrite Hoth in Hq.
  - destruct Hstep as (sq & Hq & [(_ & _ & ->)|(v & rest & _ & ->)]).
    { split; [done|]. split; [done|]. by left. }
    simpl. destruct (same_maps_set_out q (Chan rest (cap (out sq)) (closed (out sq))) w)
      as (Hs & -> & _).
    unfold subs_at. simpl. rewrite Hs. split; [done|]. split; [done|]. by left.
  - destruct Hstep as (_ & _ & _ & ->). split; [done|]. split; [done|]. by left.
  - destruct Hstep as (_ & sub & rest & ss & _ & Hsub & Hr).
    destruct (run_unregister_spec
                (set_unregister (Chan rest (cap (unregister (srv w)))
                                      (closed (unregister (srv w)))) w) sub ss Hsub)
      as (w' & Hw' & _ & _ & Hrep & _ & _ & _ & Hat & Hoth & Hdom).
    rewrite Hr in Hw'. injection Hw' as <-. split; [done|].
    split; [by rewrite Hdom|]. intros c q Hq. left.
    destruct (decide (c = channel ss)) as [->|Hne].
    + rewrite Hat in Hq. by apply elem_of_difference in Hq as [? _].
    + unfold subs_at in *. by rewrite Hoth in Hq.
  - destruct Hstep as (q & ev & rest & sq & _ & _ & _ & _ & ->). simpl.
    destruct (same_maps_set_out q
                (Chan (buf (out sq) ++ [IsEvent ev]) (cap (out sq)) false) w)
      as (Hs & -> & _).
    unfold subs_at. simpl. rewrite Hs. split; [done|]. split; [done|]. by left.
Qed.

End StepFacts.

Section Entries.
Context {RO : RangeOrder}.

Lemma keeps_entry w w1 p s :
  keeps w w1 → received w1 = received w → heap w !! p = Some s →
  ∃ s1, heap w1 !! p = Some s1
        ∧ cap (out s1) = cap (out s)
        ∧ (length (buf (out s)) ≤ cap (out s) →
           length (buf (out s1)) ≤ cap (out s1))
        ∧ (closed (out s) = true →
           closed (out s1) = true
           ∧ received_by p w1 ++ buf (out s1) = received_by p w ++ buf (out s)).
Proof.
  intros (_ & _ & _ & _ & _ & _ & Hk) Hrcv Hp.
  destruct (Hk p s Hp) as (s1 & Hp1 & Hcap & Hle & Hcl).
  exists s1. split; [done|]. split; [done|]. split; [done|].
  intros Hc. rewrite (Hcl Hc). split; [done|]. by rewrite (received_by_same p w w1).
Qed.

Lemma same_entry w w1 p s :
  heap w1 !! p = Some s → received w1 = received w →
  ∃ s1, heap w1 !! p = Some s1
        ∧ cap (out s1) = cap (out s)
        ∧ (length (buf (out s)) ≤ cap (out s) →
           length (buf (out s1)) ≤ cap (out s1))
        ∧ (closed (out s) = true →
           closed (out s1) = true
           ∧ received_by p w1 ++ buf (out s1) = received_by p w ++ buf (out s)).
Proof.
  intros Hp Hrcv. exists s. split; [done|]. split; [done|]. split; [done|].
  intros Hc. split; [done|]. by rewrite (received_by_same p w w1).
Qed.

(** One step and one queue: the capacity stays, the queue stays within it,
    and a closed queue keeps what it holds but for what its handler reads. *)
Lemma step_entry e w w1 p s :
  step w e = Ok w1 → heap w !! p = Some s →
  ∃ s1, heap w1 !! p = Some s1
        ∧ cap (out s1) = cap (out s)
        ∧ (length (buf (out s)) ≤ cap (out s) →
           length (buf (out s1)) ≤ cap (out s1))
        ∧ (closed (out s) = true →
           closed (out s1) = true
           ∧ received_by p w1 ++ buf (out s1) = received_by p w ++ buf (out s)).
Proof.
  intros Hstep Hp. pose proof Hstep as Hinv. apply step_inv in Hinv.
  destruct e as [ch repo|chs ev|chs text| | |ch id|q|q| |g].
  - destruct Hinv as [_ ->]. by apply same_entry.
  - destruct Hinv as [_ Hr]. apply keeps_entry; [by eapply run_pub_keeps| |done].
    by destruct (run_pub_same_maps _ _ _ Hr) as (_ & _ & _ & _ & -> & _).
  - destruct Hinv as [_ Hr]. apply keeps_entry; [by eapply run_pub_keeps| |done].
    by destruct (run_pub_same_maps _ _ _ Hr) as (_ & _ & _ & _ & -> & _).
  - destruct Hinv as [_ Hr]. apply keeps_entry; [by eapply run_quit_keeps| |done].
    by destruct (run_quit_fields _ _ Hr) as (_ & _ & _ & -> & _).
  - subst w1. by apply same_entry.
  - destruct Hinv as [[_ ->]|(_ & _ & _ & Hr)]; [by apply same_entry|].
    apply run_subs_at_new in Hr as (Hheap & _ & _ & Hrcv & _).
    apply same_entry; [|done]. rewrite Hheap. by apply lookup_app_l_Some.
  - change (step w (Handler_out q)) with (Handler_receive q w) in Hstep.
    destruct (Handler_receive_spec q w w1 p s Hstep Hp)
      as (_ & s1 & Hp1 & Hcl & Hcap & HX).
    exists s1. split; [done|]. split; [done|]. split; [|by rewrite Hcl].
    destruct Hinv as (sq & Hq & [(_ & _ & ->)|(v & rest & Hbuf & ->)]).
    { rewrite Hp in Hp1. by injection Hp1 as <-. }
    simpl in Hp1. destruct (decide (q = p)) as [->|Hne].
    + rewrite (heap_set_out_eq _ _ _ _ Hq) in Hp1. injection Hp1 as <-.
      rewrite Hp in Hq. injection Hq as <-. simpl. rewrite Hbuf. simpl. lia.
    + rewrite heap_set_out_ne in Hp1 by done. rewrite Hp in Hp1.
      by injection Hp1 as <-.
  - destruct Hinv as (_ & Hopen & Hfull & ->).
    apply keeps_entry; [by apply keeps_push_unregister|done|done].
  - destruct Hinv as (_ & sub & rest & ss & _ & Hsub & Hr).
    destruct (run_unregister_spec
                (set_unregister (Chan rest (cap (unregister (srv w)))
                                      (closed (unregister (srv w)))) w) sub ss Hsub)
      as (w' & Hw' & Hheap & _ & _ & _ & Hrcv & _).
    rewrite Hr in Hw'. injection Hw' as <-.
    apply same_entry; [by rewrite Hheap|by rewrite Hrcv].
  - destruct Hinv as (q & ev & rest & sq & _ & Hq & Hopen & Hfull & ->).
    apply keeps_entry; [|simpl|done].
    2: { by destruct (same_maps_set_out q
              (Chan (buf (out sq) ++ [IsEvent ev]) (cap (out sq)) false) w)
           as (_ & _ & _ & _ & -> & _). }
    change (keeps w (set_out q (Chan (buf (out sq) ++ [IsEvent ev])
                                    (cap (out sq)) false) w)).
    apply (keeps_set_out _ _ _ sq); [done|done|done|].
    intros _. simpl. rewrite length_app. simpl.
    apply full_false in Hfull. lia.
Qed.

Lemma exec_conf es :
  ∀ w w', exec w es = Ok w' →
  ReplayAll (srv w') = ReplayAll (srv w)
  ∧ BufferSize (srv w') = BufferSize (srv w)
  ∧ (isClosed (srv w) = true → isClosed (srv w') = true)
  ∧ cap (unregister (srv w')) = cap (unregister (srv w))
  ∧ (unregister_bounded w → unregister_bounded w').
Proof.
  induction es as [|e es IH]; intros w w' Hex.
  { injection Hex as <-. done. }
  simpl in Hex. destruct (step w e) as [w1| |] eqn:Hstep; try done.
  simpl in Hex.
  destruct (step_conf _ _ _ Hstep) as (H1 & H2 & H3 & H4 & H5).
  destruct (IH _ _ Hex) as (G1 & G2 & G3 & G4 & G5).
  split; [congruence|]. split; [congruence|]. split; [by auto|].
  split; [congruence|by auto].
Qed.

Lemma step_queues_bounded e w w1 :
  step w e = Ok w1 → queues_bounded w → queues_bounded w1.
Proof.
  intros Hstep Hqb p s1 Hp1.
  destruct (step_conf _ _ _ Hstep) as (_ & -> & _).
  destruct (heap w !! p) as [s|] eqn:Hp.
  - destruct (step_entry _ _ _ _ _ Hstep Hp) as (s1' & Hp1' & Hcap & Hle & _).
    rewrite Hp1 in Hp1'. injection Hp1' as <-.
    destruct (Hqb p s Hp) as [Hc Hb]. rewrite Hcap. split; [done|].
    specialize (Hle Hb). by rewrite Hcap in Hle.
  - destruct (step_shape _ _ _ Hstep) as [[Hlen _]|(_ & (ch & id & Hheap) & _)].
    + apply lookup_ge_None in Hp. rewrite <- Hlen in Hp.
      apply lookup_ge_None in Hp. by rewrite Hp in Hp1.
    + rewrite Hheap in Hp1. apply lookup_ge_None in Hp.
      rewrite lookup_app_r in Hp1 by done.
      destruct (p - length (heap w)) as [|n]; [|done].
      simpl in Hp1. injection Hp1 as <-. simpl. split; [done|lia].
Qed.

End Entries.

(** ** Bounds that hold in every schedule *)

Section Bounds.
Context {RO : RangeOrder}.

(** X11.  From a server on which no handler has subscribed yet, in any
    schedule: every subscription queue was made with the capacity
    [srv.BufferSize], and never holds more items than that, so that a client
    is at most [BufferSize] items behind. *)
Theorem queues_stay_within_BufferSize w0 es w :
  heap w0 = [] → exec w0 es = Ok w →
  ∀ p s, heap w !! p = Some s →
    cap (out s) = Z.to_nat (BufferSize (srv w0))
    ∧ length (buf (out s)) ≤ Z.to_nat (BufferSize (srv w0)).
Proof.
  intros Hempty Hex.
  assert (queues_bounded w0) as Hqb.
  { intros p s Hp. by rewrite Hempty in Hp. }
  clear Hempty.
  assert (queues_bounded w ∧ BufferSize (srv w) = BufferSize (srv w0)) as [Hq HB].
  { revert w0 Hex Hqb. induction es as [|e es IH]; intros w0 Hex Hqb.
    { by injection Hex as <-. }
    simpl in Hex. destruct (step w0 e) as [w1| |] eqn:Hstep; try done.
    simpl in Hex.
    destruct (IH w1 Hex (step_queues_bounded _ _ _ Hstep Hqb)) as [? ->].
    split; [done|]. by destruct (step_conf _ _ _ Hstep) as (_ & -> & _). }
  intros p s Hp. destruct (Hq p s Hp) as [Hc Hb]. rewrite <- HB.
  split; [done|]. by rewrite <- Hc.
Qed.

(** X12.  Nothing closes [srv.unregister]: in any schedule it stays open,
    keeps its capacity and never holds more pending requests than that. *)
Theorem unregister_stays_open_and_bounded w es w' :
  closed (unregister (srv w)) = false →
  length (buf (unregister (srv w))) ≤ cap (unregister (srv w)) →
  exec w es = Ok w' →
  closed (unregister (srv w')) = false
  ∧ cap (unregister (srv w')) = cap (unregister (srv w))
  ∧ length (buf (unregister (srv w'))) ≤ cap (unregister (srv w)).
Proof.
  intros Hopen Hle Hex.
  destruct (exec_conf _ _ _ Hex) as (_ & _ & _ & Hcap & Hub).
  destruct (Hub (conj Hopen Hle)) as [Hopen' Hle'].
  split; [done|]. split; [done|]. by rewrite <- Hcap.
Qed.

End Bounds.

(** ** A subscription that is in no set *)

Section Absent.
Context {RO : RangeOrder}.

Lemma range_fanout_absent it p l :
  p ∉ l → ∀ w w', range (fanout it) l w = Ok w' → heap w' !! p = heap w !! p.
Proof.
  induction l as [|x l IH]; intros Hp w w' Hr.
  { by injection Hr as <-. }
  simpl in Hr. destruct (fanout it x w) as [w1| |] eqn:Hf; try done.
  simpl in Hr. apply not_elem_of_cons in Hp as [Hne Hp].
  rewrite (IH Hp _ _ Hr). by eapply fanout_other.
Qed.

Lemma run_pub_absent it p chs :
  ∀ w w', (∀ c, p ∉ subs_at c w) →
          run_pub {| channels := chs; item := it |} w = Ok w' →
          heap w' !! p = heap w !! p.
Proof.
  unfold run_pub. simpl.
  induction chs as [|c chs IH]; intros w w' Hp Hr.
  { by injection Hr as <-. }
  simpl in Hr.
  destruct (range (fanout it) (range_set w (subs_at c w)) w) as [w1| |] eqn:Hc;
    try done.
  simpl in Hr.
  assert (subs w1 = subs w) as Hs.
  { by destruct (range_same_maps _ _ (fanout_same_maps it) _ _ Hc) as (-> & _). }
  rewrite (IH w1 w'); [| |done].
  - eapply range_fanout_absent; [|done]. rewrite elem_of_range_set. apply Hp.
  - intros c'. unfold subs_at. rewrite Hs. apply Hp.
Qed.

Lemma range_close_out_absent p l :
  p ∉ l → ∀ w w', range close_out l w = Ok w' → heap w' !! p = heap w !! p.
Proof.
  induction l as [|x l IH]; intros Hp w w' Hr.
  { by injection Hr as <-. }
  simpl in Hr. destruct (close_out x w) as [w1| |] eqn:Hf; try done.
  simpl in Hr. apply not_elem_of_cons in Hp as [Hne Hp].
  rewrite (IH Hp _ _ Hr).
  unfold close_out, deref in Hf.
  destruct (heap w !! x) as [sx|] eqn:Hx; simpl in Hf; [|done].
  destruct (close (out sx)) as [c| |]; simpl in Hf; try done.
  injection Hf as <-. by rewrite heap_set_out_ne.
Qed.

Lemma range_map_close_absent p (l : list (string * gset ptr)) :
  (∀ kv, kv ∈ l → p ∉ kv.2) →
  ∀ w w', range (λ kv w', range close_out (range_set w' kv.2) w') l w = Ok w' →
          heap w' !! p = heap w !! p.
Proof.
  induction l as [|kv l IH]; intros Hall w w' Hr.
  { by injection Hr as <-. }
  simpl in Hr.
  destruct (range close_out (range_set w kv.2) w) as [w2| |] eqn:Hc; try done.
  simpl in Hr. rewrite (IH (λ kv' Hin, Hall kv' (list_elem_of_further _ _ _ Hin)) w2 w' Hr).
  eapply range_close_out_absent; [|done]. rewrite elem_of_range_set.
  apply Hall. by left.
Qed.

Lemma run_quit_absent p w w' :
  (∀ c, p ∉ subs_at c w) → run_quit w = Ok w' → heap w' !! p = heap w !! p.
Proof.
  intros Hp Hq. unfold run_quit in Hq.
  destruct (range (λ kv w', range close_out (range_set w' kv.2) w')
              (range_map w (subs w)) w) as [w1| |] eqn:Hr; try done.
  simpl in Hq. injection Hq as <-. simpl.
  eapply range_map_close_absent; [|done].
  intros [c X]. rewrite range_map_perm. intros HX%elem_of_map_to_list.
  specialize (Hp c). unfold subs_at in Hp. by rewrite HX in Hp.
Qed.

(** One step and a subscription that is in no set and has no replay left:
    its queue changes only by what its handler reads. *)
Lemma step_absent e w w1 p s :
  step w e = Ok w1 → heap w !! p = Some s →
  (∀ c, p ∉ subs_at c w) → replay_done p w →
  ∃ s1, heap w1 !! p = Some s1
        ∧ closed (out s1) = closed (out s)
        ∧ received_by p w1 ++ buf (out s1) = received_by p w ++ buf (out s).
Proof.
  intros Hstep Hp Hout Hdone.
  assert (∀ w2, heap w2 !! p = Some s → received w2 = received w →
            ∃ s1, heap w2 !! p = Some s1
                  ∧ closed (out s1) = closed (out s)
                  ∧ received_by p w2 ++ buf (out s1) = received_by p w ++ buf (out s))
    as Hsame.
  { intros w2 Hp2 Hrcv. exists s. split; [done|]. split; [done|].
    by rewrite (received_by_same p w w2). }
  pose proof Hstep as Hinv. apply step_inv in Hinv.
  destruct e as [ch repo|chs ev|chs text| | |ch id|q|q| |g].
  - destruct Hinv as [_ ->]. by apply Hsame.
  - destruct Hinv as [_ Hr]. apply Hsame.
    + by rewrite (run_pub_absent _ _ _ _ _ Hout Hr).
    + by destruct (run_pub_same_maps _ _ _ Hr) as (_ & _ & _ & _ & -> & _).
  - destruct Hinv as [_ Hr]. apply Hsame.
    + by rewrite (run_pub_absent _ _ _ _ _ Hout Hr).
    + by destruct (run_pub_same_maps _ _ _ Hr) as (_ & _ & _ & _ & -> & _).
  - destruct Hinv as [_ Hr]. apply Hsame.
    + by rewrite (run_quit_absent _ _ _ Hout Hr).
    + by destruct (run_quit_fields _ _ Hr) as (_ & _ & _ & -> & _).
  - subst w1. by apply Hsame.
  - destruct Hinv as [[_ ->]|(_ & _ & _ & Hr)]; [by apply Hsame|].
    apply run_subs_at_new in Hr as (Hheap & _ & _ & Hrcv & _).
    apply Hsame; [|done]. rewrite Hheap. by apply lookup_app_l_Some.
  - change (step w (Handler_out q)) with (Handler_receive q w) in Hstep.
    destruct (Handler_receive_spec q w w1 p s Hstep Hp)
      as (_ & s1 & Hp1 & Hcl & _ & HX).
    by exists s1.
  - destruct Hinv as (_ & _ & _ & ->). by apply Hsame.
  - destruct Hinv as (_ & sub & rest & ss & _ & Hsub & Hr).
    destruct (run_unregister_spec
                (set_unregister (Chan rest (cap (unregister (srv w)))
                                      (closed (unregister (srv w)))) w) sub ss Hsub)
      as (w' & Hw' & Hheap & _ & _ & _ & Hrcv & _).
    rewrite Hr in Hw'. injection Hw' as <-.
    apply Hsame; [by rewrite Hheap|by rewrite Hrcv].
  - destruct Hinv as (q & ev & rest & sq & Hg & Hq & _ & _ & ->).
    destruct (decide (q = p)) as [->|Hne]; [by specialize (Hdone _ _ Hg)|].
    apply Hsame.
    + simpl. by rewrite heap_set_out_ne.
    + simpl. by destruct (same_maps_set_out q
              (Chan (buf (out sq) ++ [IsEvent ev]) (cap (out sq)) false) w)
           as (_ & _ & _ & _ & -> & _).
Qed.

(** X7.  A subscription that is out of the set of its channel and has no
    replay left gets nothing more and is never closed: in any schedule, its
    queue is open or closed as before, and what its handler has read followed
    by what it holds does not change. *)
Theorem unregistered_subscription_gets_nothing_more es :
  ∀ w w' p s,
  wf w → heap w !! p = Some s →
  p ∉ subs_at (channel s) w → replay_done p w →
  exec w es = Ok w' →
  ∃ s', heap w' !! p = Some s'
        ∧ closed (out s') = closed (out s)
        ∧ received_by p w' ++ buf (out s') = received_by p w ++ buf (out s).
Proof.
  induction es as [|e es IH]; intros w w' p s Hwf Hp Hout Hdone Hex.
  { injection Hex as <-. by exists s. }
  simpl in Hex. destruct (step w e) as [w1| |] eqn:Hstep; try done.
  simpl in Hex.
  assert (∀ c, p ∉ subs_at c w) as Hnone.
  { intros c Hin. destruct (Hwf c p Hin) as (s0 & Hs0 & <-).
    rewrite Hp in Hs0. by injection Hs0 as <-. }
  destruct (step_absent _ _ _ _ _ Hstep Hp Hnone Hdone) as (s1 & Hp1 & Hcl & HX).
  destruct (step_follows _ _ _ _ _ Hstep Hwf Hp)
    as (s1' & Hp1' & Hwf1 & Hdone1 & Hch & Hback & _).
  rewrite Hp1 in Hp1'. injection Hp1' as <-.
  destruct (IH w1 w' p s1 Hwf1 Hp1) as (s' & Hp' & Hcl' & HX'); [|by auto|done|].
  { rewrite Hch. intros Hin. by apply Hout, Hback. }
  exists s'. split; [done|]. split; congruence.
Qed.

End Absent.

(** ** After [markServerClosed] *)

Section Closed.
Context {RO : RangeOrder}.

(** X3.  Once the server is marked closed it stays so, and a handler stops
    at its closed check: in any schedule no subscription is made, no replay
    is started, and no set gains a member. *)
Theorem closed_server_takes_no_subscription es :
  ∀ w w',
  isServerClosed w = true → exec w es = Ok w' →
  isServerClosed w' = true
  ∧ length (heap w') = length (heap w)
  ∧ (replays w').*1 = (replays w).*1
  ∧ ∀ c, subs_at c w' ⊆ subs_at c w.
Proof.
  induction es as [|e es IH]; intros w w' Hcl Hex.
  { injection Hex as <-. done. }
  simpl in Hex. destruct (step w e) as [w1| |] eqn:Hstep; try done.
  simpl in Hex.
  destruct (step_conf _ _ _ Hstep) as (_ & _ & Hcl1 & _).
  destruct (IH w1 w' (Hcl1 Hcl) Hex) as (Hc' & Hlen & Hrpl & Hsub).
  destruct (step_shape _ _ _ Hstep) as [[Hlen1 Hrpl1]|(Hopen & _)];
    [|unfold isServerClosed in *; congruence].
  destruct (step_maps _ _ _ Hstep) as (_ & _ & Hin).
  split; [done|]. split; [congruence|]. split; [congruence|].
  intros c q Hq. apply Hsub in Hq. destruct (Hin c q Hq) as [?|(_ & Hopen & _)];
    [done|unfold isServerClosed in *; congruence].
Qed.

End Closed.

(** ** Repositories and replay tasks *)

Section Registrations.
Context {RO : RangeOrder}.

Lemma exec_app es1 : ∀ es2 w w',
  exec w (es1 ++ es2) = Ok w' →
  ∃ w1, exec w es1 = Ok w1 ∧ exec w1 es2 = Ok w'.
Proof.
  induction es1 as [|e es1 IH]; intros es2 w w' Hex.
  { by exists w. }
  simpl in Hex. destruct (step w e) as [w1| |] eqn:Hstep; try done.
  simpl in Hex. destruct (IH _ _ _ Hex) as (w2 & H1 & H2).
  exists w2. simpl. by rewrite Hstep.
Qed.

Lemma repos_kept c es :
  ∀ w w', Forall (λ e, ¬ registers c e) es → exec w es = Ok w' →
          repos w' !! c = repos w !! c.
Proof.
  induction es as [|e es IH]; intros w w' Hno Hex.
  { by injection Hex as <-. }
  simpl in Hex. destruct (step w e) as [w1| |] eqn:Hstep; try done.
  simpl in Hex. apply Forall_cons in Hno as [Hne Hno].
  rewrite (IH _ _ Hno Hex).
  destruct (step_maps _ _ _ Hstep) as (-> & _).
  destruct e; try done. simpl in Hne. by rewrite lookup_insert_ne.
Qed.

(** X14.  The repository of a channel is the one of the last [Register] for
    that channel that [run] has taken, whatever else happens in between and
    after. *)
Theorem last_registration_wins c repo es1 es2 w w' :
  Forall (λ e, ¬ registers c e) es2 →
  exec w (es1 ++ Register c repo :: es2) = Ok w' →
  repos w' !! c = Some repo.
Proof.
  intros Hno Hex. apply exec_app in Hex as (w1 & _ & Hex).
  assert (∃ w2, step w1 (Register c repo) = Ok w2 ∧ exec w2 es2 = Ok w')
    as (w2 & Hstep & Hex2).
  { change (exec w1 (Register c repo :: es2))
      with (step w1 (Register c repo) ≫= (λ w', exec w' es2)) in Hex.
    destruct (step w1 (Register c repo)) as [w2| |]; try done. by exists w2. }
  rewrite (repos_kept c _ _ _ Hno Hex2).
  destruct (step_maps _ _ _ Hstep) as (-> & _). by rewrite lookup_insert_eq.
Qed.

(** X15.  [run] removes subscriptions from the set of a channel and never
    the set itself: a channel that has an entry in [subs] keeps it in any
    schedule, also when its last subscriber is gone. *)
Theorem channel_sets_are_never_dropped es :
  ∀ w w' c, is_Some (subs w !! c) → exec w es = Ok w' → is_Some (subs w' !! c).
Proof.
  induction es as [|e es IH]; intros w w' c Hc Hex.
  { by injection Hex as <-. }
  simpl in Hex. destruct (step w e) as [w1| |] eqn:Hstep; try done.
  simpl in Hex. apply (IH w1); [|done].
  destruct (step_maps _ _ _ Hstep) as (_ & Hdom & _).
  apply elem_of_dom, Hdom, elem_of_dom, Hc.
Qed.

Lemma step_one_task_each e w w1 :
  step w e = Ok w1 → one_task_each w →
  one_task_each w1
  ∧ length (heap w) ≤ length (heap w1)
  ∧ ∀ p, p < length (heap w) → p ∈ (replays w1).*1 → p ∈ (replays w).*1.
Proof.
  intros Hstep [Hnd Hlt].
  destruct (step_shape _ _ _ Hstep)
    as [[Hlen Hrpl]|(_ & (ch & id & Hheap) & [Hrpl|[l Hrpl]])].
  - unfold one_task_each. rewrite Hrpl, Hlen. split; [done|]. split; [lia|done].
  - unfold one_task_each. rewrite Hrpl, Hheap, length_app. simpl.
    split; [|split; [lia|done]]. split; [done|].
    intros q Hq. specialize (Hlt q Hq). lia.
  - unfold one_task_each. rewrite Hrpl, Hheap, length_app, fmap_app. simpl.
    split; [split|split; [lia|]].
    + apply NoDup_app. split; [done|]. split; [|apply NoDup_singleton].
      intros q Hq Hq2. apply list_elem_of_singleton in Hq2 as ->.
      specialize (Hlt _ Hq). lia.
    + intros q [Hq|Hq]%elem_of_app.
      * specialize (Hlt q Hq). lia.
      * apply list_elem_of_singleton in Hq as ->. lia.
    + intros p Hp [Hq|Hq]%elem_of_app; [done|].
      apply list_elem_of_singleton in Hq as ->. lia.
Qed.

(** X16.  A replay is started when [run] takes the subscription from
    [srv.subs] and at no other time: in any schedule there is one replay per
    subscription at most, and a subscription that is there already gets no
    replay later, also not by a [Register] for its channel. *)
Theorem replay_is_started_at_most_once es :
  ∀ w w',
  NoDup (replays w).*1 →
  (∀ q, q ∈ (replays w).*1 → q < length (heap w)) →
  exec w es = Ok w' →
  NoDup (replays w').*1
  ∧ ∀ p, p < length (heap w) → p ∈ (replays w').*1 → p ∈ (replays w).*1.
Proof.
  induction es as [|e es IH]; intros w w' Hnd Hlt Hex.
  { injection Hex as <-. done. }
  simpl in Hex. destruct (step w e) as [w1| |] eqn:Hstep; try done.
  simpl in Hex.
  destruct (step_one_task_each _ _ _ Hstep (conj Hnd Hlt)) as ([Hnd1 Hlt1] & Hle & Hold).
  destruct (IH w1 w' Hnd1 Hlt1 Hex) as [Hnd' Hold'].
  split; [done|]. intros p Hp Hin. apply Hold; [done|]. apply Hold'; [lia|done].
Qed.

End Registrations.

(** ** After [run] has returned *)

Section Returned.
Context {RO : RangeOrder}.

Lemma step_after_return e w w1 :
  running w = false → step w e = Ok w1 →
  running w1 = false
  ∧ closed (unregister (srv w1)) = closed (unregister (srv w))
  ∧ cap (unregister (srv w1)) = cap (unregister (srv w))
  ∧ length (buf (unregister (srv w))) ≤ length (buf (unregister (srv w1))).
Proof.
  intros Hrun Hstep.
  destruct (after_run_returns _ _ _ Hrun Hstep) as (_ & _ & Hrun1).
  split; [done|]. apply step_inv in Hstep.
  destruct e as [ch repo|chs ev|chs text| | |ch id|q|q| |g].
  - destruct Hstep as [? _]. congruence.
  - destruct Hstep as [? _]. congruence.
  - destruct Hstep as [? _]. congruence.
  - destruct Hstep as [? _]. congruence.
  - by subst w1.
  - destruct Hstep as [[_ ->]|(_ & ? & _)]; [done|congruence].
  - destruct Hstep as (sq & Hq & [(_ & _ & ->)|(v & rest & _ & ->)]); [done|].
    simpl. by rewrite srv_set_out.
  - destruct Hstep as (_ & Hopen & _ & ->). simpl.
    split; [done|]. split; [done|]. rewrite length_app. lia.
  - destruct Hstep as [? _]. congruence.
  - destruct Hstep as (q & ev & rest & sq & _ & _ & _ & _ & ->).
    simpl. by rewrite srv_set_out.
Qed.

(** X4.  After [run] has returned nobody receives on [srv.unregister]: once
    its buffer is full, in any schedule every handler that goes to
    unregister stays parked on that send. *)
Theorem handlers_park_on_full_unregister_after_close es :
  ∀ w w',
  running w = false →
  closed (unregister (srv w)) = false →
  full (unregister (srv w)) = true →
  exec w es = Ok w' →
  ∀ q, step w' (Handler_unregister q) = Blocked.
Proof.
  induction es as [|e es IH]; intros w w' Hrun Hopen Hfull Hex.
  - injection Hex as <-. intros q. simpl. unfold Handler_sub, send.
    destruct (heap w !! q); [|done]. simpl. by rewrite Hopen, Hfull.
  - simpl in Hex. destruct (step w e) as [w1| |] eqn:Hstep; try done.
    simpl in Hex.
    destruct (step_after_return _ _ _ Hrun Hstep) as (Hrun1 & Hcl & Hcap & Hle).
    apply (IH w1); [done|congruence| |done].
    apply full_true. apply full_true in Hfull. lia.
Qed.

End Returned.

(** ** The requests in [srv.unregister] *)

Section Requests.
Context {RO : RangeOrder}.

Lemma allocs_refl w : allocs w w.
Proof. by split. Qed.

Lemma allocs_trans w1 w2 w3 : allocs w1 w2 → allocs w2 w3 → allocs w1 w3.
Proof. intros [H1 H2] [H3 H4]. split; [congruence|by auto]. Qed.

Lemma allocs_set_out p c w : allocs w (set_out p c w).
Proof.
  destruct (same_maps_set_out p c w) as (_ & _ & _ & _ & _ & Hlen).
  split; [done|]. unfold unregister_allocated. by rewrite srv_set_out, Hlen.
Qed.

Lemma allocs_push q w :
  is_Some (heap w !! q) →
  allocs w (set_unregister (Chan (buf (unregister (srv w)) ++ [q])
                                 (cap (unregister (srv w))) false) w).
Proof.
  intros Hq%lookup_lt_is_Some. split; [done|].
  intros Hall p [Hp|Hp]%elem_of_app; [by apply Hall|].
  by apply list_elem_of_singleton in Hp as ->.
Qed.

Lemma fanout_allocs it x w w1 : fanout it x w = Ok w1 → allocs w w1.
Proof.
  intros Hf. destruct (heap w !! x) as [sub|] eqn:Hx;
    [|unfold fanout, deref in Hf; by rewrite Hx in Hf].
  rewrite (fanout_unfold _ _ _ _ Hx) in Hf.
  destruct (closed (out sub)); [done|].
  destruct (full (out sub)).
  - destruct (closed (unregister (srv w))); [done|].
    destruct (full (unregister (srv w))); [done|].
    injection Hf as <-.
    eapply allocs_trans; [by apply (allocs_push x)|apply allocs_set_out].
  - injection Hf as <-. apply allocs_set_out.
Qed.

Lemma close_out_allocs x w w1 : close_out x w = Ok w1 → allocs w w1.
Proof.
  intros Hc. destruct (heap w !! x) as [sub|] eqn:Hx;
    [|unfold close_out, deref in Hc; by rewrite Hx in Hc].
  rewrite (close_out_unfold _ _ _ Hx) in Hc.
  destruct (closed (out sub)); [done|]. injection Hc as <-.
  apply allocs_set_out.
Qed.

Lemma run_pub_allocs pub w w1 : run_pub pub w = Ok w1 → allocs w w1.
Proof.
  unfold run_pub. apply (range_rel allocs); [apply allocs_refl|apply allocs_trans|].
  intros c w0 w2.
  apply (range_rel allocs); [apply allocs_refl|apply allocs_trans|].
  intros x. apply fanout_allocs.
Qed.

Lemma run_quit_allocs w w1 : run_quit w = Ok w1 → allocs w w1.
Proof.
  unfold run_quit. intros Hq.
  destruct (range _ (range_map w (subs w)) w) as [w0| |] eqn:E;
    simpl in Hq; [|done|done].
  injection Hq as <-.
  assert (allocs w w0) as Hk; [|exact Hk].
  revert E. apply (range_rel allocs); [apply allocs_refl|apply allocs_trans|].
  intros kv w2 w3.
  apply (range_rel allocs); [apply allocs_refl|apply allocs_trans|].
  intros x. apply close_out_allocs.
Qed.

Lemma step_unregister_allocated e w w1 :
  step w e = Ok w1 → unregister_allocated w → unregister_allocated w1.
Proof.
  intros Hstep Hall. apply step_inv in Hstep.
  destruct e as [ch repo|chs ev|chs text| | |ch id|q|q| |g].
  - by destruct Hstep as [_ ->].
  - destruct Hstep as [_ [_ Hk]%run_pub_allocs]. by apply Hk.
  - destruct Hstep as [_ [_ Hk]%run_pub_allocs]. by apply Hk.
  - destruct Hstep as [_ [_ Hk]%run_quit_allocs]. by apply Hk.
  - by subst w1.
  - destruct Hstep as [[_ ->]|(_ & _ & _ & Hr)]; [done|].
    apply run_subs_at_new in Hr as (Hheap & Hsrv & _).
    intros p Hp. rewrite Hsrv in Hp. rewrite Hheap, length_app.
    specialize (Hall p Hp). lia.
  - destruct Hstep as (sq & Hq & [(_ & _ & ->)|(v & rest & _ & ->)]); [done|].
    by apply (allocs_set_out q (Chan rest (cap (out sq)) (closed (out sq))) w).
  - destruct Hstep as (Hq & _ & _ & ->). by apply (allocs_push q w Hq).
  - destruct Hstep as (_ & sub & rest & ss & Hbuf & Hsub & Hr).
    destruct (run_unregister_spec
                (set_unregister (Chan rest (cap (unregister (srv w)))
                                      (closed (unregister (srv w)))) w) sub ss Hsub)
      as (w' & Hw' & Hheap & Hsrv & _).
    rewrite Hr in Hw'. injection Hw' as <-.
    intros p Hp. rewrite Hsrv in Hp. rewrite Hheap. simpl in *.
    apply Hall. rewrite Hbuf. by apply list_elem_of_further.
  - destruct Hstep as (q & ev & rest & sq & _ & _ & _ & _ & ->).
    by apply (allocs_set_out q
                (Chan (buf (out sq) ++ [IsEvent ev]) (cap (out sq)) false) w).
Qed.

Lemma exec_unregister_allocated es :
  ∀ w w', exec w es = Ok w' → unregister_allocated w → unregister_allocated w'.
Proof.
  induction es as [|e es IH]; intros w w' Hex Hall.
  { by injection Hex as <-. }
  simpl in Hex. destruct (step w e) as [w1| |] eqn:Hstep; try done.
  simpl in Hex. apply (IH w1 w' Hex). by eapply step_unregister_allocated.
Qed.

(** X18.  The unregister case of [run] cannot fail: in any schedule, every
    request that waits in [srv.unregister] is for a subscription that was
    made and the channel is open, so that [run] takes the oldest request and
    goes on, and waits when there is none. *)
Theorem unregister_case_never_fails w es w' :
  closed (unregister (srv w)) = false →
  length (buf (unregister (srv w))) ≤ cap (unregister (srv w)) →
  (∀ q, q ∈ buf (unregister (srv w)) → q < length (heap w)) →
  exec w es = Ok w' →
  running w' = true →
  match buf (unregister (srv w')) with
  | [] => step w' Run_unregister = Blocked
  | sub :: rest =>
      ∃ w'' ss, heap w' !! sub = Some ss
                ∧ step w' Run_unregister = Ok w''
                ∧ buf (unregister (srv w'')) = rest
                ∧ sub ∉ subs_at (channel ss) w''
  end.
Proof.
  intros Hopen Hle Hall Hex Hrun.
  destruct (exec_conf _ _ _ Hex) as (_ & _ & _ & _ & Hub).
  destruct (Hub (conj Hopen Hle)) as [Hopen' _].
  pose proof (exec_unregister_allocated _ _ _ Hex Hall) as Hall'.
  simpl. unfold in_run, recv. rewrite Hrun.
  destruct (buf (unregister (srv w'))) as [|sub rest] eqn:Hbuf.
  { by rewrite Hopen'. }
  simpl.
  destruct (heap w' !! sub) as [ss|] eqn:Hsub.
  2: { apply lookup_ge_None in Hsub. specialize (Hall' sub).
       rewrite Hbuf in Hall'. specialize (Hall' (list_elem_of_here _ _)). lia. }
  destruct (run_unregister_spec
              (set_unregister (Chan rest (cap (unregister (srv w')))
                                    (closed (unregister (srv w')))) w') sub ss Hsub)
    as (w'' & Hw'' & _ & Hsrv & _ & _ & _ & _ & Hat & _).
  exists w'', ss. split; [done|]. split; [done|]. split; [by rewrite Hsrv|].
  rewrite Hat. intros [_ Hn]%elem_of_difference.
  apply Hn. by apply elem_of_singleton.
Qed.

End Requests.

(** ** [Close] on a server whose subscribers have open queues *)

Section CloseAll.
Context {RO : RangeOrder}.

(** X17.  [Close] on a running server where every subscription that is in a
    set has an open queue: [run] closes each of these queues with its items
    still in it and returns, and the server is marked closed.  A subscription
    that is in no set is left as it is: its queue is not closed. *)
Theorem close_shuts_down_a_healthy_server w :
  running w = true →
  wf w →
  (∀ c p s, p ∈ subs_at c w → heap w !! p = Some s → closed (out s) = false) →
  ∃ w', exec w [Close_quit; Close_mark] = Ok w'
        ∧ running w' = false ∧ isServerClosed w' = true
        ∧ (∀ c p s, p ∈ subs_at c w → heap w !! p = Some s →
             ∃ s', heap w' !! p = Some s'
                   ∧ closed (out s') = true ∧ buf (out s') = buf (out s))
        ∧ (∀ p s, (∀ c, p ∉ subs_at c w) → heap w !! p = Some s →
             heap w' !! p = Some s).
Proof.
  intros Hrun Hwf Hopen.
  destruct (quit_closes_every_queue w Hrun Hwf Hopen)
    as (w1 & Hstep & Hrun1 & _ & Hall).
  exists (markServerClosed w1).
  split.
  { change (exec w [Close_quit; Close_mark])
      with (step w Close_quit ≫= λ w2, exec w2 [Close_mark]).
    by rewrite Hstep. }
  split; [done|]. split; [done|]. split; [exact Hall|].
  intros p s Hnone Hp. apply step_inv in Hstep as [_ Hq].
  change (heap (markServerClosed w1)) with (heap w1).
  by rewrite (run_quit_absent _ _ _ Hnone Hq).
Qed.

End CloseAll.

(** ** A fan-out that parks midway *)

Section Parked.
Context {RO : RangeOrder}.

Lemma range_stop_Ok {A W} (f : A → W → outcome W) inside l :
  ∀ w w', range f l w = Ok w' → range_stop f inside l w = w'.
Proof.
  induction l as [|x l IH]; intros w w' Hr; simpl in *.
  { by injection Hr as <-. }
  destruct (f x w) as [w1| |]; simpl in Hr; [by apply IH|done|done].
Qed.

Lemma range_stop_app {A W} (f : A → W → outcome W) inside l1 l2 :
  ∀ w w1, range f l1 w = Ok w1 →
          range_stop f inside (l1 ++ l2) w = range_stop f inside l2 w1.
Proof.
  induction l1 as [|x l1 IH]; intros w w1 Hr; simpl in *.
  { by injection Hr as <-. }
  destruct (f x w) as [w2| |]; simpl in Hr; [by apply IH|done|done].
Qed.

(** The body of the inner loop parks on [srv.unregister <- s] only, before it
    has written anything. *)
Lemma fanout_stop_Blocked it s w : fanout it s w = Blocked → fanout_stop it s w = w.
Proof.
  unfold fanout, fanout_stop.
  destruct (deref s w) as [sub| |]; simpl; [|done|done].
  destruct (try_send it (out sub)) as [[c|]| |]; simpl; [done| |done|done].
  destruct (send s (unregister (srv w))) as [u| |]; simpl; [|done|done].
  unfold close. by destruct (closed (out sub)).
Qed.

(** What a loop of the fan-out that runs to its end has done to a member it
    visited: a queue with room has the item, a full queue is closed. *)
Lemma range_fanout_at it l : NoDup l →
  ∀ w w' p s,
  p ∈ l → range (fanout it) l w = Ok w' → heap w !! p = Some s →
  closed (out s) = false
  ∧ heap w' !! p =
    Some (Subscription (channel s) (lastEventID s)
            (if full (out s) then Chan (buf (out s)) (cap (out s)) true
             else Chan (buf (out s) ++ [it]) (cap (out s)) false)).
Proof.
  induction 1 as [|x l Hx Hnd IH]; intros w w' p s Hp Hr Hs.
  { by apply not_elem_of_nil in Hp. }
  simpl in Hr. destruct (fanout it x w) as [w2| |] eqn:Hf; simpl in Hr; [|done|done].
  destruct (decide (p = x)) as [->|Hne].
  - rewrite (range_fanout_absent it x l Hx _ _ Hr).
    rewrite (fanout_unfold _ _ _ _ Hs) in Hf.
    destruct (closed (out s)); [done|]. split; [done|].
    destruct (full (out s)).
    + destruct (closed (unregister (srv w))); [done|].
      destruct (full (unregister (srv w))); [done|].
      injection Hf as <-. by apply heap_set_out_eq.
    + injection Hf as <-. by apply heap_set_out_eq.
  - apply elem_of_cons in Hp as [?|Hp]; [done|].
    apply (IH w2 w' p s Hp Hr).
    rewrite (fanout_other _ _ _ _ p Hf); [done|by intros ->].
Qed.

(** Once [run] takes no request any more, the queue of a subscription that
    has no replay left changes by what its handler reads and by nothing
    else, and no set changes. *)
Lemma step_stopped_entry e w w1 p s :
  running w = false → step w e = Ok w1 →
  heap w !! p = Some s → replay_done p w →
  running w1 = false ∧ subs w1 = subs w ∧ replay_done p w1
  ∧ ∃ s1, heap w1 !! p = Some s1
          ∧ closed (out s1) = closed (out s)
          ∧ received_by p w1 ++ buf (out s1) = received_by p w ++ buf (out s).
Proof.
  intros Hrun Hstep Hp Hdone.
  destruct (after_run_returns _ _ _ Hrun Hstep) as (Hsubs & _ & Hrun1).
  split; [done|]. split; [done|].
  pose proof Hstep as Hinv. apply step_inv in Hinv.
  destruct e as [ch repo|chs ev|chs text| | |ch id|q|q| |g].
  - destruct Hinv as [? _]. congruence.
  - destruct Hinv as [? _]. congruence.
  - destruct Hinv as [? _]. congruence.
  - destruct Hinv as [? _]. congruence.
  - subst w1. split; [done|]. by exists s.
  - destruct Hinv as [[_ ->]|(_ & ? & _)]; [|congruence].
    split; [done|]. by exists s.
  - change (step w (Handler_out q)) with (Handler_receive q w) in Hstep.
    destruct (Handler_receive_spec q w w1 p s Hstep Hp)
      as (Hrpl & s1 & Hp1 & Hcl & _ & HX).
    split; [by eapply replay_done_same|]. by exists s1.
  - destruct Hinv as (_ & _ & _ & ->). split; [done|]. by exists s.
  - destruct Hinv as [? _]. congruence.
  - destruct Hinv as (q & ev & rest & sq & Hg & Hq & _ & _ & ->).
    assert (q ≠ p) as Hne by (intros ->; by specialize (Hdone _ _ Hg)).
    set (c := Chan (buf (out sq) ++ [IsEvent ev]) (cap (out sq)) false).
    split.
    + intros g' r. simpl. intros Hg'.
      apply list_lookup_insert_Some in Hg' as [(_ & Heq & _)|[_ Hg']].
      * congruence.
      * by eapply Hdone.
    + exists s. split; [simpl; by rewrite heap_set_out_ne|]. split; [done|].
      rewrite (received_by_same p w); [done|]. simpl.
      by destruct (same_maps_set_out q c w) as (_ & _ & _ & _ & -> & _).
Qed.

Lemma exec_stopped_entry es :
  ∀ w w' p s,
  running w = false → exec w es = Ok w' →
  heap w !! p = Some s → replay_done p w →
  subs w' = subs w
  ∧ ∃ s', heap w' !! p = Some s'
          ∧ closed (out s') = closed (out s)
          ∧ received_by p w' ++ buf (out s') = received_by p w ++ buf (out s).
Proof.
  induction es as [|e es IH]; intros w w' p s Hrun Hex Hp Hdone.
  { injection Hex as <-. split; [done|]. by exists s. }
  simpl in Hex. destruct (step w e) as [w1| |] eqn:Hstep; try done.
  simpl in Hex.
  destruct (step_stopped_entry _ _ _ _ _ Hrun Hstep Hp Hdone)
    as (Hrun1 & Hsubs1 & Hdone1 & s1 & Hp1 & Hcl1 & HX1).
  destruct (IH _ _ _ _ Hrun1 Hex Hp1 Hdone1) as (Hsubs' & s' & Hp' & Hcl' & HX').
  split; [congruence|]. exists s'. split; [done|]. split; congruence.
Qed.

(** C5, where the code departs from it: the fan-out of a publish parks on
    [srv.unregister <- s] when it meets a full queue and the buffer of
    [srv.unregister] is full, and [run] stays parked there.  The members of
    the set that the loop visited before have been served and those after
    are never visited.  So of two subscriptions of the channel that are
    healthy (in the set, queue open and not full) and have no replay left,
    [g] visited before the one the loop parks on and [h] after it, [g] is
    handed the item and [h] never is: in every schedule from there on both
    are still in the set with open queues, and what the handler of [g] has
    read followed by what its queue holds has the item at its end, while for
    [h] it is what it was before the publish. *)
Theorem parked_fanout_skips_healthy_subscriber w c ev pre q post w1 g sg h sh :
  running w = true →
  range_set w (subs_at c w) = pre ++ q :: post →
  range (fanout (IsEvent ev)) pre w = Ok w1 →
  fanout (IsEvent ev) q w1 = Blocked →
  g ∈ pre → heap w !! g = Some sg →
  closed (out sg) = false → full (out sg) = false → replay_done g w →
  h ∈ post → heap w !! h = Some sh →
  closed (out sh) = false → full (out sh) = false → replay_done h w →
  step w (Publish [c] ev) = Blocked
  ∧ ∀ es w',
      exec (run_pub_parked {| channels := [c]; item := IsEvent ev |} w) es = Ok w' →
      g ∈ subs_at c w' ∧ h ∈ subs_at c w'
      ∧ ∃ sg' sh',
          heap w' !! g = Some sg' ∧ closed (out sg') = false
          ∧ received_by g w' ++ buf (out sg') =
            received_by g w ++ buf (out sg) ++ [IsEvent ev]
          ∧ heap w' !! h = Some sh' ∧ closed (out sh') = false
          ∧ received_by h w' ++ buf (out sh') = received_by h w ++ buf (out sh).
Proof.
  intros Hrun Hord Hpre Hq Hg Hsg Hgo Hgf Hgd Hh Hsh Hho Hhf Hhd.
  assert (NoDup (pre ++ q :: post)) as Hnd.
  { rewrite <- Hord. apply range_set_NoDup. }
  apply NoDup_app in Hnd as (Hnd_pre & Hdisj & _).
  assert (range (fanout (IsEvent ev)) (range_set w (subs_at c w)) w = Blocked)
    as Hblk.
  { rewrite Hord, range_app, Hpre. simpl. by rewrite Hq. }
  assert (run_pub_stop {| channels := [c]; item := IsEvent ev |} w = w1) as Hstop.
  { unfold run_pub_stop. simpl. rewrite Hblk, Hord.
    rewrite (range_stop_app _ _ _ _ _ _ Hpre). simpl. rewrite Hq.
    by apply fanout_stop_Blocked. }
  split.
  { simpl. unfold in_run, run_pub. rewrite Hrun. simpl. by rewrite Hblk. }
  intros es w' Hex. unfold run_pub_parked in Hex. rewrite Hstop in Hex.
  destruct (range_same_maps _ _ (fanout_same_maps (IsEvent ev)) _ _ Hpre)
    as (Hsubs & _ & _ & Hrpl & Hrcv & _).
  destruct (range_fanout_at _ _ Hnd_pre _ _ _ _ Hg Hpre Hsg) as [_ Hsg1].
  rewrite Hgf in Hsg1.
  assert (heap w1 !! h = Some sh) as Hsh1.
  { assert (h ∉ pre) as Hnot.
    { intros Hin. apply (Hdisj h Hin). by apply list_elem_of_further. }
    by rewrite (range_fanout_absent (IsEvent ev) h pre Hnot w w1 Hpre). }
  assert (g ∈ subs_at c w ∧ h ∈ subs_at c w) as [Hgin Hhin].
  { split; eapply elem_of_range_set; rewrite Hord.
    - apply elem_of_app. by left.
    - apply elem_of_app. right. by apply list_elem_of_further. }
  set (wp := set_running false w1) in *.
  assert (replays wp = replays w) as Hrplp by done.
  assert (received wp = received w) as Hrcvp by done.
  destruct (exec_stopped_entry es wp w' g _ eq_refl Hex Hsg1)
    as (Hsubs' & sg' & Hsg' & Hgc' & HgX); [by eapply replay_done_same|].
  destruct (exec_stopped_entry es wp w' h _ eq_refl Hex Hsh1)
    as (_ & sh' & Hsh' & Hhc' & HhX); [by eapply replay_done_same|].
  assert (∀ p, p ∈ subs_at c w → p ∈ subs_at c w') as Hkeep.
  { intros p. unfold subs_at. rewrite Hsubs'. simpl. by rewrite Hsubs. }
  split; [by apply Hkeep|]. split; [by apply Hkeep|].
  exists sg', sh'. split; [done|]. split; [by rewrite Hgc'|]. split.
  { rewrite HgX. simpl. by rewrite (received_by_same g w wp Hrcvp). }
  split; [done|]. split; [by rewrite Hhc'|].
  by rewrite HhX, (received_by_same h w wp Hrcvp).
Qed.

End Parked.

(** ** Replay, as long as the queue is open *)

Section ReplayOpen.
Context {RO : RangeOrder}.

(** C8, as the code has it: the dispatcher of a subscription whose queue has
    a buffer and is open sends the items of its replay sequence one by one,
    in the order of the sequence, with a send that waits while the queue is
    full.  (a) A step of the dispatcher on a full queue does not proceed, and
    once the reader has taken an item of a queue filled to its capacity it
    does; (b) no step of any other goroutine takes an item off the sequence;
    (c) whatever the dispatcher and the readers do, in any order, what the
    reader has taken out, what is in the queue and what is still to be sent
    make up what was there before followed by the whole sequence, in order;
    (d) with room for all of them the dispatcher runs through and the queue
    ends with the sequence appended; (e) in any schedule of the whole
    program that leaves the queue open, the events sent so far are in what
    the subscription was handed, in the order of the sequence (among what
    was published meanwhile), and the others are still with the task; (f) the
    queue does not always stay open: a publish naming the channel that finds
    the queue of the subscriber full closes it, and what was not sent yet is
    still with the task. *)
Theorem replay_sends_every_item_in_order g p items s w :
  replays w !! g = Some (p, items) →
  heap w !! p = Some s →
  closed (out s) = false →
  0 < cap (out s) →
  (items ≠ [] → full (out s) = true →
     step w (Replay_send g) = Blocked
     ∧ (length (buf (out s)) ≤ cap (out s) →
        ∃ w1 w2, step w (Handler_out p) = Ok w1
                 ∧ step w1 (Replay_send g) = Ok w2))
  ∧ (∀ e w1, e ≠ Replay_send g → step w e = Ok w1 →
       replays w1 !! g = Some (p, items))
  ∧ (∀ es w',
       (∀ e, e ∈ es → e = Replay_send g ∨ ∃ q, e = Handler_out q) →
       exec w es = Ok w' →
       ∃ s' rest, heap w' !! p = Some s' ∧ replays w' !! g = Some (p, rest)
                  ∧ received_by p w' ++ buf (out s') ++ (IsEvent <$> rest) =
                    received_by p w ++ buf (out s) ++ (IsEvent <$> items))
  ∧ (length (buf (out s)) + length items ≤ cap (out s) →
       ∃ w' s', exec w (replicate (length items) (Replay_send g)) = Ok w'
                ∧ heap w' !! p = Some s'
                ∧ buf (out s') = buf (out s) ++ (IsEvent <$> items)
                ∧ replays w' !! g = Some (p, []))
  ∧ (∀ es w' s',
       wf w → exec w es = Ok w' →
       heap w' !! p = Some s' → closed (out s') = false →
       ∃ sent rest d,
         items = sent ++ rest
         ∧ replays w' !! g = Some (p, rest)
         ∧ received_by p w' ++ buf (out s') =
           received_by p w ++ buf (out s) ++ d
         ∧ (IsEvent <$> sent) `sublist_of` d)
  ∧ (∀ chs ev w1,
       channel s ∈ chs → p ∈ subs_at (channel s) w → full (out s) = true →
       step w (Publish chs ev) = Ok w1 →
       ∃ s1, heap w1 !! p = Some s1 ∧ closed (out s1) = true
             ∧ replays w1 !! g = Some (p, items)).
Proof.
  intros Hg Hp Hopen Hcap. split; [|split; [|split; [|split; [|split]]]].
  - intros Hne Hfull. destruct items as [|ev rest]; [done|]. split.
    { simpl. by rewrite (replay_unfold _ _ _ _ _ _ Hg Hp), Hopen, Hfull. }
    intros Hle. apply full_true in Hfull.
    destruct (buf (out s)) as [|v vs] eqn:Hbuf; [simpl in Hfull; lia|].
    simpl. unfold Handler_receive, Handler_sub, recv. rewrite Hp. simpl.
    rewrite Hbuf. simpl. eexists. eexists. split; [done|].
    set (c := Chan vs _ _). set (w1 := set_received _ _).
    assert (heap w1 !! p = Some (Subscription (channel s) (lastEventID s) c)) as Hp1.
    { subst w1. simpl. by apply heap_set_out_eq. }
    assert (replays w1 !! g = Some (p, ev :: rest)) as Hg1.
    { subst w1. simpl.
      by destruct (same_maps_set_out p c w) as (_ & _ & _ & -> & _). }
    rewrite (replay_unfold _ _ _ _ _ _ Hg1 Hp1). simpl. rewrite Hopen.
    assert (full c = false) as ->; [|done].
    apply full_false. simpl in *. lia.
  - intros e w1 He Hstep. by eapply step_keeps_task.
  - intros es w' Hes Hx.
    destruct (replay_conserves g p es w w' items s Hes Hx Hg Hp Hopen)
      as (s' & rest & ? & ? & ? & ?).
    by exists s', rest.
  - intros Hroom.
    destruct (replay_runs_through g p items w s Hg Hp Hopen Hroom)
      as (w' & s' & ? & ? & ? & ? & ? & ?).
    by exists w', s'.
  - intros es w' s' Hwf Hx Hs' Hopen'. by eapply replay_in_any_schedule.
  - intros chs ev w1 Hch Hin Hfull Hstep.
    apply step_inv in Hstep as [_ Hpub].
    destruct (run_pub_same_maps _ _ _ Hpub) as (_ & _ & _ & Hrpl & _).
    destruct (run_pub_spoiled (IsEvent ev) p chs w w1 Hpub) as (_ & _ & Hbad).
    destruct (Hbad (ex_intro _ s (conj Hp (or_intror Hfull))) _ Hch Hin)
      as (s1 & Hs1 & Hc1).
    exists s1. split; [done|]. split; [done|]. by rewrite Hrpl.
Qed.

End ReplayOpen.

(** ** The claims on concrete runs *)

Lemma wf_from_NewServer n es w :
  exec (RO:=elements_order) (with_BufferSize n NewServer) es = Ok w → wf w.
Proof.
  intros Hx. eapply (@wf_exec elements_order); [exact Hx|].
  intros c p Hp. by apply not_elem_of_empty in Hp.
Qed.

Lemma slow_consumer_stays_in_set_with_closed_queue_witness :
  ∃ w1 s1, step (RO:=elements_order) w_full (Publish ["a"] ev2) = Ok w1
           ∧ 0 ∈ subs_at "a" w1
           ∧ heap w1 !! 0 = Some s1 ∧ closed (out s1) = true
           ∧ buf (unregister (srv w1)) = buf (unregister (srv w_full)) ++ [0]
           ∧ ∀ ev', step (RO:=elements_order) w1 (Publish ["a"] ev')
                    = Panic SendOnClosedChannel.
Proof.
  apply (slow_consumer_stays_in_set_with_closed_queue (RO:=elements_order)
           w_full "a" 0 (Subscription "a" "" (Chan [IsEvent ev1] 1 false)) ev2);
    vm_compute; reflexivity.
Defined.

Lemma replay_on_closed_queue_panics_witness :
  step (RO:=elements_order) (run_from w_replay [Close_quit]) (Replay_send 0)
  = Panic SendOnClosedChannel.
Proof.
  apply (replay_on_closed_queue_panics (RO:=elements_order)
           (run_from w_replay [Close_quit]) 0 0 ev1 [ev2; ev3]
           (Subscription "news" "0" (Chan [] 128 true)));
    vm_compute; reflexivity.
Defined.

(** C3, as stated, fails: the handler of the one subscriber of "a" sends its
    unregister, [run] processes it, the subscription is out of the set and
    its queue is still open; a reader of the queue is not released. *)
Lemma unregister_leaves_queue_open :
  elements (subs_at "a" w_leaving) = [0]
  ∧ ∃ w', step (RO:=elements_order) w_leaving Run_unregister = Ok w'
          ∧ elements (subs_at "a" w') = []
          ∧ (closed ∘ out) <$> heap w' !! 0 = Some false
          ∧ step (RO:=elements_order) w' (Handler_out 0) = Blocked.
Proof.
  split; [by vm_compute|]. eexists. split; [by vm_compute|]. by vm_compute.
Qed.

Lemma unregister_removes_and_keeps_queue_witness :
  ∃ w', step (RO:=elements_order) w_leaving Run_unregister = Ok w'
        ∧ (0 ∉ subs_at "a" w')
        ∧ (∀ p, p ≠ 0 → (p ∈ subs_at "a" w' ↔ p ∈ subs_at "a" w_leaving))
        ∧ (∀ c, c ≠ "a" → subs w' !! c = subs w_leaving !! c)
        ∧ heap w' = heap w_leaving
        ∧ repos w' = repos w_leaving ∧ replays w' = replays w_leaving
        ∧ received w' = received w_leaving ∧ running w' = true
        ∧ step (RO:=elements_order) w' (Handler_out 0) = Blocked.
Proof.
  destruct (unregister_removes_and_keeps_queue (RO:=elements_order)
              w_leaving 0 [] (Subscription "a" "" (Chan [] 128 false)))
    as (w' & H1 & H2 & H3 & H4 & H5 & H6 & H7 & H8 & H9 & H10);
    [reflexivity|reflexivity|reflexivity| |].
  - apply (bool_decide_unpack _). by vm_compute.
  - exists w'. split; [exact H1|]. split; [exact H2|]. split; [exact H3|].
    split; [exact H4|]. split; [exact H5|]. split; [exact H6|].
    split; [exact H7|]. split; [exact H8|]. split; [exact H9|].
    by apply H10.
Defined.

Lemma publish_blocks_when_unregister_is_full_witness :
  step (RO:=elements_order) w_three (Publish ["a"] ev2) = Blocked.
Proof.
  apply (publish_blocks_when_unregister_is_full (RO:=elements_order) w_three "a" ev2).
  - reflexivity.
  - intros p Hp. apply elem_of_elements in Hp. vm_compute in Hp.
    exists (Subscription "a" "" (Chan [IsEvent ev1] 1 false)).
    repeat (apply elem_of_cons in Hp as [->|Hp]);
      [by vm_compute..|].
    by apply not_elem_of_nil in Hp.
  - reflexivity.
  - vm_compute. lia.
  - vm_compute. lia.
Defined.

Lemma healthy_subscribers_get_publishes_in_order_witness :
  ∃ d, received_by 0 (run_from w_two es_two)
         ++ [IsComment {| value := "ping" |}; IsEvent ev2] =
       received_by 0 w_two ++ [] ++ d
       ∧ flat_map (published "a") es_two `sublist_of` d
       ∧ (replay_done 0 w_two → d = flat_map (published "a") es_two).
Proof.
  apply (healthy_subscribers_get_publishes_in_order (RO:=elements_order)
           es_two w_two (run_from w_two es_two) 0
           (Subscription "a" "" (Chan [] 128 false))
           (Subscription "a" ""
              (Chan [IsComment {| value := "ping" |}; IsEvent ev2] 128 false))).
  - by apply (wf_from_NewServer 128 [Handler_subs "a" ""; Handler_subs "a" ""]).
  - by vm_compute.
  - reflexivity.
  - by vm_compute.
  - apply (bool_decide_unpack _). by vm_compute.
  - reflexivity.
Defined.

Lemma quit_panics_on_closed_subscription_witness :
  step (RO:=elements_order) w_closed Close_quit = Panic CloseOfClosedChannel.
Proof.
  apply (quit_panics_on_closed_subscription (RO:=elements_order) w_closed "a" 0
           (Subscription "a" "" (Chan [IsEvent ev1] 1 true))).
  - reflexivity.
  - by apply (wf_from_NewServer 1
                [Handler_subs "a" ""; Publish ["a"] ev1; Publish ["a"] ev2]).
  - apply (bool_decide_unpack _). by vm_compute.
  - reflexivity.
  - reflexivity.
Defined.

Lemma unregister_again_is_noop_witness :
  elements (subs_at "a" w_again) = []
  ∧ buf (unregister (srv w_again)) = [0]
  ∧ ∃ w', step (RO:=elements_order) w_again Run_unregister = Ok w'
          ∧ subs w' = subs w_again ∧ repos w' = repos w_again
          ∧ heap w' = heap w_again ∧ running w' = true.
Proof.
  split; [by vm_compute|]. split; [by vm_compute|].
  apply (unregister_again_is_noop (RO:=elements_order) w_again 0 []
           (Subscription "a" "" (Chan [IsEvent ev1] 1 true)));
    [reflexivity|reflexivity|reflexivity|].
  intros Hin. apply elem_of_elements in Hin. vm_compute in Hin.
  by apply not_elem_of_nil in Hin.
Defined.

(** C8, as stated, fails: with room for two items and three to replay, the
    dispatcher has sent two when a publish to the channel finds the queue
    full and closes it; the third item is still with the dispatcher, whose
    send does not go through. *)
Lemma replay_cut_short_by_live_publish :
  ∃ w s, exec (RO:=elements_order) (with_BufferSize 2 NewServer)
           [Register "news" repo3; Handler_subs "news" "0";
            Replay_send 0; Replay_send 0; Publish ["news"] ev4] = Ok w
         ∧ heap w !! 0 = Some s
         ∧ buf (out s) = [IsEvent ev1; IsEvent ev2] ∧ closed (out s) = true
         ∧ replays w !! 0 = Some (0, [ev3])
         ∧ step (RO:=elements_order) w (Replay_send 0) = Panic SendOnClosedChannel.
Proof.
  eexists. eexists. split; [by vm_compute|]. split; [by vm_compute|].
  by vm_compute.
Qed.

Lemma parked_fanout_skips_healthy_subscriber_witness :
  step (RO:=elements_order) w_five (Publish ["a"] ev2) = Blocked
  ∧ ∀ es w',
      exec (RO:=elements_order)
        (run_pub_parked (RO:=elements_order)
           {| channels := ["a"]; item := IsEvent ev2 |} w_five) es = Ok w' →
      4 ∈ subs_at "a" w' ∧ 0 ∈ subs_at "a" w'
      ∧ ∃ sg' sh',
          heap w' !! 4 = Some sg' ∧ closed (out sg') = false
          ∧ received_by 4 w' ++ buf (out sg') =
            received_by 4 w_five ++ [] ++ [IsEvent ev2]
          ∧ heap w' !! 0 = Some sh' ∧ closed (out sh') = false
          ∧ received_by 0 w' ++ buf (out sh') = received_by 0 w_five ++ [].
Proof.
  apply (parked_fanout_skips_healthy_subscriber (RO:=elements_order)
           w_five "a" ev2 [4; 2; 3] 1 [0] w_five_mid
           4 (Subscription "a" "" (Chan [] 1 false))
           0 (Subscription "a" "" (Chan [] 1 false))).
  - reflexivity.
  - by vm_compute.
  - by vm_compute.
  - by vm_compute.
  - apply (bool_decide_unpack _). by vm_compute.
  - by vm_compute.
  - reflexivity.
  - reflexivity.
  - intros g rest Hg. by vm_compute in Hg.
  - apply (bool_decide_unpack _). by vm_compute.
  - by vm_compute.
  - reflexivity.
  - reflexivity.
  - intros g rest Hg. by vm_compute in Hg.
Defined.

Lemma replay_sends_every_item_in_order_witness :
  ∃ w' s', exec (RO:=elements_order) w_replay (replicate 3 (Replay_send 0)) = Ok w'
           ∧ heap w' !! 0 = Some s'
           ∧ buf (out s') = [IsEvent ev1; IsEvent ev2; IsEvent ev3]
           ∧ replays w' !! 0 = Some (0, []).
Proof.
  destruct (replay_sends_every_item_in_order (RO:=elements_order) 0 0
              [ev1; ev2; ev3] (Subscription "news" "0" (Chan [] 128 false))
              w_replay) as (_ & _ & _ & Hroom & _);
    [reflexivity|reflexivity|reflexivity|vm_compute; lia|].
  apply Hroom. vm_compute. lia.
Defined.

Lemma subscribe_adds_and_replays_witness :
  ∃ w', step (RO:=elements_order) (run_from NewServer [Register "news" repo3])
          (Handler_subs "news" "7") = Ok w'
        ∧ replays w' = [(0, [ev1; ev2; ev3])]
        ∧ elements (subs_at "news" w') = [0].
Proof.
  destruct (subscribe_adds_and_replays (RO:=elements_order)
              (run_from NewServer [Register "news" repo3]) "news" "7")
    as (w' & Hstep & _ & Hset & _ & [[_ (repo & Hrepo & Hrpl)]|[Hno _]]);
    [reflexivity|reflexivity|vm_compute; discriminate| |].
  - exists w'. split; [done|]. split.
    + rewrite Hrpl. vm_compute in Hrepo. by injection Hrepo as <-.
    + rewrite Hset. by vm_compute.
  - exfalso. apply Hno. split; [by right|]. by eexists.
Defined.

Lemma unused_channel_is_noop_witness :
  step (RO:=elements_order) w_unseen (Publish ["b"; "c"] ev1) = Ok w_unseen
  ∧ ∃ w', step (RO:=elements_order) w_unseen Run_unregister = Ok w'
          ∧ subs w' = subs w_unseen ∧ repos w' = repos w_unseen
          ∧ heap w' = heap w_unseen.
Proof.
  destruct (unused_channel_is_noop (RO:=elements_order) w_unseen) as [Hpub Hunreg];
    [reflexivity|].
  split.
  - by apply (Hpub ["b"; "c"] ev1 "").
  - by apply (Hunreg 0 [] (Subscription "a" "" (Chan [] 128 false))).
Defined.

(** Queue capacity 2, three publishes and nobody reading: the subscriber ends
    with its queue closed, holding the first two items; its removal is
    queued and happens when [run] takes it. *)
Lemma capacity_two_three_publishes :
  ∃ w, exec (RO:=elements_order) (with_BufferSize 2 NewServer)
         [Handler_subs "a" ""; Publish ["a"] ev1; Publish ["a"] ev2;
          Publish ["a"] ev3] = Ok w
       ∧ heap w !! 0 =
         Some (Subscription "a" "" (Chan [IsEvent ev1; IsEvent ev2] 2 true))
       ∧ buf (unregister (srv w)) = [0]
       ∧ elements (subs_at "a" w) = [0]
       ∧ ∃ w', step (RO:=elements_order) w Run_unregister = Ok w'
               ∧ elements (subs_at "a" w') = [].
Proof.
  eexists. split; [by vm_compute|]. repeat split; try by vm_compute.
  eexists. split; by vm_compute.
Qed.

(** A repository for "news" with three historical events, a subscription
    with a Last-Event-ID, the replay, then a fourth event published: the
    handler reads the three, then the fourth. *)
Lemma replay_then_live :
  ∃ w, exec (RO:=elements_order) NewServer
         [Register "news" repo3; Handler_subs "news" "0";
          Replay_send 0; Replay_send 0; Replay_send 0; Publish ["news"] ev4;
          Handler_out 0; Handler_out 0; Handler_out 0; Handler_out 0] = Ok w
       ∧ received_by 0 w = [IsEvent ev1; IsEvent ev2; IsEvent ev3; IsEvent ev4].
Proof. eexists. split; by vm_compute. Qed.


(** ** Further properties on concrete runs *)

Lemma callers_block_after_close_witness :
  step (RO:=elements_order) (run_from w_quit [Close_mark; Handler_subs "a" ""])
    (Register "a" repo3) = Blocked
  ∧ step (RO:=elements_order) (run_from w_quit [Close_mark; Handler_subs "a" ""])
      (Publish ["a"] ev1) = Blocked
  ∧ step (RO:=elements_order) (run_from w_quit [Close_mark; Handler_subs "a" ""])
      (PublishComment ["a"] "ping") = Blocked
  ∧ step (RO:=elements_order) (run_from w_quit [Close_mark; Handler_subs "a" ""])
      Close_quit = Blocked.
Proof.
  apply (callers_block_after_close (RO:=elements_order) NewServer w_quit
           [Close_mark; Handler_subs "a" ""]
           (run_from w_quit [Close_mark; Handler_subs "a" ""]));
    by vm_compute.
Defined.

Lemma handler_blocks_between_quit_and_mark_witness :
  step (RO:=elements_order) w_quit (Handler_subs "a" "") = Blocked.
Proof.
  apply (handler_blocks_between_quit_and_mark (RO:=elements_order)
           NewServer w_quit [] w_quit "a" "");
    by vm_compute.
Defined.

Lemma closed_server_takes_no_subscription_witness :
  isServerClosed
    (run_from w_shut [Handler_subs "a" ""; Handler_out 0; Handler_unregister 1])
  = true
  ∧ length (heap (run_from w_shut
               [Handler_subs "a" ""; Handler_out 0; Handler_unregister 1]))
    = length (heap w_shut)
  ∧ (replays (run_from w_shut
                [Handler_subs "a" ""; Handler_out 0; Handler_unregister 1])).*1
    = (replays w_shut).*1
  ∧ ∀ c, subs_at c (run_from w_shut
                      [Handler_subs "a" ""; Handler_out 0; Handler_unregister 1])
         ⊆ subs_at c w_shut.
Proof.
  apply (closed_server_takes_no_subscription (RO:=elements_order)
           [Handler_subs "a" ""; Handler_out 0; Handler_unregister 1] w_shut);
    by vm_compute.
Defined.

Lemma handlers_park_on_full_unregister_after_close_witness :
  step (RO:=elements_order) (run_from w_stuck [Handler_out 0])
    (Handler_unregister 1) = Blocked.
Proof.
  apply (handlers_park_on_full_unregister_after_close (RO:=elements_order)
           [Handler_out 0] w_stuck (run_from w_stuck [Handler_out 0]));
    by vm_compute.
Defined.

Lemma subscribers_sit_in_their_own_channel_witness :
  (∃ s, heap (run_from NewServer [Handler_subs "a" ""; Handler_subs "b" ""]) !! 1
        = Some s ∧ channel s = "b")
  ∧ ∀ c', 1 ∈ subs_at c' (run_from NewServer
                            [Handler_subs "a" ""; Handler_subs "b" ""]) → c' = "b".
Proof.
  apply (subscribers_sit_in_their_own_channel (RO:=elements_order) NewServer
           [Handler_subs "a" ""; Handler_subs "b" ""]
           (run_from NewServer [Handler_subs "a" ""; Handler_subs "b" ""])).
  - reflexivity.
  - by vm_compute.
  - apply (bool_decide_unpack _). by vm_compute.
Defined.

Lemma unregistered_never_comes_back_witness :
  0 ∉ subs_at "a" (run_from w_left [Publish ["a"] ev1; Handler_subs "a" ""]).
Proof.
  apply (unregistered_never_comes_back (RO:=elements_order) w_leaving w_left
           [Publish ["a"] ev1; Handler_subs "a" ""]
           (run_from w_left [Publish ["a"] ev1; Handler_subs "a" ""]) 0 []
           (Subscription "a" "" (Chan [] 128 false))).
  - by apply (wf_from_NewServer 128 [Handler_subs "a" ""; Handler_unregister 0]).
  - by vm_compute.
  - apply (bool_decide_unpack _). by vm_compute.
  - by vm_compute.
  - by vm_compute.
  - by vm_compute.
Defined.

Lemma unregistered_subscription_gets_nothing_more_witness :
  ∃ s', heap (run_from w_left [Publish ["a"] ev1; Close_quit]) !! 0 = Some s'
        ∧ closed (out s') = false
        ∧ received_by 0 (run_from w_left [Publish ["a"] ev1; Close_quit])
            ++ buf (out s') = received_by 0 w_left ++ [].
Proof.
  apply (unregistered_subscription_gets_nothing_more (RO:=elements_order)
           [Publish ["a"] ev1; Close_quit] w_left
           (run_from w_left [Publish ["a"] ev1; Close_quit]) 0
           (Subscription "a" "" (Chan [] 128 false))).
  - by apply (wf_from_NewServer 128
                [Handler_subs "a" ""; Handler_unregister 0; Run_unregister]).
  - by vm_compute.
  - intros Hin. apply elem_of_elements in Hin. vm_compute in Hin.
    by apply not_elem_of_nil in Hin.
  - intros g rest Hg. by vm_compute in Hg.
  - by vm_compute.
Defined.

Lemma handler_reads_queue_to_its_end_witness :
  ∃ w' s',
    exec (RO:=elements_order) w_closed [Handler_out 0] = Ok w'
    ∧ heap w' !! 0 = Some s'
    ∧ buf (out s') = [] ∧ closed (out s') = true
    ∧ received_by 0 w' = received_by 0 w_closed ++ [IsEvent ev1]
    ∧ step (RO:=elements_order) w' (Handler_out 0) = Ok w'.
Proof.
  apply (handler_reads_queue_to_its_end (RO:=elements_order) 0 w_closed
           (Subscription "a" "" (Chan [IsEvent ev1] 1 true))).
  by vm_compute.
Defined.

Lemma publish_reaches_every_subscriber_with_room_witness :
  (∃ w', step (RO:=elements_order) w_two (Publish ["a"] ev1) = Ok w'
         ∧ srv w' = srv w_two ∧ subs w' = subs w_two
         ∧ ∀ p s, heap w_two !! p = Some s →
             heap w' !! p =
             Some (if decide (p ∈ subs_at "a" w_two)
                   then Subscription (channel s) (lastEventID s)
                          (Chan (buf (out s) ++ [IsEvent ev1]) (cap (out s)) false)
                   else s))
  ∧ (∃ w', step (RO:=elements_order) w_two (PublishComment ["a"] "ping") = Ok w'
           ∧ srv w' = srv w_two ∧ subs w' = subs w_two
           ∧ ∀ p s, heap w_two !! p = Some s →
               heap w' !! p =
               Some (if decide (p ∈ subs_at "a" w_two)
                     then Subscription (channel s) (lastEventID s)
                            (Chan (buf (out s) ++ [IsComment {| value := "ping" |}])
                                  (cap (out s)) false)
                     else s)).
Proof.
  apply (publish_reaches_every_subscriber_with_room (RO:=elements_order)
           w_two "a" ev1 "ping").
  - reflexivity.
  - intros p Hp. apply elem_of_elements in Hp. vm_compute in Hp.
    exists (Subscription "a" "" (Chan [] 128 false)).
    repeat (apply elem_of_cons in Hp as [->|Hp]);
      [by vm_compute..|].
    by apply not_elem_of_nil in Hp.
Defined.

Lemma publish_naming_a_channel_twice_fails_witness :
  ¬ ∃ w', step (RO:=elements_order) w_full (Publish ["a"; "a"] ev2) = Ok w'.
Proof.
  apply (publish_naming_a_channel_twice_fails (RO:=elements_order) w_full "a" 0
           (Subscription "a" "" (Chan [IsEvent ev1] 1 false)) [] [] [] ev2).
  - by vm_compute.
  - vm_compute. lia.
  - reflexivity.
  - apply (bool_decide_unpack _). by vm_compute.
Defined.

Lemma queues_stay_within_BufferSize_witness :
  ∃ s, heap w_closed !! 0 = Some s
       ∧ cap (out s) = Z.to_nat (BufferSize (srv (with_BufferSize 1 NewServer)))
       ∧ length (buf (out s))
         ≤ Z.to_nat (BufferSize (srv (with_BufferSize 1 NewServer))).
Proof.
  exists (Subscription "a" "" (Chan [IsEvent ev1] 1 true)).
  split; [by vm_compute|].
  apply (queues_stay_within_BufferSize (RO:=elements_order)
           (with_BufferSize 1 NewServer)
           [Handler_subs "a" ""; Publish ["a"] ev1; Publish ["a"] ev2] w_closed
           eq_refl eq_refl 0).
  by vm_compute.
Defined.

Lemma unregister_stays_open_and_bounded_witness :
  closed (unregister (srv w_closed)) = false
  ∧ cap (unregister (srv w_closed)) = cap (unregister (srv w_full))
  ∧ length (buf (unregister (srv w_closed))) ≤ cap (unregister (srv w_full)).
Proof.
  apply (unregister_stays_open_and_bounded (RO:=elements_order) w_full
           [Publish ["a"] ev2] w_closed).
  - reflexivity.
  - vm_compute. lia.
  - by vm_compute.
Defined.

Lemma last_registration_wins_witness :
  repos (run_from NewServer
           [Register "news" repo0; Register "news" repo3;
            Handler_subs "news" "0"; Register "other" repo0]) !! "news"
  = Some repo3.
Proof.
  apply (last_registration_wins (RO:=elements_order) "news" repo3
           [Register "news" repo0]
           [Handler_subs "news" "0"; Register "other" repo0] NewServer).
  - apply Forall_cons_2; [by intros ?|].
    apply Forall_cons_2; [|apply Forall_nil_2].
    simpl. intros Heq. discriminate Heq.
  - by vm_compute.
Defined.

Lemma channel_sets_are_never_dropped_witness :
  is_Some (subs w_left !! "a").
Proof.
  apply (channel_sets_are_never_dropped (RO:=elements_order)
           [Run_unregister] w_leaving w_left "a").
  - apply (bool_decide_unpack _). by vm_compute.
  - by vm_compute.
Defined.

Lemma replay_is_started_at_most_once_witness :
  NoDup (replays (run_from w_two [Register "a" repo3; Handler_subs "a" "5"])).*1
  ∧ ∀ p, p < length (heap w_two) →
      p ∈ (replays (run_from w_two [Register "a" repo3; Handler_subs "a" "5"])).*1 →
      p ∈ (replays w_two).*1.
Proof.
  apply (replay_is_started_at_most_once (RO:=elements_order)
           [Register "a" repo3; Handler_subs "a" "5"] w_two).
  - vm_compute. apply NoDup_nil_2.
  - intros q Hq. vm_compute in Hq. by apply not_elem_of_nil in Hq.
  - by vm_compute.
Defined.

Lemma close_shuts_down_a_healthy_server_witness :
  ∃ w', exec (RO:=elements_order) (run_from w_two [Publish ["a"] ev1])
          [Close_quit; Close_mark] = Ok w'
        ∧ running w' = false ∧ isServerClosed w' = true
        ∧ (∀ c p s, p ∈ subs_at c (run_from w_two [Publish ["a"] ev1]) →
             heap (run_from w_two [Publish ["a"] ev1]) !! p = Some s →
             ∃ s', heap w' !! p = Some s'
                   ∧ closed (out s') = true ∧ buf (out s') = buf (out s))
        ∧ (∀ p s, (∀ c, p ∉ subs_at c (run_from w_two [Publish ["a"] ev1])) →
             heap (run_from w_two [Publish ["a"] ev1]) !! p = Some s →
             heap w' !! p = Some s).
Proof.
  apply (close_shuts_down_a_healthy_server (RO:=elements_order)
           (run_from w_two [Publish ["a"] ev1])).
  - reflexivity.
  - by apply (wf_from_NewServer 128
                [Handler_subs "a" ""; Handler_subs "a" ""; Publish ["a"] ev1]).
  - intros c p s _ Hs. destruct p as [|[|p]]; vm_compute in Hs;
      [by injection Hs as <-..|done].
Defined.

Lemma unregister_case_never_fails_witness :
  ∃ w'' ss, heap w_closed !! 0 = Some ss
            ∧ step (RO:=elements_order) w_closed Run_unregister = Ok w''
            ∧ buf (unregister (srv w'')) = []
            ∧ 0 ∉ subs_at (channel ss) w''.
Proof.
  apply (unregister_case_never_fails (RO:=elements_order)
           (with_BufferSize 1 NewServer)
           [Handler_subs "a" ""; Publish ["a"] ev1; Publish ["a"] ev2] w_closed).
  - reflexivity.
  - vm_compute. lia.
  - intros q Hq. vm_compute in Hq. by apply not_elem_of_nil in Hq.
  - by vm_compute.
  - reflexivity.
Defined.
